(** * Verification of the testbench-generation agent

    A shallow embedding of the Python sources

      - [utils/port_extractor.py]   (interface extraction, feature flags)
      - [utils/code_generator.py]   (sanitizer of generated code)
      - [templates/error_fixes.py]  (diagnostic parsing and fix synthesis)
      - [rtl_runner.py]             (the Verilator flow)
      - [test_simulation_agent.py]  (the refinement loop)

    Python [str] values are modelled as lists of 8-bit characters.  The
    model is exact on ASCII text.  Characters above 127 occur only in the
    decorative banners of the fix templates, where they are kept as their
    UTF-8 bytes; the classes [\s], [\d], [\w] and [str.lower] treat such
    bytes as ordinary symbols. *)

From Stdlib Require Import Ascii String.
From Stdlib Require Import List Bool Arith Lia NArith ZArith.
Import ListNotations.

Set Implicit Arguments.

(** ** Python strings *)

Module PyStr.

Definition str := list ascii.

Definition txt (s : string) : str := list_ascii_of_string s.
Arguments txt s%_string.

Definition code (c : ascii) : nat := nat_of_ascii c.

Definition nl : ascii := ascii_of_nat 10.

Fixpoint str_eqb (a b : str) : bool :=
  match a, b with
  | [], [] => true
  | x :: a', y :: b' => Ascii.eqb x y && str_eqb a' b'
  | _, _ => false
  end.

(** [s.startswith(p)] *)
Fixpoint starts_with (p s : str) : bool :=
  match p, s with
  | [], _ => true
  | x :: p', y :: s' => Ascii.eqb x y && starts_with p' s'
  | _ :: _, [] => false
  end.

(** [s.endswith(p)] *)
Definition ends_with (p s : str) : bool := starts_with (rev p) (rev s).

(** [s.find(sub)], with Python's [-1] rendered as [None]; the counter [i]
    is the index of the first character of [s] in the whole text. *)
Fixpoint find_from (sub : str) (i : nat) (s : str) : option nat :=
  if starts_with sub s then Some i
  else match s with
       | [] => None
       | _ :: s' => find_from sub (S i) s'
       end.

Definition find (sub s : str) : option nat := find_from sub 0 s.

(** [s.rfind(sub)]: the highest index at which [sub] occurs. *)
Fixpoint rfind_from (sub : str) (i : nat) (s : str) : option nat :=
  match s with
  | [] => if starts_with sub [] then Some i else None
  | _ :: s' =>
      match rfind_from sub (S i) s' with
      | Some j => Some j
      | None => if starts_with sub s then Some i else None
      end
  end.

Definition rfind (sub s : str) : option nat := rfind_from sub 0 s.

(** [sub in s] *)
Definition contains (sub s : str) : bool :=
  match find sub s with Some _ => true | None => false end.

(** [s[a:b]] for non-negative [a], [b] *)
Definition slice (a b : nat) (s : str) : str := firstn (b - a) (skipn a s).

(** [s.split('\n')] *)
Fixpoint split_lines_acc (cur : str) (s : str) : list str :=
  match s with
  | [] => [rev cur]
  | c :: s' =>
      if Ascii.eqb c nl then rev cur :: split_lines_acc [] s'
      else split_lines_acc (c :: cur) s'
  end.

Definition split_lines (s : str) : list str := split_lines_acc [] s.

(** [sep.join(parts)] *)
Fixpoint join (sep : str) (parts : list str) : str :=
  match parts with
  | [] => []
  | [p] => p
  | p :: rest => p ++ sep ++ join sep rest
  end.

Definition is_upper (c : ascii) : bool := (65 <=? code c) && (code c <=? 90).
Definition is_lower (c : ascii) : bool := (97 <=? code c) && (code c <=? 122).
Definition is_digit (c : ascii) : bool := (48 <=? code c) && (code c <=? 57).

(** The class [\w] on ASCII: letters, digits and the underscore. *)
Definition is_word (c : ascii) : bool :=
  is_upper c || is_lower c || is_digit c || (code c =? 95).

(** The class [\s] of a [str] pattern, and [str.isspace], on ASCII: tab,
    newline, vertical tab, form feed, carriage return, the four separators
    28..31 and the space. *)
Definition is_space (c : ascii) : bool :=
  ((9 <=? code c) && (code c <=? 13)) || ((28 <=? code c) && (code c <=? 32)).

Definition lower_char (c : ascii) : ascii :=
  if is_upper c then ascii_of_nat (code c + 32) else c.

(** [s.lower()] *)
Definition lower (s : str) : str := map lower_char s.

Fixpoint lstrip (s : str) : str :=
  match s with
  | c :: s' => if is_space c then lstrip s' else s
  | [] => []
  end.

(** [s.strip()] *)
Definition strip (s : str) : str := rev (lstrip (rev (lstrip s))).

(** [int(s)] for a non-empty string of ASCII digits *)
Definition digit_val (c : ascii) : N := N.of_nat (code c - 48).

Definition int_of (s : str) : N :=
  fold_left (fun acc c => (10 * acc + digit_val c)%N) s 0%N.

(** [x in xs] for a list of strings *)
Definition mem (x : str) (xs : list str) : bool := existsb (str_eqb x) xs.

End PyStr.

Import PyStr.

(** ** A backtracking matcher for the fragment of [re] the sources use *)

Module Re.

Inductive regex : Type :=
| Eps
| Chr (c : ascii)
| Cls (p : ascii -> bool)
| Cat (r1 r2 : regex)
| Alt (r1 r2 : regex)
| Opt (r : regex)
| Rep (greedy : bool) (r : regex)        (* [r*] and [r*?] *)
| Grp (n : nat) (r : regex).             (* capturing group number [n] *)

(** [r+] and [r+?] *)
Definition Plus (r : regex) : regex := Cat r (Rep true r).
Definition PlusLazy (r : regex) : regex := Cat r (Rep false r).

Definition lit (s : str) : regex := fold_right (fun c r => Cat (Chr c) r) Eps s.

Definition seq (rs : list regex) : regex := fold_right Cat Eps rs.

(** [.] without DOTALL *)
Definition Dot : regex := Cls (fun c => negb (Ascii.eqb c nl)).

Definition captures := list (nat * str).

Fixpoint group (n : nat) (cs : captures) : str :=
  match cs with
  | [] => []
  | (m, s) :: cs' => if m =? n then s else group n cs'
  end.

Fixpoint ngroups (r : regex) : nat :=
  match r with
  | Eps | Chr _ | Cls _ => 0
  | Cat r1 r2 | Alt r1 r2 => ngroups r1 + ngroups r2
  | Opt r1 | Rep _ r1 => ngroups r1
  | Grp _ r1 => S (ngroups r1)
  end.

Section Matcher.

Variable R : Type.

Definition orelse (a : option R) (b : unit -> option R) : option R :=
  match a with Some x => Some x | None => b tt end.

(** [rmatch r s cs k] tries [r] at the head of [s]; every way of matching
    is offered to the continuation [k] in the priority order of a
    backtracking engine, and the first one [k] accepts wins.  A repetition
    goes round again only after a round that consumed input. *)
Fixpoint rmatch (r : regex) (s : str) (cs : captures)
                (k : str -> captures -> option R) {struct r} : option R :=
  match r with
  | Eps => k s cs
  | Chr c =>
      match s with
      | x :: s' => if Ascii.eqb x c then k s' cs else None
      | [] => None
      end
  | Cls p =>
      match s with
      | x :: s' => if p x then k s' cs else None
      | [] => None
      end
  | Cat r1 r2 => rmatch r1 s cs (fun s1 c1 => rmatch r2 s1 c1 k)
  | Alt r1 r2 => orelse (rmatch r1 s cs k) (fun _ => rmatch r2 s cs k)
  | Opt r1 => orelse (rmatch r1 s cs k) (fun _ => k s cs)
  | Grp n r1 =>
      rmatch r1 s cs
        (fun s1 c1 => k s1 ((n, firstn (length s - length s1) s) :: c1))
  | Rep greedy r1 =>
      (fix loop (fuel : nat) (s0 : str) (c0 : captures) {struct fuel}
         : option R :=
         match fuel with
         | 0 => k s0 c0
         | S f =>
             let again (_ : unit) :=
               rmatch r1 s0 c0
                 (fun s1 c1 =>
                    if length s1 <? length s0 then loop f s1 c1 else None) in
             if greedy then orelse (again tt) (fun _ => k s0 c0)
             else orelse (k s0 c0) again
         end) (length s) s cs
  end.

End Matcher.

Record rematch : Type := MkMatch {
  m_start : nat;
  m_end : nat;
  m_groups : captures
}.

(** [re.search]: the leftmost position at which the pattern matches *)
Fixpoint search_from (r : regex) (pos : nat) (s : str) : option rematch :=
  match rmatch r s [] (fun rest cs => Some (rest, cs)) with
  | Some (rest, cs) => Some (MkMatch pos (pos + (length s - length rest)) cs)
  | None =>
      match s with
      | [] => None
      | _ :: s' => search_from r (S pos) s'
      end
  end.

Definition search (r : regex) (s : str) : option rematch := search_from r 0 s.

(** [re.finditer]: successive non-overlapping matches, left to right.  After
    an empty match the scan moves on by one character. *)
Fixpoint finditer_from (fuel : nat) (r : regex) (pos : nat) (s : str)
  : list rematch :=
  match fuel with
  | 0 => []
  | S f =>
      match search_from r pos s with
      | None => []
      | Some m =>
          let step := if m_end m =? m_start m then S (m_end m - pos)
                      else m_end m - pos in
          m :: (if length s <? step then []
                else finditer_from f r (pos + step) (skipn step s))
      end
  end.

Definition finditer (r : regex) (s : str) : list rematch :=
  finditer_from (S (length s)) r 0 s.

(** [re.sub(r, '', s)]: the text outside the matches *)
Fixpoint remove_spans (ms : list rematch) (pos : nat) (s : str) : str :=
  match ms with
  | [] => s
  | m :: ms' =>
      firstn (m_start m - pos) s
        ++ remove_spans ms' (m_end m) (skipn (m_end m - pos) s)
  end.

Definition sub_empty (r : regex) (s : str) : str :=
  remove_spans (finditer r s) 0 s.

End Re.

Import Re.

(** ** utils/port_extractor.py *)

Module PortExtractor.

(** A port is the tuple [(name, width)]; the width is the text [[h:l]] or
    the empty string for a single-bit port. *)
Definition port : Type := str * str.

(** The dictionary returned by [extract_dut_ports] *)
Record ports : Type := MkPorts {
  module_name : str;
  inputs : list port;
  outputs : list port
}.

Definition spaces : regex := Plus (Cls is_space).
Definition digits : regex := Plus (Cls is_digit).
Definition word : regex := Plus (Cls is_word).

(** [module\s+(\w+)] *)
Definition module_re : regex := seq [lit (txt "module"); spaces; Grp 1 word].

(** [<dir>\s+<kind>\s+\[(\d+):(\d+)\]\s+(\w+)] *)
Definition ranged_pattern (dir kind : str) : regex :=
  seq [lit dir; spaces; lit kind; spaces;
       Chr "["; Grp 1 digits; Chr ":"; Grp 2 digits; Chr "]"; spaces;
       Grp 3 word].

(** [<dir>\s+<kind>\s+(\w+)] *)
Definition plain_pattern (dir kind : str) : regex :=
  seq [lit dir; spaces; lit kind; spaces; Grp 1 word].

Definition input_patterns : list regex :=
  [ ranged_pattern (txt "input") (txt "wire");
    plain_pattern (txt "input") (txt "wire");
    ranged_pattern (txt "input") (txt "reg");
    plain_pattern (txt "input") (txt "reg") ].

Definition output_patterns : list regex :=
  [ ranged_pattern (txt "output") (txt "wire");
    plain_pattern (txt "output") (txt "wire");
    ranged_pattern (txt "output") (txt "reg");
    plain_pattern (txt "output") (txt "reg") ].

(** The body of the inner loop: the tuple appended for one match of the
    pattern [r]; [len(match.groups())] is the number of groups of [r]. *)
Definition port_of_match (r : regex) (m : rematch) : port :=
  let g := m_groups m in
  if (ngroups r =? 3) && negb (contains (txt ":") (group 3 g)) then
    (group 3 g, txt "[" ++ group 1 g ++ txt ":" ++ group 2 g ++ txt "]")
  else
    ((if ngroups r =? 1 then group 1 g else group 3 g), []).

(** [for pattern in patterns: for match in re.finditer(pattern, content)] *)
Definition scan (patterns : list regex) (content : str) : list port :=
  flat_map (fun r => map (port_of_match r) (finditer r content)) patterns.

Definition default_name : str := txt "my_dut".

(** [extract_dut_ports]: the argument is the text of the DUT file, or
    [None] when the file does not exist. *)
Definition extract_dut_ports (dut_file : option str) : ports :=
  match dut_file with
  | None => MkPorts default_name [] []
  | Some content =>
      let name :=
        match search module_re content with
        | Some m => group 1 (m_groups m)
        | None => default_name
        end in
      MkPorts name (scan input_patterns content) (scan output_patterns content)
  end.

(** The dictionary returned by [detect_port_features] *)
Record features : Type := MkFeatures {
  has_clk : bool;
  has_rst : bool;
  has_multibit : bool;
  max_width : N;
  num_inputs : nat;
  num_outputs : nat
}.

Definition clk_names : list str := [txt "clk"; txt "clock"].
Definition rst_names : list str := [txt "rst"; txt "reset"].

(** Body of the first loop, over [ports['inputs']] *)
Definition check_clock (f : features) (p : port) : features :=
  let f1 :=
    if mem (lower (fst p)) clk_names
    then MkFeatures true (has_rst f) (has_multibit f) (max_width f)
                    (num_inputs f) (num_outputs f)
    else f in
  if mem (lower (fst p)) rst_names
  then MkFeatures (has_clk f1) true (has_multibit f1) (max_width f1)
                  (num_inputs f1) (num_outputs f1)
  else f1.

(** [\[(\d+):] *)
Definition width_re : regex := seq [Chr "["; Grp 1 digits; Chr ":"].

(** Body of the second loop, over [ports['inputs'] + ports['outputs']] *)
Definition check_width (f : features) (p : port) : features :=
  match snd p with
  | [] => f
  | _ :: _ =>
      let w :=
        match search width_re (snd p) with
        | Some m => N.max (max_width f) (int_of (group 1 (m_groups m)) + 1)
        | None => max_width f
        end in
      MkFeatures (has_clk f) (has_rst f) true w (num_inputs f) (num_outputs f)
  end.

Definition detect_port_features (p : ports) : features :=
  let f0 := MkFeatures false false false 0
                       (length (inputs p)) (length (outputs p)) in
  let f1 := fold_left check_clock (inputs p) f0 in
  fold_left check_width (inputs p ++ outputs p) f1.

End PortExtractor.

(** ** streamlit.py: the port detection of the dashboard *)

Module Dashboard.

Import PortExtractor.

(** [<dir>\s+(?:wire|reg)?\s*(?:\[\d+:\d+\])?\s*(\w+)] *)
Definition simple_port_re (dir : str) : regex :=
  seq [lit dir; spaces;
       Opt (Alt (lit (txt "wire")) (lit (txt "reg")));
       Rep true (Cls is_space);
       Opt (seq [Chr "["; digits; Chr ":"; digits; Chr "]"]);
       Rep true (Cls is_space);
       Grp 1 word].

(** [re.findall] for a pattern with one group: the text of the group in
    each match *)
Definition findall (r : regex) (s : str) : list str :=
  map (fun m => group 1 (m_groups m)) (finditer r s).

Definition detect_inputs (custom_dut : str) : list str :=
  findall (simple_port_re (txt "input")) custom_dut.

Definition detect_outputs (custom_dut : str) : list str :=
  findall (simple_port_re (txt "output")) custom_dut.

End Dashboard.

(** ** Exceptions *)

Inductive exn : Type :=
| RuntimeError (msg : str)
| KeyError (key : str)
| ValueError (msg : str)
| OtherError (msg : str).

(** [str(e)] as the agent logs it *)
Definition exn_message (e : exn) : str :=
  match e with
  | RuntimeError m | ValueError m | OtherError m => m
  | KeyError k => txt "'" ++ k ++ txt "'"
  end.

Inductive result (A : Type) : Type :=
| Ok (a : A)
| Raise (e : exn).
Arguments Ok {A} a.
Arguments Raise {A} e.

(** ** utils/code_generator.py *)

Module CodeGenerator.

(** [```verilog\n?], [```systemverilog\n?] and [```\n?] *)
Definition fence (tag : str) : regex :=
  Cat (lit (txt "```" ++ tag)) (Opt (Chr nl)).

Definition strip_fences (raw_code : str) : str :=
  let code1 := sub_empty (fence (txt "verilog")) raw_code in
  let code2 := sub_empty (fence (txt "systemverilog")) code1 in
  sub_empty (fence []) code2.

Definition no_module_message (raw_code : str) : str :=
  txt "No valid Verilog module found in output." ++ [nl]
  ++ txt "Output preview:" ++ [nl] ++ firstn 200 raw_code.

Definition sanitize_verilog_code (raw_code : str) : result str :=
  let code := strip_fences raw_code in
  match find (txt "module") code, rfind (txt "endmodule") code with
  | Some start, Some stop =>
      let clean_code := slice start (stop + length (txt "endmodule")) code in
      Ok (if ends_with [nl] clean_code then clean_code
          else clean_code ++ [nl])
  | _, _ => Raise (RuntimeError (no_module_message raw_code))
  end.

End CodeGenerator.

(** ** templates/error_fixes.py *)

Module ErrorFixes.

Import PortExtractor.

Definition template_PINMISSING : str := txt "
╔════════════════════════════════════════════════════════════════╗
║ CRITICAL ERROR: Missing Port Connection                       ║
╚════════════════════════════════════════════════════════════════╝

You forgot to connect port '{port}'.

REQUIRED FIX:
In your DUT instantiation, you MUST have this line:
    .{port}({port})

Complete instantiation template (COPY THIS):
{module_name} dut (
{port_connections}
);

Every line above MUST appear in your testbench.
".

Definition template_WIDTHTRUNC : str := txt "
╔════════════════════════════════════════════════════════════════╗
║ CRITICAL ERROR: Bit Width Mismatch                            ║
╚════════════════════════════════════════════════════════════════╝

Wrong bit width for port '{port}'.

Port expects: {expected_width}
You provided: {actual_width}

REQUIRED FIX:
Declare the signal correctly:
    {correct_declaration}

Examples:
  Single bit:  reg signal;
  8-bit:       reg [7:0] signal;
  4-bit:       reg [3:0] signal;
".

Definition template_WIDTHEXPAND : str := txt "
╔════════════════════════════════════════════════════════════════╗
║ CRITICAL ERROR: Bit Width Expansion                           ║
╚════════════════════════════════════════════════════════════════╝

Signal is too narrow for the port.

REQUIRED FIX:
Match the exact bit width from DUT specification.
Check your signal declarations.
".

Definition template_SIGNAL_UNDECLARED : str := txt "
╔════════════════════════════════════════════════════════════════╗
║ CRITICAL ERROR: Undeclared Signal                             ║
╚════════════════════════════════════════════════════════════════╝

Signal '{signal}' used but not declared.

REQUIRED FIX:
Add this declaration BEFORE using the signal:
    {declaration}

All signals must be declared in the testbench before use.
".

Definition template_WIRE_REG_MISMATCH : str := txt "
╔════════════════════════════════════════════════════════════════╗
║ CRITICAL ERROR: Wire/Reg Type Mismatch                        ║
╚════════════════════════════════════════════════════════════════╝

RULE: 
  - DUT INPUTS  → declare as 'reg' in testbench
  - DUT OUTPUTS → declare as 'wire' in testbench

FIX YOUR DECLARATIONS:
{corrected_declarations}
".

Definition template_MODULE_NOT_FOUND : str := txt "
╔════════════════════════════════════════════════════════════════╗
║ CRITICAL ERROR: Module Not Found                              ║
╚════════════════════════════════════════════════════════════════╝

Verilator cannot find module '{module}'.

COMMON CAUSES:
1. Typo in module name
2. Module name doesn't match file

REQUIRED FIX:
Use the EXACT module name from DUT: {correct_module_name}
".

Definition template_SYNTAX_ERROR : str := txt "
╔════════════════════════════════════════════════════════════════╗
║ ERROR: Verilog Syntax Error                                   ║
╚════════════════════════════════════════════════════════════════╝

General syntax error detected.

COMMON ISSUES:
- Missing semicolon
- Unmatched begin/end
- Wrong keyword spelling

Check your code structure carefully.
".

Definition template_TIMING_ERROR : str := txt "
╔════════════════════════════════════════════════════════════════╗
║ ERROR: Timing Construct Not Supported                         ║
╚════════════════════════════════════════════════════════════════╝

Verilator requires --timing flag for delays.

This is already enabled. Check your delay syntax:
  Correct:   #10 signal = 1;
  Incorrect: signal = #10 1;
".

(** A dictionary with string keys, in insertion order *)
Fixpoint dict_get (A : Type) (k : str) (d : list (str * A)) : option A :=
  match d with
  | [] => None
  | (k', v) :: d' => if str_eqb k' k then Some v else dict_get k d'
  end.

Definition ERROR_FIX_TEMPLATES : list (str * str) :=
  [ (txt "PINMISSING", template_PINMISSING);
    (txt "WIDTHTRUNC", template_WIDTHTRUNC);
    (txt "WIDTHEXPAND", template_WIDTHEXPAND);
    (txt "SIGNAL_UNDECLARED", template_SIGNAL_UNDECLARED);
    (txt "WIRE_REG_MISMATCH", template_WIRE_REG_MISMATCH);
    (txt "MODULE_NOT_FOUND", template_MODULE_NOT_FOUND);
    (txt "SYNTAX_ERROR", template_SYNTAX_ERROR);
    (txt "TIMING_ERROR", template_TIMING_ERROR) ].

(** [ERROR_FIX_TEMPLATES[key]] for a key of the table *)
Definition template_of (key : str) : str :=
  match dict_get key ERROR_FIX_TEMPLATES with
  | Some t => t
  | None => []
  end.

Definition kwargs : Type := list (str * str).

(** A replacement field [{name}] is looked up among the keyword arguments;
    an empty or numeric name is positional and there are no positional
    arguments. *)
Definition field_value (name : str) (kw : kwargs) : result str :=
  match name with
  | [] => Raise (OtherError (txt "IndexError"))
  | c :: _ =>
      if is_digit c then Raise (OtherError (txt "IndexError"))
      else match dict_get name kw with
           | Some v => Ok v
           | None => Raise (KeyError name)
           end
  end.

(** [str.format] with keyword arguments [kw], for templates whose replacement fields are plain
    names; [{{] and [}}] are the escapes of the braces.  [field] holds the
    reversed name read so far while the scan is inside a field.  Conversions,
    format specifications and attribute or index lookups inside a field are
    outside this fragment and rejected; no template of the table has one. *)
Fixpoint format_from (kw : kwargs) (field : option str) (t : str)
  : result str :=
  match t with
  | [] =>
      match field with
      | None => Ok []
      | Some _ => Raise (ValueError (txt "expected '}' before end of string"))
      end
  | c :: t' =>
      match field with
      | Some acc =>
          if Ascii.eqb c "}" then
            match field_value (rev acc) kw with
            | Ok v =>
                match format_from kw None t' with
                | Ok r => Ok (v ++ r)
                | Raise e => Raise e
                end
            | Raise e => Raise e
            end
          else if is_word c then format_from kw (Some (c :: acc)) t'
          else Raise (ValueError (txt "unsupported replacement field"))
      | None =>
          if Ascii.eqb c "{" then
            match t' with
            | c2 :: t'' =>
                if Ascii.eqb c2 "{" then
                  match format_from kw None t'' with
                  | Ok r => Ok (c :: r)
                  | Raise e => Raise e
                  end
                else format_from kw (Some []) t'
            | [] => Raise (ValueError (txt "Single '{' encountered in format string"))
            end
          else if Ascii.eqb c "}" then
            match t' with
            | c2 :: t'' =>
                if Ascii.eqb c2 "}" then
                  match format_from kw None t'' with
                  | Ok r => Ok (c :: r)
                  | Raise e => Raise e
                  end
                else Raise (ValueError (txt "Single '}' encountered in format string"))
            | [] => Raise (ValueError (txt "Single '}' encountered in format string"))
            end
          else
            match format_from kw None t' with
            | Ok r => Ok (c :: r)
            | Raise e => Raise e
            end
      end
  end.

Definition format (template : str) (kw : kwargs) : result str :=
  format_from kw None template.

(** [get_fix_for_error_type]: an unknown error type falls back to the
    syntax-error template, a missing parameter to the unfilled template. *)
Definition get_fix_for_error_type (error_type : str) (kw : kwargs)
  : result str :=
  let template :=
    match dict_get error_type ERROR_FIX_TEMPLATES with
    | Some t => t
    | None => template_of (txt "SYNTAX_ERROR")
    end in
  match format template kw with
  | Raise (KeyError _) => Ok template
  | r => r
  end.

(** [missing pin: '(\w+)'] *)
Definition missing_pin_re : regex :=
  seq [lit (txt "missing pin: '"); Grp 1 word; Chr "'"].

Definition parse_pinmissing_error (error_text : str) : list str :=
  flat_map
    (fun line =>
       match search missing_pin_re line with
       | Some m => [group 1 (m_groups m)]
       | None => []
       end)
    (split_lines error_text).

(** [port '(\w+)'] *)
Definition port_re : regex := seq [lit (txt "port '"); Grp 1 word; Chr "'"].

(** [(\d+) bits.+?(\d+) bits] *)
Definition bits_re : regex :=
  seq [Grp 1 digits; lit (txt " bits"); PlusLazy Dot;
       Grp 2 digits; lit (txt " bits")].

(** The dictionary [info] of [parse_width_error]: the key [port] is present
    when the first search succeeds, the keys [expected_width] and
    [actual_width] when the second does. *)
Record width_info : Type := MkWidthInfo {
  wi_port : option str;
  wi_expected_width : option str;
  wi_actual_width : option str
}.

Definition parse_width_error (error_text : str) : width_info :=
  let port :=
    match search port_re error_text with
    | Some m => Some (group 1 (m_groups m))
    | None => None
    end in
  match search bits_re error_text with
  | Some m =>
      MkWidthInfo port (Some (group 1 (m_groups m)))
                  (Some (group 2 (m_groups m)))
  | None => MkWidthInfo port None None
  end.

(** [for name, width in ...: if name == port_name: port_width = width; break],
    starting from [port_width = ""] *)
Fixpoint lookup_width (port_name : str) (ps : list port) : str :=
  match ps with
  | [] => []
  | (name, width) :: ps' =>
      if str_eqb name port_name then width else lookup_width port_name ps'
  end.

Definition correct_declaration_for (port_name port_width : str) : str :=
  match port_width with
  | [] => txt "reg " ++ port_name ++ txt ";"
  | _ :: _ => txt "reg " ++ port_width ++ txt " " ++ port_name ++ txt ";"
  end.

Definition or_default (o : option str) (d : str) : str :=
  match o with Some v => v | None => d end.

Definition bind (A B : Type) (r : result A) (f : A -> result B) : result B :=
  match r with
  | Ok a => f a
  | Raise e => Raise e
  end.

Notation "x <- r ;; k" := (bind r (fun x => k))
  (at level 61, r at next level, right associativity).

(** The block for [PINMISSING] errors; [fixes] is the list built so far. *)
Definition pinmissing_fixes (error_summary : str) (p : ports)
                            (fixes : list str) : result (list str) :=
  if contains (txt "PINMISSING") error_summary then
    match parse_pinmissing_error error_summary with
    | [] => Ok fixes
    | missing_ports =>
        let all_ports := inputs p ++ outputs p in
        let port_conns :=
          map (fun q => txt "        ." ++ fst q ++ txt "(" ++ fst q ++ txt ")")
              all_ports in
        fix_ <- get_fix_for_error_type (txt "PINMISSING")
                  [ (txt "port", join (txt ", ") missing_ports);
                    (txt "module_name", module_name p);
                    (txt "port_connections",
                     join (txt "," ++ [nl]) port_conns) ] ;;
        Ok (fixes ++ [fix_])
    end
  else Ok fixes.

(** The block for [WIDTHTRUNC] and [WIDTHEXPAND] errors *)
Definition width_fixes (error_summary : str) (p : ports)
                       (fixes : list str) : result (list str) :=
  if contains (txt "WIDTHTRUNC") error_summary
     || contains (txt "WIDTHEXPAND") error_summary then
    let info := parse_width_error error_summary in
    match wi_port info with
    | Some port_name =>
        let port_width := lookup_width port_name (inputs p ++ outputs p) in
        let correct_decl := correct_declaration_for port_name port_width in
        fix_ <- get_fix_for_error_type (txt "WIDTHTRUNC")
                  [ (txt "port", port_name);
                    (txt "expected_width",
                     or_default (wi_expected_width info) (txt "N bits"));
                    (txt "actual_width",
                     or_default (wi_actual_width info) (txt "M bits"));
                    (txt "correct_declaration", correct_decl) ] ;;
        Ok (fixes ++ [fix_])
    | None => Ok (fixes ++ [template_of (txt "WIDTHTRUNC")])
    end
  else Ok fixes.

(** The block for a module that cannot be found *)
Definition module_fixes (error_summary : str) (p : ports)
                        (fixes : list str) : result (list str) :=
  if contains (txt "Cannot find") error_summary
     && contains (txt "module") (lower error_summary) then
    fix_ <- get_fix_for_error_type (txt "MODULE_NOT_FOUND")
              [ (txt "module", txt "<module>");
                (txt "correct_module_name", module_name p) ] ;;
    Ok (fixes ++ [fix_])
  else Ok fixes.

(** The generic block, only when nothing more specific was found *)
Definition syntax_fixes (error_summary : str) (fixes : list str) : list str :=
  match fixes with
  | [] =>
      if contains (txt "Error") error_summary
         || contains (txt "error") error_summary
      then [template_of (txt "SYNTAX_ERROR")]
      else []
  | _ :: _ => fixes
  end.

(** The list [fixes] at the end of [generate_targeted_error_prompt] *)
Definition collect_fixes (error_summary : str) (p : ports)
  : result (list str) :=
  f1 <- pinmissing_fixes error_summary p [] ;;
  f2 <- width_fixes error_summary p f1 ;;
  f3 <- module_fixes error_summary p f2 ;;
  Ok (syntax_fixes error_summary f3).

Definition generate_targeted_error_prompt (error_summary : str) (p : ports)
  : result str :=
  fixes <- collect_fixes error_summary p ;;
  Ok (match fixes with
      | [] => txt "Review and fix the errors shown above."
      | _ :: _ => join ([nl] ++ [nl]) fixes
      end).

End ErrorFixes.

(** ** Data of the verification flow and of the refinement loop *)

Import PortExtractor.

(** The dictionary a check returns *)
Record step_result : Type := MkStep {
  step : str;
  cmd : str;
  returncode : Z;
  stdout : str;
  stderr : str;
  log_path : str
}.

(** [Dict[str, Dict]]: the results per step, in insertion order *)
Definition results : Type := list (str * step_result).

(** [d[k] = v] on an insertion-ordered dictionary *)
Fixpoint dict_set (A : Type) (k : str) (v : A) (d : list (str * A))
  : list (str * A) :=
  match d with
  | [] => [(k, v)]
  | (k', v') :: d' =>
      if str_eqb k' k then (k', v) :: d' else (k', v') :: dict_set k v d'
  end.

(** What a finished process hands back: exit status, stdout, stderr *)
Record completed_process : Type := MkProc {
  proc_returncode : Z;
  proc_stdout : str;
  proc_stderr : str
}.

(** The dictionary [previous_error] handed to the next generation *)
Record previous_error : Type := MkPrev {
  pe_failing_step : str;
  pe_results : results;
  pe_analysis : str
}.

(** What the language model is asked.  The prompt texts are functions of
    these values: the first attempt is built from the request, the ports and
    the examples chosen by the port features; a refined attempt from the
    request, the ports, the failing step, the error summary and the targeted
    fixes. *)
Inductive prompt : Type :=
| FirstPrompt (user_request : str) (p : ports) (f : features)
| RefinedPrompt (user_request : str) (p : ports)
                (failing_step error_summary targeted_fixes : str).

(** The entries of [generation_log] that the loop goes on to use *)
Record generation_log : Type := MkGen {
  gl_iteration : nat;
  gl_ports_detected : ports;
  gl_llm_raw_output : str;
  gl_testbench_code : str
}.

Record simulation_log : Type := MkSim {
  sl_mode : str;
  sl_success : bool;
  sl_failing_step : str;
  sl_verilator_results : results
}.

Record analysis_log : Type := MkAnalysis {
  al_iteration : nat;
  al_success : bool;
  al_failed_steps : list str;
  al_analysis_text : str
}.

(** [iteration_log]; a key that is not set is [None] *)
Record iteration_log : Type := MkIter {
  il_iteration_number : nat;
  il_generation : option generation_log;
  il_generation_error : option str;
  il_simulation : option simulation_log;
  il_analysis : option analysis_log;
  il_will_retry : option bool;
  il_error_for_next_iteration : option str;
  il_reason : option str
}.

(** [run_log]; the time stamps and the fixed model settings are left out *)
Record run_log : Type := MkRun {
  rl_user_request : str;
  rl_mode : str;
  rl_max_iterations : nat;
  rl_iterations : list iteration_log;
  rl_final_status : option str;
  rl_success : option bool;
  rl_iterations_used : option nat;
  rl_final_analysis : option str
}.

(** What the program does to its surroundings, in the order it does it: a
    check method is entered, a process is run, a file is written, the model
    is asked, the run log is saved. *)
Inductive event : Type :=
| CheckInvoked (name : str)
| ProcessRun (command : list str)
| FileWritten (path content : str)
| ModelAsked (p : prompt)
| MemorySaved (log : run_log).

(** The surroundings: the file system, the verification tool, the language
    model and the memory file, each free to answer as it likes and to change
    the world.  [read_text] is [None] for a path that does not exist;
    [llm_invoke] stands for the prompt templates and the call of the chain
    together and may raise.  A process always starts and files can always be
    written; the output of [print] and the time stamps of the logs are left
    out. *)
Record Env (World : Type) : Type := MkEnv {
  dut_file : str;
  tb_file : str;
  rtl_dir : str;
  logs_dir : str;
  read_text : str -> World -> option str;
  write_text : str -> str -> World -> World;
  subprocess_run : list str -> World -> completed_process * World;
  llm_invoke : prompt -> World -> result str * World;
  save_to_memory : run_log -> World -> World
}.

Section Machine.

Variable World : Type.
Variable E : Env World.

(** A computation threads the world and the trace of events. *)
Definition state : Type := World * list event.

Definition M (A : Type) : Type := state -> A * state.

Definition ret (A : Type) (a : A) : M A := fun st => (a, st).

Definition bindM (A B : Type) (m : M A) (f : A -> M B) : M B :=
  fun st => let (a, st') := m st in f a st'.

Definition emit (e : event) : M unit :=
  fun st => (tt, (fst st, snd st ++ [e])).

Definition observe (A : Type) (f : World -> A) : M A :=
  fun st => (f (fst st), st).

Definition perform (A : Type) (f : World -> A * World) : M A :=
  fun st => let (a, w) := f (fst st) in (a, (w, snd st)).

End Machine.

Arguments ret {World A} a.
Arguments emit {World} e.
Arguments observe {World A} f.
Arguments perform {World A} f.

Notation "x <-- m ;; k" := (bindM m (fun x => k))
  (at level 61, m at next level, right associativity).
Notation "m ;;; k" := (bindM m (fun _ => k))
  (at level 61, right associativity).

(** ** rtl_runner.py *)

Module RtlRunner.

Section Runner.

Variable World : Type.
Variable E : Env World.

Definition exists_ (path : str) : M World bool :=
  observe (fun w => match read_text E path w with
                    | Some _ => true
                    | None => false
                    end).

(** The text written to [logs/<log_name>.log] *)
Definition log_text (command : list str) (r : completed_process) : str :=
  txt "$ " ++ join (txt " ") command ++ [nl; nl]
  ++ txt "=== STDOUT ===" ++ [nl] ++ proc_stdout r
  ++ [nl; nl] ++ txt "=== STDERR ===" ++ [nl] ++ proc_stderr r.

(** [_run_cmd]: run the command, write the log, report *)
Definition _run_cmd (command : list str) (log_name : str)
  : M World step_result :=
  emit (ProcessRun command) ;;;
  r <-- perform (subprocess_run E command) ;;
  let path := logs_dir E ++ txt "/" ++ log_name ++ txt ".log" in
  emit (FileWritten path (log_text command r)) ;;;
  perform (fun w => (tt, write_text E path (log_text command r) w)) ;;;
  ret (MkStep log_name (join (txt " ") command) (proc_returncode r)
              (proc_stdout r) (proc_stderr r) path).

(** The synthetic failure reported for a missing file *)
Definition missing (name message : str) : step_result :=
  MkStep name [] 1%Z [] message [].

Definition compile_dut : M World step_result :=
  emit (CheckInvoked (txt "compile_dut")) ;;;
  present <-- exists_ (dut_file E) ;;
  if negb present then
    ret (missing (txt "compile_dut")
                 (txt "DUT file not found: " ++ dut_file E))
  else
    _run_cmd [txt "verilator"; txt "--lint-only"; dut_file E]
             (txt "compile_dut").

Definition elaborate_dut : M World step_result :=
  emit (CheckInvoked (txt "elaborate_dut")) ;;;
  present <-- exists_ (dut_file E) ;;
  if negb present then
    ret (missing (txt "elaborate_dut")
                 (txt "DUT file not found: " ++ dut_file E))
  else
    _run_cmd [txt "verilator"; txt "--cc"; dut_file E] (txt "elaborate_dut").

Definition compile_tb : M World step_result :=
  emit (CheckInvoked (txt "compile_tb")) ;;;
  tb_present <-- exists_ (tb_file E) ;;
  if negb tb_present then
    ret (missing (txt "compile_tb")
                 (txt "Testbench file not found: " ++ tb_file E))
  else
    dut_present <-- exists_ (dut_file E) ;;
    if negb dut_present then
      ret (missing (txt "compile_tb")
                   (txt "DUT file not found: " ++ dut_file E))
    else
      _run_cmd [txt "verilator"; txt "--lint-only"; txt "--timing";
                txt "-I" ++ rtl_dir E; dut_file E; tb_file E]
               (txt "compile_tb").

(** The placeholder simulation always succeeds. *)
Definition run_simulation : M World step_result :=
  emit (CheckInvoked (txt "run_simulation")) ;;;
  ret (MkStep (txt "run_simulation") (txt "(stub) no command run") 0%Z
              (txt "Simulation step not fully implemented yet; this is a stub."
               ++ [nl])
              [] []).

Definition failed (r : step_result) : bool := negb (returncode r =? 0)%Z.

(** [run_flow]: [(success_flag, failing step or 'ok', results per step)] *)
Definition run_flow (mode : str) : M World (bool * str * results) :=
  r1 <-- compile_dut ;;
  let results1 := dict_set (txt "compile_dut") r1 [] in
  if failed r1 then ret (false, txt "compile_dut", results1)
  else if str_eqb mode (txt "compile_only") then
    r2 <-- compile_tb ;;
    let results2 := dict_set (txt "compile_tb") r2 results1 in
    if failed r2 then ret (false, txt "compile_tb", results2)
    else ret (true, txt "ok", results2)
  else
    r2 <-- elaborate_dut ;;
    let results2 := dict_set (txt "elaborate_dut") r2 results1 in
    if failed r2 then ret (false, txt "elaborate_dut", results2)
    else if str_eqb mode (txt "compile_elaborate") then
      r3 <-- compile_tb ;;
      let results3 := dict_set (txt "compile_tb") r3 results2 in
      if failed r3 then ret (false, txt "compile_tb", results3)
      else ret (true, txt "ok", results3)
    else
      r3 <-- compile_tb ;;
      let results3 := dict_set (txt "compile_tb") r3 results2 in
      if failed r3 then ret (false, txt "compile_tb", results3)
      else
        r4 <-- run_simulation ;;
        let results4 := dict_set (txt "run_simulation") r4 results3 in
        if failed r4 then ret (false, txt "run_simulation", results4)
        else ret (true, txt "ok", results4).

End Runner.

Arguments run_simulation {World}.

End RtlRunner.

(** ** test_simulation_agent.py *)

Module Agent.

Import CodeGenerator ErrorFixes RtlRunner.

Definition error_keywords : list str :=
  [txt "Error"; txt "Warning"; txt "PINMISSING"; txt "WIDTH"].

(** [extract_error_summary]: up to ten diagnostic lines of the failing
    step, or the head of its stderr *)
Definition extract_error_summary (res : results) (failing_step : str) : str :=
  match dict_get failing_step res with
  | None => txt "Unknown error"
  | Some r =>
      let errors :=
        flat_map
          (fun line =>
             if existsb (fun keyword => contains keyword line) error_keywords
             then if negb (contains (txt "verilator lint") (lower line))
                  then [strip line] else []
             else [])
          (split_lines (stderr r)) in
      match errors with
      | [] => firstn 500 (stderr r)
      | _ :: _ => join [nl] (firstn 10 errors)
      end
  end.

(** [analyze_with_llm]: a summary of the results, without the model *)
Definition analyze_with_llm (res : results) (iteration : nat) : analysis_log :=
  if forallb (fun kr => (returncode (snd kr) =? 0)%Z) res then
    MkAnalysis iteration true []
      (txt "✅ All verification steps passed successfully.")
  else
    let failed_steps :=
      map fst (filter (fun kr => negb (returncode (snd kr) =? 0)%Z) res) in
    match failed_steps with
    | [] => MkAnalysis iteration true [] (txt "Verification completed.")
    | _ :: _ =>
        let error_lines :=
          map (fun name =>
                 let err := match dict_get name res with
                            | Some r => stderr r
                            | None => []
                            end in
                 if contains (txt "PINMISSING") err
                 then txt "- Missing port connections"
                 else if contains (txt "WIDTH") err
                 then txt "- Bit width mismatch"
                 else if contains (txt "Cannot find") err
                 then txt "- Module or signal not found"
                 else txt "- " ++ name ++ txt " failed")
              failed_steps in
        MkAnalysis iteration false failed_steps
          (txt "Failed at " ++ join (txt ", ") failed_steps ++ txt ":" ++ [nl]
           ++ join [nl] error_lines)
    end.

Section Loop.

Variable World : Type.
Variable E : Env World.

(** The part of [generate_testbench] before the model is called: read the
    DUT, then choose between the first and the refined prompt. *)
Definition build_prompt (user_request : str) (iteration : nat)
                        (prev : option previous_error)
  : M World (ports * result prompt) :=
  dut <-- observe (read_text E (dut_file E)) ;;
  let p := extract_dut_ports dut in
  match iteration, prev with
  | S _, Some pe =>
      let error_summary :=
        extract_error_summary (pe_results pe) (pe_failing_step pe) in
      match generate_targeted_error_prompt error_summary p with
      | Ok targeted_fixes =>
          ret (p, Ok (RefinedPrompt user_request p (pe_failing_step pe)
                                    error_summary targeted_fixes))
      | Raise e => ret (p, Raise e)
      end
  | _, _ => ret (p, Ok (FirstPrompt user_request p (detect_port_features p)))
  end.

(** [generate_testbench]: ask the model, sanitize the answer and write the
    testbench; an exception leaves with [Raise]. *)
Definition generate_testbench (user_request : str) (iteration : nat)
                              (prev : option previous_error)
  : M World (result generation_log) :=
  pq <-- build_prompt user_request iteration prev ;;
  match snd pq with
  | Raise e => ret (Raise e)
  | Ok q =>
      emit (ModelAsked q) ;;;
      answer <-- perform (llm_invoke E q) ;;
      match answer with
      | Raise e => ret (Raise e)
      | Ok raw_tb =>
          match sanitize_verilog_code raw_tb with
          | Raise e => ret (Raise e)
          | Ok tb_code =>
              emit (FileWritten (tb_file E) tb_code) ;;;
              perform (fun w => (tt, write_text E (tb_file E) tb_code w)) ;;;
              ret (Ok (MkGen iteration (fst pq) raw_tb tb_code))
          end
      end
  end.

Definition save (log : run_log) : M World unit :=
  emit (MemorySaved log) ;;;
  perform (fun w => (tt, save_to_memory E log w)).

(** [run_log["iterations"].append(iteration_log)] *)
Definition append_iteration (log : run_log) (il : iteration_log) : run_log :=
  MkRun (rl_user_request log) (rl_mode log) (rl_max_iterations log)
        (rl_iterations log ++ [il])
        (rl_final_status log) (rl_success log) (rl_iterations_used log)
        (rl_final_analysis log).

(** The iteration log is appended to the run log before its retry keys are
    set; both names refer to one dictionary, so the entry of the run log
    changes with it. *)
Definition update_last_iteration (log : run_log)
                                 (f : iteration_log -> iteration_log)
  : run_log :=
  MkRun (rl_user_request log) (rl_mode log) (rl_max_iterations log)
        (match rev (rl_iterations log) with
         | [] => []
         | il :: before => rev before ++ [f il]
         end)
        (rl_final_status log) (rl_success log) (rl_iterations_used log)
        (rl_final_analysis log).

Definition finish (log : run_log) (status : str) (success : bool)
                  (used : nat) (analysis : option str) : run_log :=
  MkRun (rl_user_request log) (rl_mode log) (rl_max_iterations log)
        (rl_iterations log)
        (Some status) (Some success) (Some used) analysis.

Definition set_retry (will_retry : bool) (error_summary reason : option str)
                     (il : iteration_log) : iteration_log :=
  MkIter (il_iteration_number il) (il_generation il) (il_generation_error il)
         (il_simulation il) (il_analysis il)
         (Some will_retry) error_summary reason.

(** The tuple [run_with_refinement] returns *)
Definition outcome : Type := bool * str * results * str * nat.

(** The [for] loop over the remaining iteration numbers [its].  [last] holds
    [failing_step] and [results] once an iteration has bound them. *)
Fixpoint refine_loop (user_request mode : str) (max_iterations : nat)
                     (its : list nat) (log : run_log)
                     (prev : option previous_error) (final_analysis : str)
                     (last : option (str * results)) {struct its}
  : M World (result outcome) :=
  match its with
  | [] =>
      let log' := finish log (txt "max_iterations_reached") false
                         max_iterations (Some final_analysis) in
      save log' ;;;
      match last with
      | Some (failing_step, res) =>
          ret (Ok (false, failing_step, res, final_analysis, max_iterations))
      | None => ret (Raise (OtherError (txt "UnboundLocalError")))
      end
  | iteration :: rest =>
      g <-- generate_testbench user_request iteration prev ;;
      match g with
      | Raise e =>
          let il := MkIter iteration None (Some (exn_message e))
                           None None None None None in
          let log' := finish (append_iteration log il)
                             (txt "generation_failed") false (iteration + 1)
                             (rl_final_analysis log) in
          save log' ;;;
          ret (Ok (false, txt "testbench_generation", [], exn_message e,
                   iteration + 1))
      | Ok generation =>
          flow <-- run_flow E mode ;;
          let '(success, failing_step, res) := flow in
          let analysis := analyze_with_llm res iteration in
          let final_analysis' := al_analysis_text analysis in
          let il := MkIter iteration (Some generation) None
                           (Some (MkSim mode success failing_step res))
                           (Some analysis) None None None in
          let log1 := append_iteration log il in
          if success then
            let log' := finish log1 (txt "success") true (iteration + 1)
                               (Some final_analysis') in
            save log' ;;;
            ret (Ok (true, txt "ok", res, final_analysis', iteration + 1))
          else if iteration <? max_iterations - 1 then
            let error_summary := extract_error_summary res failing_step in
            let prev' := Some (MkPrev failing_step res final_analysis') in
            let log2 := update_last_iteration log1
                          (set_retry true (Some error_summary) None) in
            refine_loop user_request mode max_iterations rest log2 prev'
                        final_analysis' (Some (failing_step, res))
          else
            let log2 := update_last_iteration log1
                          (set_retry false None
                                     (Some (txt "max_iterations_reached"))) in
            refine_loop user_request mode max_iterations rest log2 prev
                        final_analysis' (Some (failing_step, res))
      end
  end.

(** [range(n)] *)
Definition range (n : nat) : list nat := List.seq 0 n.

Definition run_with_refinement (user_request mode : str)
                               (max_iterations : nat)
  : M World (result outcome) :=
  let log := MkRun user_request mode max_iterations [] None None None None in
  refine_loop user_request mode max_iterations (range max_iterations) log
              None [] None.

End Loop.

End Agent.

(** ** Texts built from a descriptor:
       [format_port_info] of utils/port_extractor.py,
       the generators and the validator of utils/code_generator.py,
       [generate_corrected_declarations] of templates/error_fixes.py *)

Module PromptText.

(** [f"{s:8}"] for a string: spaces are added on the right up to the width,
    nothing is cut off. *)
Definition pad (n : nat) (s : str) : str := s ++ repeat " "%char (n - length s).

(** One line per port: a port with a width is laid out with the padded
    width, a port without one with a fixed run of spaces. *)
Definition port_line (ranged_head plain_head tail : str) (q : port) : str :=
  match snd q with
  | [] => plain_head ++ fst q ++ tail
  | _ :: _ => ranged_head ++ pad 8 (snd q) ++ txt " " ++ fst q ++ tail
  end.

(** [lines.append(header)] under [if ports[...]:] *)
Definition header_if (ps : list port) (header : str) : list str :=
  match ps with
  | [] => []
  | _ :: _ => [header]
  end.

Definition format_port_info (p : ports) : str :=
  let lines0 := [txt "Module Name: " ++ module_name p; []] in
  let lines1 :=
    lines0 ++ header_if (inputs p) (txt "Input Ports:")
    ++ map (port_line (txt "  - input wire ") (txt "  - input wire          ")
                      [])
           (inputs p) in
  let lines2 :=
    lines1 ++ header_if (outputs p) ([nl] ++ txt "Output Ports:")
    ++ map (port_line (txt "  - output ") (txt "  - output          ") [])
           (outputs p) in
  join [nl] lines2.

Definition generate_signal_declarations (p : ports) : str :=
  join [nl]
    (header_if (inputs p) (txt "    // DUT Inputs (use 'reg')")
     ++ map (port_line (txt "    reg  ") (txt "    reg           ") (txt ";"))
            (inputs p)
     ++ header_if (outputs p) (txt "    // DUT Outputs (use 'wire')")
     ++ map (port_line (txt "    wire ") (txt "    wire          ") (txt ";"))
            (outputs p)).

(** [for i, (name, width) in enumerate(all_ports)]: the lines from index [i]
    on, [n] being [len(all_ports)] *)
Fixpoint connection_lines (n i : nat) (all_ports : list port) : list str :=
  match all_ports with
  | [] => []
  | q :: rest =>
      let comma := if i <? n - 1 then txt "," else [] in
      (txt "        ." ++ fst q ++ txt "(" ++ fst q ++ txt ")" ++ comma)
        :: connection_lines n (S i) rest
  end.

Definition generate_port_connections (p : ports) : str :=
  let all_ports := inputs p ++ outputs p in
  join [nl] (connection_lines (length all_ports) 0 all_ports).

(** The body of the loop over the ports in [validate_testbench] *)
Definition port_issue (tb_code : str) (q : port) : list str :=
  if contains (txt "." ++ fst q ++ txt "(" ++ fst q ++ txt ")") tb_code
  then []
  else [txt "Port '" ++ fst q ++ txt "' not connected in instantiation"].

(** [validate_testbench]: [(is_valid, list_of_issues)] *)
Definition validate_testbench (tb_code : str) (p : ports) : bool * list str :=
  let issues1 :=
    if contains (txt "module tb_top") tb_code then []
    else [txt "Module name is not 'tb_top'"] in
  let issues2 :=
    issues1 ++ flat_map (port_issue tb_code) (inputs p ++ outputs p) in
  let issues3 :=
    issues2 ++ (if contains (txt "$finish") tb_code then []
                else [txt "Missing $finish statement"]) in
  let issues4 :=
    issues3 ++ (if contains (txt "endmodule") tb_code then []
                else [txt "Missing endmodule"]) in
  (length issues4 =? 0, issues4).

Definition generate_corrected_declarations (p : ports) : str :=
  join [nl]
    ([txt "// DUT Inputs (use 'reg' type)"]
     ++ map (port_line (txt "reg  ") (txt "reg           ") (txt ";"))
            (inputs p)
     ++ [[nl] ++ txt "// DUT Outputs (use 'wire' type)"]
     ++ map (port_line (txt "wire ") (txt "wire          ") (txt ";"))
            (outputs p)).

End PromptText.

(** ** prompts/user_prompts.py and the formatting of the user prompt in
       [generate_testbench] of test_simulation_agent.py *)

Module UserPrompts.

Import ErrorFixes PromptText.

Definition TB_USER_PROMPT_FIRST : str := txt "DUT SPECIFICATION:
{port_info}

Required Signal Declarations (COPY THIS EXACTLY):
{signal_declarations}

Required Instantiation (COPY THIS EXACTLY):
{module_name} dut (
{port_connections}
);

Test Description:
{user_request}

INSTRUCTIONS:
1. Copy the signal declarations above exactly
2. Copy the instantiation above exactly
3. Add clock generation if there's a 'clk' port: initial clk=0; always #5 clk=~clk;
4. Add reset sequence if there's 'rst' port: initial begin rst=1; #20; rst=0; ... end
5. Add test logic based on description
6. Add $finish at end

Output ONLY the complete testbench code. No explanations.".

Definition TB_USER_PROMPT_REFINED : str := txt "PREVIOUS ATTEMPT FAILED. 

ERROR DETAILS:
{error_summary}

SPECIFIC FIXES REQUIRED:
{targeted_fixes}

DUT SPECIFICATION (UNCHANGED):
{port_info}

CORRECT Signal Declarations (USE EXACTLY):
{signal_declarations}

CORRECT Instantiation (USE EXACTLY):
{module_name} dut (
{port_connections}
);

Test Description (same as before):
{user_request}

STEP-BY-STEP FIX:
1. Start with: module tb_top;
2. Copy signal declarations from above
3. Copy DUT instantiation from above - DO NOT SKIP ANY PORTS
4. Add clock/reset if needed
5. Add test logic
6. Add $finish
7. End with: endmodule

Output ONLY the corrected testbench code.".

(** [prompt_vars]: the first attempt fills five fields, a refined one
    eight. *)
Definition prompt_vars (q : prompt) : kwargs :=
  match q with
  | FirstPrompt user_request p _ =>
      [ (txt "user_request", user_request);
        (txt "port_info", format_port_info p);
        (txt "module_name", module_name p);
        (txt "signal_declarations", generate_signal_declarations p);
        (txt "port_connections", generate_port_connections p) ]
  | RefinedPrompt user_request p failing_step error_summary targeted_fixes =>
      [ (txt "user_request", user_request);
        (txt "failing_step", failing_step);
        (txt "error_summary", error_summary);
        (txt "targeted_fixes", targeted_fixes);
        (txt "port_info", format_port_info p);
        (txt "module_name", module_name p);
        (txt "signal_declarations", generate_signal_declarations p);
        (txt "port_connections", generate_port_connections p) ]
  end.

Definition user_prompt_template (q : prompt) : str :=
  match q with
  | FirstPrompt _ _ _ => TB_USER_PROMPT_FIRST
  | RefinedPrompt _ _ _ _ _ => TB_USER_PROMPT_REFINED
  end.

(** [formatted_user_prompt]: the template formatted with [prompt_vars] as
    keyword arguments *)
Definition formatted_user_prompt (q : prompt) : result str :=
  format (user_prompt_template q) (prompt_vars q).

End UserPrompts.

(** * Vocabulary of the properties *)

Import CodeGenerator ErrorFixes RtlRunner Agent.

(** A port whose lower-cased name is a clock alias, or a reset alias *)
Definition is_clock_name (q : port) : bool := mem (lower (fst q)) clk_names.
Definition is_reset_name (q : port) : bool := mem (lower (fst q)) rst_names.

(** The scenario description of the specification *)
Definition scenario_dut : str :=
  txt "module m(input wire clk, input wire rst, input wire [7:0] data, output reg [7:0] out)".

(** The names of the checks a trace shows as invoked, in order *)
Definition checks_invoked (tr : list event) : list str :=
  flat_map (fun e => match e with CheckInvoked n => [n] | _ => [] end) tr.

(** The prompts a trace shows as sent to the model, in order *)
Definition models_asked (tr : list event) : list prompt :=
  flat_map (fun e => match e with ModelAsked q => [q] | _ => [] end) tr.

(** The run logs a trace shows as saved, in order *)
Definition memory_saved (tr : list event) : list run_log :=
  flat_map (fun e => match e with MemorySaved l => [l] | _ => [] end) tr.

(** The checks each mode prescribes, as the specification lists them; any
    mode other than the first two is the full one. *)
Definition spec_checks (mode : str) : list str :=
  if str_eqb mode (txt "compile_only") then
    [txt "compile_dut"; txt "compile_tb"]
  else if str_eqb mode (txt "compile_elaborate") then
    [txt "compile_dut"; txt "elaborate_dut"; txt "compile_tb"]
  else
    [txt "compile_dut"; txt "elaborate_dut"; txt "compile_tb";
     txt "run_simulation"].


Section DriverSpec.

Variable World : Type.
Variable E : Env World.

(** The check a name of the specification stands for *)
Definition check_named (name : str) : M World step_result :=
  if str_eqb name (txt "compile_dut") then compile_dut E
  else if str_eqb name (txt "elaborate_dut") then elaborate_dut E
  else if str_eqb name (txt "compile_tb") then compile_tb E
  else run_simulation.

(** The driver as the specification words it: run the prescribed checks in
    order, stop at the first one whose exit status is not zero, and report
    every result gathered so far. *)
Fixpoint spec_driver (names : list str) (gathered : results)
  : M World (bool * str * results) :=
  match names with
  | [] => ret (true, txt "ok", gathered)
  | name :: rest =>
      r <-- check_named name ;;
      let gathered' := gathered ++ [(name, r)] in
      if failed r then ret (false, name, gathered')
      else spec_driver rest gathered'
  end.

End DriverSpec.


(** The literal text of a template between its replacement fields *)
Fixpoint literal_parts_from (in_field : bool) (cur : str) (t : str)
  : list str :=
  match t with
  | [] => [rev cur]
  | c :: t' =>
      if in_field then
        if Ascii.eqb c "}" then literal_parts_from false [] t'
        else literal_parts_from true cur t'
      else if Ascii.eqb c "{" then rev cur :: literal_parts_from true [] t'
      else literal_parts_from false (c :: cur) t'
  end.

Definition literal_part (i : nat) (t : str) : str :=
  nth i (literal_parts_from false [] t) [].

(** The missing-connection template with its fields filled in *)
Definition filled_pinmissing (port_ module_name_ connections : str) : str :=
  literal_part 0 template_PINMISSING ++ port_
  ++ literal_part 1 template_PINMISSING ++ port_
  ++ literal_part 2 template_PINMISSING ++ port_
  ++ literal_part 3 template_PINMISSING ++ module_name_
  ++ literal_part 4 template_PINMISSING ++ connections
  ++ literal_part 5 template_PINMISSING.

(** The width-mismatch template with its fields filled in *)
Definition filled_widthtrunc (port_ expected actual declaration : str) : str :=
  literal_part 0 template_WIDTHTRUNC ++ port_
  ++ literal_part 1 template_WIDTHTRUNC ++ expected
  ++ literal_part 2 template_WIDTHTRUNC ++ actual
  ++ literal_part 3 template_WIDTHTRUNC ++ declaration
  ++ literal_part 4 template_WIDTHTRUNC.

(** The module-not-found template with its fields filled in *)
Definition filled_module_not_found (module_ correct : str) : str :=
  literal_part 0 template_MODULE_NOT_FOUND ++ module_
  ++ literal_part 1 template_MODULE_NOT_FOUND ++ correct
  ++ literal_part 2 template_MODULE_NOT_FOUND.

(** [needle] occurs in [s] *)
Definition occurs (needle s : str) : Prop :=
  exists before after, s = before ++ needle ++ after.



(** A description that declares an unranged input before a ranged one *)
Definition unranged_first_dut : str :=
  txt "module m(input wire clk, input wire [7:0] data); endmodule".

(** A description whose ports have no storage class *)
Definition bare_ports_dut : str :=
  txt "module m(input clk, input [3:0] d, output q); endmodule".

(** The headings of the two kinds of fix block *)
Definition missing_connection_heading : str :=
  txt "CRITICAL ERROR: Missing Port Connection".

Definition width_mismatch_heading : str :=
  txt "CRITICAL ERROR: Bit Width Mismatch".

(** The line of the width fix that declares [data] with the range [[7:0]] *)
Definition data_declaration_line : str :=
  txt "Declare the signal correctly:" ++ [nl]
  ++ txt "    reg [7:0] data;" ++ [nl].

(** A diagnostic with a missing pin and a width mismatch on [data] *)
Definition sample_diagnostic : str :=
  txt "%Error-PINMISSING: tb.sv:5: Cell has missing pin: 'rst'" ++ [nl]
  ++ txt "%Warning-WIDTHTRUNC: tb.sv:9: port 'data' expects 8 bits but the value generates 4 bits.".

(** What one check leaves behind: its own name in the trace of invoked
    checks, no question to the model, nothing saved. *)
Definition check_footprint (World : Type) (name : str)
                           (c : M World step_result) : Prop :=
  forall st : state World,
    checks_invoked (snd (snd (c st))) = checks_invoked (snd st) ++ [name]
    /\ models_asked (snd (snd (c st))) = models_asked (snd st)
    /\ memory_saved (snd (snd (c st))) = memory_saved (snd st)
    /\ step (fst (c st)) = name.


(** The run of the first [k] checks of [names] that ends in [done]:
    a result per check, each under its own name, all but possibly the last
    one passing. *)
Definition ran_first (k : nat) (names : list str) (done : results) : Prop :=
  k <= length names
  /\ map fst done = firstn k names
  /\ (forall i name r,
         nth_error done i = Some (name, r) ->
         step r = name /\ (i + 1 < k -> returncode r = 0%Z)).


(** What [```\n?] leaves of a text: a newline right after a fence goes with
    the fence. *)
Definition drop_newline (s : str) : str :=
  match s with
  | c :: s' => if Ascii.eqb c nl then s' else s
  | [] => []
  end.

(** The removal of the plain fences, stated directly: cut at the first
    fence and go on behind it; [fuel] bounds the number of fences. *)
Fixpoint strip_plain (fuel : nat) (s : str) : str :=
  match fuel with
  | 0 => s
  | S f =>
      match find (txt "```") s with
      | None => s
      | Some n =>
          firstn n s ++ strip_plain f (drop_newline (skipn (n + 3) s))
      end
  end.

(** An answer of the model that carries the end of a testbench only *)
Definition headless_answer : str :=
  txt "  initial begin" ++ [nl] ++ txt "    $finish;" ++ [nl]
  ++ txt "  end" ++ [nl] ++ txt "endmodule" ++ [nl].

Arguments txt : simpl never.

(** ** Further vocabulary *)

Import PromptText UserPrompts.

(** A text without newline *)
Definition no_newline (s : str) : Prop :=
  forallb (fun c => negb (Ascii.eqb c nl)) s = true.

(** A non-empty run of word characters, and one of digits *)
Definition word_name (s : str) : Prop :=
  s <> [] /\ forallb is_word s = true.

Definition digit_string (s : str) : Prop :=
  s <> [] /\ forallb is_digit s = true.

(** A port as the patterns of the extractor can produce it: a word for a
    name, and for a width nothing or [[h:l]] with two digit strings. *)
Definition well_formed_port (q : port) : Prop :=
  word_name (fst q)
  /\ (snd q = []
      \/ exists h l,
           snd q = txt "[" ++ h ++ txt ":" ++ l ++ txt "]"
           /\ digit_string h /\ digit_string l).

(** The text [.name(name)] that connects a port *)
Definition connection (q : port) : str :=
  txt "." ++ fst q ++ txt "(" ++ fst q ++ txt ")".

(** The command lines a trace shows as run, and the files it shows as
    written with their content, in order *)
Definition processes_run (tr : list event) : list (list str) :=
  flat_map (fun e => match e with ProcessRun c => [c] | _ => [] end) tr.

Definition files_written (tr : list event) : list (str * str) :=
  flat_map (fun e => match e with FileWritten f c => [(f, c)] | _ => [] end)
           tr.

(** A result that names a log file, and the text such a log holds *)
Definition has_log (r : step_result) : bool :=
  match log_path r with
  | [] => false
  | _ :: _ => true
  end.

Definition log_of (r : step_result) : str :=
  txt "$ " ++ cmd r ++ [nl; nl]
  ++ txt "=== STDOUT ===" ++ [nl] ++ stdout r
  ++ [nl; nl] ++ txt "=== STDERR ===" ++ [nl] ++ stderr r.

(** The results of a flow that name a log file, in order *)
Definition tool_runs (res : results) : list step_result :=
  filter has_log (map snd res).

(** The three command lines of the flow *)
Definition lint_dut_command (World : Type) (E : Env World) : list str :=
  [txt "verilator"; txt "--lint-only"; dut_file E].

Definition elaborate_command (World : Type) (E : Env World) : list str :=
  [txt "verilator"; txt "--cc"; dut_file E].

Definition lint_tb_command (World : Type) (E : Env World) : list str :=
  [txt "verilator"; txt "--lint-only"; txt "--timing"; txt "-I" ++ rtl_dir E;
   dut_file E; tb_file E].

(** The command lines a mode runs when every check passes *)
Definition commands_of_mode (World : Type) (E : Env World) (mode : str)
  : list (list str) :=
  if str_eqb mode (txt "compile_only")
  then [lint_dut_command E; lint_tb_command E]
  else [lint_dut_command E; elaborate_command E; lint_tb_command E].

(** The result of the placeholder simulation *)
Definition stub_result : step_result :=
  MkStep (txt "run_simulation") (txt "(stub) no command run") 0%Z
         (txt "Simulation step not fully implemented yet; this is a stub."
          ++ [nl])
         [] [].

(** Surroundings in which both files exist and the tool accepts
    everything *)
Definition accepting (answer : str) : Env unit :=
  MkEnv (txt "rtl/my_dut.v") (txt "tb/generated_tb.sv") (txt "rtl")
        (txt "logs")
        (fun _ _ => Some [])
        (fun _ _ w => w)
        (fun _ w => (MkProc 0 [] [], w))
        (fun _ w => (Ok answer, w))
        (fun _ w => w).

(** The prompt of an iteration for the descriptor [p], given what the
    iteration before has left: the first prompt at iteration 0 or without a
    previous error, otherwise the refined prompt built from the failing
    step, the summary of its errors and the fixes synthesized for it. *)
Definition prompt_for (user_request : str) (iteration : nat)
                      (prev : option previous_error) (p : ports)
                      (q : prompt) : Prop :=
  match iteration, prev with
  | S _, Some pe =>
      let summary :=
        extract_error_summary (pe_results pe) (pe_failing_step pe) in
      exists fixes,
        generate_targeted_error_prompt summary p = Ok fixes
        /\ q = RefinedPrompt user_request p (pe_failing_step pe) summary fixes
  | _, _ => q = FirstPrompt user_request p (detect_port_features p)
  end.




(** The names of the replacement fields of a template, in their order *)
Fixpoint fields_from (field : option str) (t : str) : list str :=
  match t with
  | [] => []
  | c :: t' =>
      match field with
      | Some acc =>
          if Ascii.eqb c "}" then rev acc :: fields_from None t'
          else fields_from (Some (c :: acc)) t'
      | None =>
          if Ascii.eqb c "{" then fields_from (Some []) t'
          else fields_from None t'
      end
  end.

Definition template_fields (t : str) : list str := fields_from None t.

(** A template all of whose braces belong to replacement fields with a
    plain name: a non-empty run of word characters that does not start
    with a digit. *)
Fixpoint plain_from (field : option str) (t : str) : bool :=
  match t with
  | [] => match field with None => true | Some _ => false end
  | c :: t' =>
      match field with
      | Some acc =>
          if Ascii.eqb c "}" then
            match rev acc with
            | [] => false
            | c0 :: _ => negb (is_digit c0)
            end && plain_from None t'
          else is_word c && plain_from (Some (c :: acc)) t'
      | None =>
          if Ascii.eqb c "{" then
            match t' with
            | c2 :: _ => negb (Ascii.eqb c2 "{")
            | [] => false
            end && plain_from (Some []) t'
          else negb (Ascii.eqb c "}") && plain_from None t'
      end
  end.

Definition plain_template (t : str) : bool := plain_from None t.

(** The template [get_fix_for_error_type] chooses for an error type *)
Definition chosen_template (error_type : str) : str :=
  match dict_get error_type ERROR_FIX_TEMPLATES with
  | Some t => t
  | None => template_of (txt "SYNTAX_ERROR")
  end.

(** A line of the error output that goes into the summary: it holds one of
    the keywords and does not mention the lint banner. *)
Definition diagnostic_line (line : str) : bool :=
  existsb (fun keyword => contains keyword line) error_keywords
  && negb (contains (txt "verilator lint") (lower line)).

(** A text holds one of the keywords of the summary. *)
Definition names_a_keyword (line : str) : bool :=
  existsb (fun keyword => contains keyword line) error_keywords.

(** A non-empty run of white space *)
Definition blank (s : str) : Prop :=
  s <> [] /\ forallb is_space s = true.

(** The text declares the port [q] in the direction [dir]: the direction,
    the storage class [wire] or [reg], the width if the port has one, and
    the name, separated by white space. *)
Definition declared (dir : str) (q : port) (content : str) : Prop :=
  exists kind sp1 sp2,
    (kind = txt "wire" \/ kind = txt "reg")
    /\ blank sp1 /\ blank sp2
    /\ match snd q with
       | [] => occurs (dir ++ sp1 ++ kind ++ sp2 ++ fst q) content
       | _ :: _ =>
           exists sp3,
             blank sp3
             /\ occurs (dir ++ sp1 ++ kind ++ sp2 ++ snd q ++ sp3 ++ fst q)
                       content
       end.

(** A path can be read in a world. *)
Definition readable (World : Type) (E : Env World) (path : str) (w : World)
  : Prop :=
  read_text E path w <> None.

(** Surroundings in which no operation removes a file and a file that has
    been written can be read *)
Record keeps_files (World : Type) (E : Env World) : Prop := MkKeeps {
  kept_by_write :
    forall path f c w,
      readable E path w -> readable E path (write_text E f c w);
  kept_by_tool :
    forall path command w,
      readable E path w -> readable E path (snd (subprocess_run E command w));
  kept_by_model :
    forall path q w,
      readable E path w -> readable E path (snd (llm_invoke E q w));
  kept_by_memory :
    forall path log w,
      readable E path w -> readable E path (save_to_memory E log w);
  written_is_readable :
    forall f c w, readable E f (write_text E f c w)
}.

(** A result that reports a missing file: it names no command. *)
Definition reports_missing_file (r : step_result) : bool :=
  match cmd r with
  | [] => true
  | _ :: _ => false
  end.

(** Every flow recorded in a run log has results with the property [Q]. *)
Definition flows_satisfy (Q : results -> Prop) (log : run_log) : Prop :=
  forall il sim,
    In il (rl_iterations log) ->
    il_simulation il = Some sim ->
    Q (sl_verilator_results sim).

(** No result reports a missing file. *)
Definition no_file_missing (res : results) : Prop :=
  forall name r, In (name, r) res -> reports_missing_file r = false.


(** A run of spaces *)
Definition spaces_only (s : str) : Prop :=
  forallb (Ascii.eqb " "%char) s = true.




(** The text that follows a run of characters of the class [p] does not go
    on with a character of the class. *)
Definition not_continued (p : ascii -> bool) (rest : str) : Prop :=
  match rest with
  | [] => True
  | c :: _ => p c = false
  end.

(** The text of a declaration of the port [q]: direction, storage class,
    the width if the port has one, and the name, with the given white
    space between them *)
Definition declaration (dir sp1 kind sp2 sp3 : str) (q : port) : str :=
  dir ++ sp1 ++ kind ++ sp2
  ++ match snd q with
     | [] => fst q
     | _ :: _ => snd q ++ sp3 ++ fst q
     end.

(** * Properties *)

(** ** Strings *)

Lemma str_eqb_eq (a b : str) : str_eqb a b = true <-> a = b.
Proof.
  revert b; induction a as [|x a IH]; intros [|y b]; simpl; split;
    try congruence; try reflexivity.
  - intros H. apply andb_true_iff in H as [Hx Hab].
    apply Ascii.eqb_eq in Hx. apply IH in Hab. congruence.
  - intros H. injection H as -> ->.
    apply andb_true_iff. split; [apply Ascii.eqb_refl | now apply IH].
Qed.

Lemma str_eqb_refl (a : str) : str_eqb a a = true.
Proof. now apply str_eqb_eq. Qed.

Lemma starts_with_app (p s : str) : starts_with p (p ++ s) = true.
Proof.
  induction p as [|x p IH]; simpl; [reflexivity|].
  now rewrite Ascii.eqb_refl.
Qed.

Lemma starts_with_split (p s : str) :
  starts_with p s = true -> s = p ++ skipn (length p) s.
Proof.
  revert s; induction p as [|x p IH]; intros [|y s]; simpl; try congruence.
  intros H. apply andb_true_iff in H as [Hx Hs].
  apply Ascii.eqb_eq in Hx. subst y. f_equal. now apply IH.
Qed.

Lemma mem_In (x : str) (xs : list str) : mem x xs = true <-> In x xs.
Proof.
  unfold mem. rewrite existsb_exists. split.
  - intros (y & Hy & E). apply str_eqb_eq in E. now subst.
  - intros H. exists x. split; [assumption | apply str_eqb_refl].
Qed.

(** ** Feature flags *)

Lemma check_clock_flags (l : list port) (f : features) :
  has_clk (fold_left check_clock l f) = has_clk f || existsb is_clock_name l
  /\ has_rst (fold_left check_clock l f) = has_rst f || existsb is_reset_name l.
Proof.
  revert f; induction l as [|q l IH]; intros f; simpl.
  - now rewrite !orb_false_r.
  - destruct (IH (check_clock f q)) as [Hc Hr]. rewrite Hc, Hr.
    unfold check_clock, is_clock_name, is_reset_name.
    destruct (mem (lower (fst q)) clk_names), (mem (lower (fst q)) rst_names);
      simpl; rewrite ?orb_true_r, ?orb_false_r; auto.
Qed.

Lemma check_width_flags (l : list port) (f : features) :
  has_clk (fold_left check_width l f) = has_clk f
  /\ has_rst (fold_left check_width l f) = has_rst f.
Proof.
  revert f; induction l as [|q l IH]; intros f; simpl; [auto|].
  destruct (IH (check_width f q)) as [Hc Hr]. rewrite Hc, Hr.
  unfold check_width. destruct (snd q); auto.
Qed.

Lemma detect_clock_reset (p : ports) :
  has_clk (detect_port_features p) = existsb is_clock_name (inputs p)
  /\ has_rst (detect_port_features p) = existsb is_reset_name (inputs p).
Proof.
  unfold detect_port_features.
  destruct (check_width_flags (inputs p ++ outputs p)
              (fold_left check_clock (inputs p)
                 (MkFeatures false false false 0
                    (length (inputs p)) (length (outputs p))))) as [Hc Hr].
  rewrite Hc, Hr.
  destruct (check_clock_flags (inputs p)
              (MkFeatures false false false 0
                 (length (inputs p)) (length (outputs p)))) as [Hc' Hr'].
  now rewrite Hc', Hr'.
Qed.

Lemma clock_flag_iff (p : ports) :
  has_clk (detect_port_features p) = true <->
  exists q, In q (inputs p)
            /\ (lower (fst q) = txt "clk" \/ lower (fst q) = txt "clock").
Proof.
  destruct (detect_clock_reset p) as [Hc _]. rewrite Hc. split.
  - intros H. apply existsb_exists in H as (q & Hq & Hm).
    exists q. split; [assumption|].
    apply mem_In in Hm. destruct Hm as [H | [H | []]];
      [left | right]; symmetry; exact H.
  - intros (q & Hq & Hn). apply existsb_exists. exists q.
    split; [assumption|]. apply mem_In.
    destruct Hn as [H | H]; rewrite H; [left | right; left]; reflexivity.
Qed.

Lemma reset_flag_iff (p : ports) :
  has_rst (detect_port_features p) = true <->
  exists q, In q (inputs p)
            /\ (lower (fst q) = txt "rst" \/ lower (fst q) = txt "reset").
Proof.
  destruct (detect_clock_reset p) as [_ Hr]. rewrite Hr. split.
  - intros H. apply existsb_exists in H as (q & Hq & Hm).
    exists q. split; [assumption|].
    apply mem_In in Hm. destruct Hm as [H | [H | []]];
      [left | right]; symmetry; exact H.
  - intros (q & Hq & Hn). apply existsb_exists. exists q.
    split; [assumption|]. apply mem_In.
    destruct Hn as [H | H]; rewrite H; [left | right; left]; reflexivity.
Qed.

(** C10.  The clock flag is set exactly when some input port has a name
    that, lower-cased, is [clk] or [clock], and the reset flag exactly when
    some input port has a name that, lower-cased, is [rst] or [reset].  The
    output ports play no part: whatever the outputs are called, the flags
    stay unset when no input bears such a name.  So a descriptor whose clock
    or reset name occurs only among the outputs has the flag unset, and so
    has one whose input is called [clk_en] or [rst_n]. *)
Theorem C10_clock_reset_from_inputs_only :
  (forall p : ports,
      has_clk (detect_port_features p) = true <->
      exists q, In q (inputs p)
                /\ (lower (fst q) = txt "clk" \/ lower (fst q) = txt "clock"))
  /\ (forall p : ports,
      has_rst (detect_port_features p) = true <->
      exists q, In q (inputs p)
                /\ (lower (fst q) = txt "rst" \/ lower (fst q) = txt "reset"))
  /\ (forall p : ports,
      (forall q, In q (inputs p) ->
                 lower (fst q) <> txt "clk" /\ lower (fst q) <> txt "clock") ->
      has_clk (detect_port_features p) = false)
  /\ (forall p : ports,
      (forall q, In q (inputs p) ->
                 lower (fst q) <> txt "rst" /\ lower (fst q) <> txt "reset") ->
      has_rst (detect_port_features p) = false)
  /\ (forall (name w : str) (outs : list port),
      has_clk (detect_port_features
                 (MkPorts name [(txt "clk_en", w)] outs)) = false
      /\ has_rst (detect_port_features
                    (MkPorts name [(txt "rst_n", w)] outs)) = false)
  /\ (forall (name w w' : str),
      has_clk (detect_port_features
                 (MkPorts name [] [(txt "clk", w); (txt "CLOCK", w')]))
      = false
      /\ has_rst (detect_port_features
                    (MkPorts name [] [(txt "rst", w); (txt "Reset", w')]))
         = false)
  /\ (forall (name w w' : str),
      has_clk (detect_port_features
                 (MkPorts name [(txt "CLK", w); (txt "Reset", w')] []))
      = true
      /\ has_rst (detect_port_features
                    (MkPorts name [(txt "CLK", w); (txt "Reset", w')] []))
         = true).
Proof.
  split; [exact clock_flag_iff|]. split; [exact reset_flag_iff|].
  split.
  { intros p Hnone.
    destruct (has_clk (detect_port_features p)) eqn:H; [|reflexivity].
    apply clock_flag_iff in H as (q & Hq & Hn).
    destruct (Hnone q Hq) as [H1 H2]. destruct Hn; contradiction. }
  split.
  { intros p Hnone.
    destruct (has_rst (detect_port_features p)) eqn:H; [|reflexivity].
    apply reset_flag_iff in H as (q & Hq & Hn).
    destruct (Hnone q Hq) as [H1 H2]. destruct Hn; contradiction. }
  split.
  { intros name w outs. split.
    - destruct (detect_clock_reset
                  (MkPorts name [(txt "clk_en", w)] outs)) as [Hc _].
      rewrite Hc. reflexivity.
    - destruct (detect_clock_reset
                  (MkPorts name [(txt "rst_n", w)] outs)) as [_ Hr].
      rewrite Hr. reflexivity. }
  split.
  { intros name w w'. split.
    - destruct (detect_clock_reset
                  (MkPorts name [] [(txt "clk", w); (txt "CLOCK", w')]))
        as [Hc _].
      rewrite Hc. reflexivity.
    - destruct (detect_clock_reset
                  (MkPorts name [] [(txt "rst", w); (txt "Reset", w')]))
        as [_ Hr].
      rewrite Hr. reflexivity. }
  intros name w w'.
  destruct (detect_clock_reset
              (MkPorts name [(txt "CLK", w); (txt "Reset", w')] []))
    as [Hc Hr].
  rewrite Hc, Hr. split; reflexivity.
Qed.

(** ** The scenario of the specification *)

(** C7.  For the interface extracted from the scenario description the
    classifier reports a clock, a reset, a multi-bit port and a maximal width
    of 8, the high index 7 plus one. *)
Theorem C7_scenario_features :
  let f := detect_port_features (extract_dut_ports (Some scenario_dut)) in
  has_clk f = true /\ has_rst f = true /\ has_multibit f = true
  /\ max_width f = 8%N
  /\ max_width f = (int_of (txt "7") + 1)%N.
Proof. vm_compute. repeat split. Qed.

(** ** The verification flow *)

Lemma checks_invoked_app (a b : list event) :
  checks_invoked (a ++ b) = checks_invoked a ++ checks_invoked b.
Proof. apply flat_map_app. Qed.

Lemma models_asked_app (a b : list event) :
  models_asked (a ++ b) = models_asked a ++ models_asked b.
Proof. apply flat_map_app. Qed.

Lemma memory_saved_app (a b : list event) :
  memory_saved (a ++ b) = memory_saved a ++ memory_saved b.
Proof. apply flat_map_app. Qed.

Ltac close_footprint :=
  unfold ret; cbn [fst snd];
  rewrite ?checks_invoked_app, ?models_asked_app, ?memory_saved_app;
  simpl; rewrite ?app_nil_r; auto.

Section RunnerFacts.

Variable World : Type.
Variable E : Env World.

Lemma run_cmd_footprint (command : list str) (name : str) (st : state World) :
  checks_invoked (snd (snd (_run_cmd E command name st)))
  = checks_invoked (snd st)
  /\ models_asked (snd (snd (_run_cmd E command name st)))
     = models_asked (snd st)
  /\ memory_saved (snd (snd (_run_cmd E command name st)))
     = memory_saved (snd st)
  /\ step (fst (_run_cmd E command name st)) = name.
Proof.
  destruct st as [w tr]. unfold _run_cmd, bindM, emit, perform, ret. simpl.
  destruct (subprocess_run E command w) as [r w1]. simpl.
  rewrite !checks_invoked_app, !models_asked_app, !memory_saved_app. simpl.
  rewrite !app_nil_r. auto.
Qed.

Ltac through_run_cmd :=
  lazymatch goal with
  | |- context [_run_cmd ?env ?c ?n ?s] =>
      let Ha := fresh in
      let Hb := fresh in
      let Hc := fresh in
      let Hd := fresh in
      destruct (run_cmd_footprint c n s) as [Ha [Hb [Hc Hd]]];
      rewrite Ha, Hb, Hc, Hd; close_footprint
  end.

Lemma compile_dut_footprint : check_footprint (txt "compile_dut") (compile_dut E).
Proof.
  intros [w tr]. unfold compile_dut, bindM, emit, exists_, observe.
  simpl fst. simpl snd.
  destruct (read_text E (dut_file E) w); cbn [negb];
    [through_run_cmd | close_footprint].
Qed.

Lemma elaborate_dut_footprint :
  check_footprint (txt "elaborate_dut") (elaborate_dut E).
Proof.
  intros [w tr]. unfold elaborate_dut, bindM, emit, exists_, observe.
  simpl fst. simpl snd.
  destruct (read_text E (dut_file E) w); cbn [negb];
    [through_run_cmd | close_footprint].
Qed.

Lemma compile_tb_footprint : check_footprint (txt "compile_tb") (compile_tb E).
Proof.
  intros [w tr]. unfold compile_tb, bindM, emit, exists_, observe.
  simpl fst. simpl snd.
  destruct (read_text E (tb_file E) w); cbn [negb fst snd];
    [destruct (read_text E (dut_file E) w); cbn [negb];
       [through_run_cmd | close_footprint]
    | close_footprint].
Qed.

Lemma run_simulation_footprint :
  check_footprint (txt "run_simulation") (@run_simulation World).
Proof.
  intros [w tr]. unfold run_simulation, bindM, emit. close_footprint.
Qed.

Lemma run_simulation_passes (st : state World) :
  failed (fst (run_simulation st)) = false.
Proof. reflexivity. Qed.

End RunnerFacts.

Section DriverFacts.

Variable World : Type.
Variable E : Env World.

Lemma check_named_footprint (name : str) :
  In name [txt "compile_dut"; txt "elaborate_dut"; txt "compile_tb";
           txt "run_simulation"] ->
  check_footprint name (check_named E name).
Proof.
  intros [H | [H | [H | [H | []]]]]; subst name; unfold check_named;
    match goal with
    | |- context [str_eqb ?a ?b] =>
        let v := eval vm_compute in (str_eqb a b) in
        change (str_eqb a b) with v
    end; cbv iota.
  - apply compile_dut_footprint.
  - match goal with
    | |- context [str_eqb ?a ?b] =>
        let v := eval vm_compute in (str_eqb a b) in
        change (str_eqb a b) with v
    end; cbv iota. apply elaborate_dut_footprint.
  - repeat match goal with
    | |- context [str_eqb ?a ?b] =>
        let v := eval vm_compute in (str_eqb a b) in
        change (str_eqb a b) with v
    end; cbv iota. apply compile_tb_footprint.
  - repeat match goal with
    | |- context [str_eqb ?a ?b] =>
        let v := eval vm_compute in (str_eqb a b) in
        change (str_eqb a b) with v
    end; cbv iota. apply run_simulation_footprint.
Qed.

Lemma failed_false (r : step_result) :
  failed r = false <-> returncode r = 0%Z.
Proof.
  unfold failed. rewrite negb_false_iff. apply Z.eqb_eq.
Qed.

Lemma failed_true (r : step_result) :
  failed r = true <-> returncode r <> 0%Z.
Proof.
  unfold failed. rewrite negb_true_iff. apply Z.eqb_neq.
Qed.

Lemma spec_driver_fail_fast (names : list str) :
  (forall n, In n names -> check_footprint n (check_named E n)) ->
  forall (gathered : results) (st : state World) success failing res st',
    spec_driver E names gathered st = (success, failing, res, st') ->
    exists k done,
      res = gathered ++ done
      /\ ran_first k names done
      /\ checks_invoked (snd st') = checks_invoked (snd st) ++ firstn k names
      /\ models_asked (snd st') = models_asked (snd st)
      /\ memory_saved (snd st') = memory_saved (snd st)
      /\ (if success
          then k = length names /\ failing = txt "ok"
               /\ (forall name r, In (name, r) done -> returncode r = 0%Z)
          else 1 <= k
               /\ exists r, nth_error done (k - 1) = Some (failing, r)
                            /\ returncode r <> 0%Z).
Proof.
  induction names as [|name rest IH]; intros Hfp gathered st success failing
    res st' Hrun.
  - simpl in Hrun. unfold ret in Hrun. injection Hrun as <- <- <- <-.
    exists 0, []. rewrite !app_nil_r.
    split; [reflexivity|]. split.
    { split; [simpl; lia|]. split; [reflexivity|].
      intros i name r H. destruct i; discriminate. }
    split; [reflexivity|]. split; [reflexivity|]. split; [reflexivity|].
    split; [reflexivity|]. split; [reflexivity|]. intros name r [].
  - simpl in Hrun. unfold bindM in Hrun.
    destruct (Hfp name (or_introl eq_refl) st) as (Hc & Hm & Hs & Hstep).
    destruct (check_named E name st) as [r st1] eqn:Hcheck.
    cbn [fst snd] in Hc, Hm, Hs, Hstep.
    destruct (failed r) eqn:Hf.
    + unfold ret in Hrun. injection Hrun as <- <- <- <-.
      exists 1, [(name, r)].
      split; [reflexivity|]. split.
      { split; [simpl; lia|]. split; [reflexivity|].
        intros i n0 r0 H. destruct i as [|[|i]]; simpl in H; try discriminate.
        injection H as <- <-. split; [exact Hstep | lia]. }
      split; [exact Hc|]. split; [exact Hm|]. split; [exact Hs|].
      split; [lia|]. exists r. split; [reflexivity | now apply failed_true].
    + apply IH in Hrun; [|intros n Hn; apply Hfp; now right].
      destruct Hrun as (k & done & Hres & (Hk & Hnames & Hnth) & Hc' & Hm'
                        & Hs' & Hout).
      exists (S k), ((name, r) :: done).
      split; [rewrite Hres, <- app_assoc; reflexivity|].
      split.
      { split; [simpl; lia|]. split; [simpl; now rewrite Hnames|].
        intros i n0 r0 H. destruct i as [|i]; simpl in H.
        - injection H as <- <-. split; [exact Hstep|].
          intros _. now apply failed_false.
        - apply Hnth in H. destruct H as [H1 H2]. split; [exact H1|].
          intros Hi. apply H2. lia. }
      split; [rewrite Hc', Hc, <- app_assoc; reflexivity|].
      split; [congruence|]. split; [congruence|].
      destruct success.
      * destruct Hout as (-> & -> & Hall).
        split; [reflexivity|]. split; [reflexivity|].
        intros n0 r0 [H | H];
          [injection H as <- <-; now apply failed_false | eauto].
      * destruct Hout as (Hk1 & r0 & Hlast & Hrc). split; [lia|].
        exists r0. split; [|assumption].
        destruct k as [|k]; [lia|]. simpl. simpl in Hlast.
        now rewrite Nat.sub_0_r in *.
Qed.

(** The flow as coded runs the driver of the specification on the checks
    its mode prescribes. *)
Lemma run_flow_refines_spec (mode : str) (st : state World) :
  run_flow E mode st = spec_driver E (spec_checks mode) [] st.
Proof.
  unfold run_flow, spec_checks.
  destruct (str_eqb mode (txt "compile_only")) eqn:H1;
    [|destruct (str_eqb mode (txt "compile_elaborate")) eqn:H2];
    cbn [spec_driver]; unfold bindM, check_named;
    repeat match goal with
      | |- context [str_eqb (txt ?a) (txt ?b)] =>
          let v := eval vm_compute in (str_eqb (txt a) (txt b)) in
          change (str_eqb (txt a) (txt b)) with v
      end; cbv iota.
  - destruct (compile_dut E st) as [r1 st1].
    destruct (failed r1); [reflexivity|].
    destruct (compile_tb E st1) as [r2 st2].
    destruct (failed r2); reflexivity.
  - destruct (compile_dut E st) as [r1 st1].
    destruct (failed r1); [reflexivity|].
    destruct (elaborate_dut E st1) as [r2 st2].
    destruct (failed r2); [reflexivity|].
    destruct (compile_tb E st2) as [r3 st3].
    destruct (failed r3); reflexivity.
  - destruct (compile_dut E st) as [r1 st1].
    destruct (failed r1); [reflexivity|].
    destruct (elaborate_dut E st1) as [r2 st2].
    destruct (failed r2); [reflexivity|].
    destruct (compile_tb E st2) as [r3 st3].
    destruct (failed r3); [reflexivity|].
    destruct (run_simulation st3) as [r4 st4].
    destruct (failed r4); reflexivity.
Qed.

Lemma spec_checks_known (mode : str) (n : str) :
  In n (spec_checks mode) ->
  In n [txt "compile_dut"; txt "elaborate_dut"; txt "compile_tb";
        txt "run_simulation"].
Proof.
  unfold spec_checks.
  destruct (str_eqb mode (txt "compile_only"));
    [|destruct (str_eqb mode (txt "compile_elaborate"))];
    simpl; intuition.
Qed.

Lemma run_flow_fail_fast (mode : str) (st : state World) success failing res st' :
  run_flow E mode st = (success, failing, res, st') ->
  exists k,
    ran_first k (spec_checks mode) res
    /\ checks_invoked (snd st') = checks_invoked (snd st)
                                  ++ firstn k (spec_checks mode)
    /\ models_asked (snd st') = models_asked (snd st)
    /\ memory_saved (snd st') = memory_saved (snd st)
    /\ (if success
        then k = length (spec_checks mode) /\ failing = txt "ok"
             /\ (forall name r, In (name, r) res -> returncode r = 0%Z)
        else 1 <= k
             /\ exists r, nth_error res (k - 1) = Some (failing, r)
                          /\ returncode r <> 0%Z).
Proof.
  rewrite run_flow_refines_spec. intros H.
  apply spec_driver_fail_fast in H.
  - destruct H as (k & done & Hres & H). simpl in Hres. subst done.
    exists k. exact H.
  - intros n Hn. apply check_named_footprint. eapply spec_checks_known, Hn.
Qed.

End DriverFacts.

(** C1.  Whatever the surroundings answer, [run_flow] invokes a prefix of
    the checks its mode prescribes - [compile_dut], [compile_tb] for
    [compile_only]; [compile_dut], [elaborate_dut], [compile_tb] for
    [compile_elaborate]; these and [run_simulation] for any other mode - in
    that order, and no other check.  It returns one result per invoked
    check, each under its own name; every result before the last has exit
    status zero.  On success all prescribed checks ran and passed and the
    failing step is reported as [ok]; on failure the last result is the one
    of the check named as failing, its exit status is not zero, and the
    checks after it were not invoked. *)
Theorem C1_run_flow_fail_fast :
  forall (World : Type) (E : Env World) (mode : str) (st : state World),
    spec_checks (txt "compile_only") = [txt "compile_dut"; txt "compile_tb"]
    /\ spec_checks (txt "compile_elaborate")
       = [txt "compile_dut"; txt "elaborate_dut"; txt "compile_tb"]
    /\ spec_checks (txt "full")
       = [txt "compile_dut"; txt "elaborate_dut"; txt "compile_tb";
          txt "run_simulation"]
    /\ spec_checks (txt "full_sim") = spec_checks (txt "full")
    /\ run_flow E mode st = spec_driver E (spec_checks mode) [] st
    /\ let '(success, failing, res, st') := run_flow E mode st in
       exists k : nat,
         k <= length (spec_checks mode)
         /\ checks_invoked (snd st')
            = checks_invoked (snd st) ++ firstn k (spec_checks mode)
         /\ map fst res = firstn k (spec_checks mode)
         /\ (forall i name r,
                nth_error res i = Some (name, r) ->
                step r = name /\ (i + 1 < k -> returncode r = 0%Z))
         /\ (if success
             then k = length (spec_checks mode) /\ failing = txt "ok"
                  /\ (forall name r, In (name, r) res -> returncode r = 0%Z)
             else 1 <= k
                  /\ exists r, nth_error res (k - 1) = Some (failing, r)
                               /\ returncode r <> 0%Z).
Proof.
  intros World E mode st.
  split; [reflexivity|]. split; [reflexivity|]. split; [reflexivity|].
  split; [reflexivity|]. split; [apply run_flow_refines_spec|].
  destruct (run_flow E mode st) as [[[success failing] res] st'] eqn:Hrun.
  apply run_flow_fail_fast in Hrun.
  destruct Hrun as (k & (Hk & Hnames & Hnth) & Hc & _ & _ & Hout).
  exists k. split; [exact Hk|]. split; [exact Hc|]. split; [exact Hnames|].
  split; [exact Hnth | exact Hout].
Qed.

(** ** Fix templates *)

Lemma get_fix_pinmissing (a b c : str) :
  get_fix_for_error_type (txt "PINMISSING")
    [(txt "port", a); (txt "module_name", b); (txt "port_connections", c)]
  = Ok (filled_pinmissing a b c).
Proof. vm_compute. reflexivity. Qed.

Lemma get_fix_widthtrunc (a b c d : str) :
  get_fix_for_error_type (txt "WIDTHTRUNC")
    [(txt "port", a); (txt "expected_width", b); (txt "actual_width", c);
     (txt "correct_declaration", d)]
  = Ok (filled_widthtrunc a b c d).
Proof. vm_compute. reflexivity. Qed.

Lemma get_fix_module_not_found (a b : str) :
  get_fix_for_error_type (txt "MODULE_NOT_FOUND")
    [(txt "module", a); (txt "correct_module_name", b)]
  = Ok (filled_module_not_found a b).
Proof. vm_compute. reflexivity. Qed.

(** The fixes are always synthesized: no exception leaves
    [generate_targeted_error_prompt]. *)
Lemma collect_fixes_total (error_summary : str) (p : ports) :
  exists fixes, collect_fixes error_summary p = Ok fixes.
Proof.
  unfold collect_fixes, pinmissing_fixes, width_fixes, module_fixes, bind.
  destruct (contains (txt "PINMISSING") error_summary);
    [destruct (parse_pinmissing_error error_summary);
       [|rewrite get_fix_pinmissing]|];
    (destruct (contains (txt "WIDTHTRUNC") error_summary
               || contains (txt "WIDTHEXPAND") error_summary);
       [destruct (wi_port (parse_width_error error_summary));
          [rewrite get_fix_widthtrunc|]|]);
    (destruct (contains (txt "Cannot find") error_summary
               && contains (txt "module") (lower error_summary));
       [rewrite get_fix_module_not_found|]);
    eexists; reflexivity.
Qed.

Lemma generate_targeted_error_prompt_total (error_summary : str) (p : ports) :
  exists s, generate_targeted_error_prompt error_summary p = Ok s.
Proof.
  unfold generate_targeted_error_prompt, bind.
  destruct (collect_fixes_total error_summary p) as [fixes ->].
  eexists; reflexivity.
Qed.

(** ** The refinement loop *)

Section AgentFacts.

Variable World : Type.
Variable E : Env World.

(** Building the prompt never fails and leaves the world as it is. *)
Lemma build_prompt_total (user_request : str) (iteration : nat)
      (prev : option previous_error) (st : state World) :
  exists q,
    build_prompt E user_request iteration prev st
    = (extract_dut_ports (read_text E (dut_file E) (fst st)), Ok q, st).
Proof.
  unfold build_prompt, bindM, observe.
  destruct iteration as [|n]; [eexists; reflexivity|].
  destruct prev as [pe|]; [|eexists; reflexivity].
  destruct (generate_targeted_error_prompt_total
              (extract_error_summary (pe_results pe) (pe_failing_step pe))
              (extract_dut_ports (read_text E (dut_file E) (fst st))))
    as [s Hs].
  rewrite Hs. eexists; reflexivity.
Qed.

(** One generation: the model is asked once; its answer is sanitized; the
    testbench is written only when the sanitizer accepts the answer. *)
Lemma generate_testbench_unfold (user_request : str) (iteration : nat)
      (prev : option previous_error) (st : state World) :
  exists q,
    build_prompt E user_request iteration prev st
    = (extract_dut_ports (read_text E (dut_file E) (fst st)), Ok q, st)
    /\ generate_testbench E user_request iteration prev st
       = match llm_invoke E q (fst st) with
         | (Raise e, w1) => (Raise e, (w1, snd st ++ [ModelAsked q]))
         | (Ok raw_tb, w1) =>
             match sanitize_verilog_code raw_tb with
             | Raise e => (Raise e, (w1, snd st ++ [ModelAsked q]))
             | Ok tb_code =>
                 (Ok (MkGen iteration
                            (extract_dut_ports
                               (read_text E (dut_file E) (fst st)))
                            raw_tb tb_code),
                  (write_text E (tb_file E) tb_code w1,
                   (snd st ++ [ModelAsked q])
                   ++ [FileWritten (tb_file E) tb_code]))
             end
         end.
Proof.
  destruct (build_prompt_total user_request iteration prev st) as [q Hq].
  exists q. split; [exact Hq|].
  unfold generate_testbench, bindM. rewrite Hq. cbn [snd fst].
  unfold emit, perform, ret. cbn [fst snd].
  destruct (llm_invoke E q (fst st)) as [[raw_tb | e] w1]; cbn [fst snd];
    [|reflexivity].
  destruct (sanitize_verilog_code raw_tb); reflexivity.
Qed.


Lemma refine_loop_nil (user_request mode : str) (max_iterations : nat)
      (log : run_log) (prev : option previous_error) (final_analysis : str)
      (last : option (str * results)) :
  refine_loop E user_request mode max_iterations [] log prev final_analysis
              last
  = (save E (finish log (txt "max_iterations_reached") false max_iterations
                    (Some final_analysis)) ;;;
     match last with
     | Some (failing_step, res) =>
         ret (Ok (false, failing_step, res, final_analysis, max_iterations))
     | None => ret (Raise (OtherError (txt "UnboundLocalError")))
     end).
Proof. reflexivity. Qed.

Lemma save_run (log : run_log) (st : state World) :
  save E log st
  = (tt, (save_to_memory E log (fst st), snd st ++ [MemorySaved log])).
Proof. reflexivity. Qed.

Lemma iterations_append (log : run_log) (il : iteration_log) :
  rl_iterations (append_iteration log il) = rl_iterations log ++ [il].
Proof. reflexivity. Qed.

Lemma iterations_update_last (log : run_log) (il : iteration_log)
      (f : iteration_log -> iteration_log) :
  rl_iterations (update_last_iteration (append_iteration log il) f)
  = rl_iterations log ++ [f il].
Proof.
  unfold update_last_iteration. cbn [rl_iterations append_iteration].
  rewrite rev_app_distr. simpl. now rewrite rev_involutive.
Qed.

End AgentFacts.

Section Exhaustion.

Variable World : Type.
Variable E : Env World.
Variable Inv : World -> Prop.
Variable user_request mode : str.
Variable max_iterations : nat.

(** Along the run, every generation succeeds ... *)
Hypothesis generation_succeeds :
  forall iteration prev (st : state World),
    Inv (fst st) ->
    exists g st',
      generate_testbench E user_request iteration prev st = (Ok g, st')
      /\ Inv (fst st').

(** ... and every verification fails. *)
Hypothesis verification_fails :
  forall st : state World,
    Inv (fst st) ->
    exists failing res st',
      run_flow E mode st = (false, failing, res, st') /\ Inv (fst st').


End Exhaustion.









(** ** Searching in strings *)

Lemma ascii_eqb_sym (a b : ascii) : Ascii.eqb a b = Ascii.eqb b a.
Proof.
  destruct (Ascii.eqb a b) eqn:H.
  - apply Ascii.eqb_eq in H. subst. symmetry. apply Ascii.eqb_refl.
  - symmetry. apply Ascii.eqb_neq. apply Ascii.eqb_neq in H. congruence.
Qed.

Lemma starts_with_prefix (a b s : str) :
  starts_with (a ++ b) s = true -> starts_with a s = true.
Proof.
  revert s; induction a as [|x a IH]; intros s; simpl; [reflexivity|].
  destruct s as [|y s]; [discriminate|].
  intros H. apply andb_true_iff in H as [Hx Hs].
  rewrite Hx. simpl. now apply IH.
Qed.

Lemma starts_with_short (p s : str) :
  length s < length p -> starts_with p s = false.
Proof.
  revert s; induction p as [|x p IH]; intros [|y s]; simpl; intros H;
    try lia; try reflexivity.
  rewrite IH by lia. apply andb_false_r.
Qed.

Lemma find_from_none_prefix (a b : str) (i : nat) (s : str) :
  find_from a i s = None -> find_from (a ++ b) i s = None.
Proof.
  revert i; induction s as [|y s IH]; intros i; simpl.
  - destruct (starts_with a []) eqn:Ha; [discriminate|].
    destruct (starts_with (a ++ b) []) eqn:Hab; [|reflexivity].
    apply starts_with_prefix in Hab. congruence.
  - destruct (starts_with a (y :: s)) eqn:Ha; [discriminate|].
    destruct (starts_with (a ++ b) (y :: s)) eqn:Hab.
    + apply starts_with_prefix in Hab. congruence.
    + apply IH.
Qed.

Lemma find_from_shift (sub : str) (i j : nat) (s : str) :
  find_from sub i s = None -> find_from sub j s = None.
Proof.
  revert i j; induction s as [|y s IH]; intros i j; simpl.
  - destruct (starts_with sub []); [discriminate | reflexivity].
  - destruct (starts_with sub (y :: s)); [discriminate|]. apply IH.
Qed.

Lemma find_from_start (sub : str) (i : nat) (s : str) :
  starts_with sub s = true -> find_from sub i s = Some i.
Proof. intros H. destruct s; simpl; now rewrite H. Qed.

Lemma contains_occurs (needle s : str) :
  contains needle s = true -> occurs needle s.
Proof.
  unfold contains, find. generalize 0 as i.
  induction s as [|y s IH]; intros i; simpl.
  - destruct (starts_with needle []) eqn:H; [|discriminate].
    intros _. apply starts_with_split in H. exists [], (skipn (length needle) []).
    exact H.
  - destruct (starts_with needle (y :: s)) eqn:H.
    + intros _. apply starts_with_split in H.
      exists [], (skipn (length needle) (y :: s)). exact H.
    + intros Hf. destruct (IH (S i) Hf) as (before & after & ->).
      exists (y :: before), after. reflexivity.
Qed.

Lemma occurs_app_r (needle a s : str) :
  occurs needle s -> occurs needle (a ++ s).
Proof.
  intros (before & after & ->). exists (a ++ before), after.
  now rewrite <- app_assoc.
Qed.

Lemma occurs_app_l (needle s b : str) :
  occurs needle s -> occurs needle (s ++ b).
Proof.
  intros (before & after & ->). exists before, (after ++ b).
  now rewrite <- !app_assoc.
Qed.

Lemma rfind_from_app (sub t x : str) (i j : nat) :
  rfind_from sub (i + length t) x = Some j ->
  rfind_from sub i (t ++ x) = Some j.
Proof.
  revert i; induction t as [|c t IH]; intros i; simpl.
  - now rewrite Nat.add_0_r.
  - intros H. rewrite (IH (S i)); [reflexivity|].
    now replace (S i + length t) with (i + S (length t)) by lia.
Qed.

Lemma ends_with_split (p s : str) :
  ends_with p s = true -> exists t, s = t ++ p.
Proof.
  unfold ends_with. intros H. apply starts_with_split in H.
  exists (rev (skipn (length (rev p)) (rev s))).
  rewrite <- (rev_involutive s) at 1. rewrite H at 1.
  now rewrite rev_app_distr, rev_involutive.
Qed.

(** ** The matcher on a pattern that begins with literal text *)

Lemma rmatch_lit (R : Type) (l s : str) (cs : captures)
      (k : str -> captures -> option R) :
  rmatch (lit l) s cs k
  = if starts_with l s then k (skipn (length l) s) cs else None.
Proof.
  revert s; induction l as [|c l IH]; intros s; simpl; [reflexivity|].
  destruct s as [|x s]; [reflexivity|].
  rewrite (ascii_eqb_sym c x). destruct (Ascii.eqb x c); simpl; [|reflexivity].
  apply IH.
Qed.

Lemma rmatch_lit_cat (R : Type) (l : str) (r : regex) (s : str)
      (cs : captures) (k : str -> captures -> option R) :
  rmatch (Cat (lit l) r) s cs k
  = if starts_with l s then rmatch r (skipn (length l) s) cs k else None.
Proof. cbn [rmatch]. apply rmatch_lit. Qed.

Lemma search_from_lit_absent (l : str) (r : regex) (i pos : nat) (s : str) :
  find_from l i s = None -> search_from (Cat (lit l) r) pos s = None.
Proof.
  revert i pos; induction s as [|y s IH]; intros i pos H;
    cbn [search_from]; rewrite rmatch_lit_cat; simpl in H.
  - destruct (starts_with l []); [discriminate | reflexivity].
  - destruct (starts_with l (y :: s)); [discriminate|]. eapply IH, H.
Qed.

Lemma finditer_lit_absent (l : str) (r : regex) (s : str) :
  contains l s = false -> finditer (Cat (lit l) r) s = [].
Proof.
  unfold contains, finditer, find. intros H.
  destruct (find_from l 0 s) eqn:Hf; [discriminate|].
  cbn [finditer_from]. now rewrite (@search_from_lit_absent l r 0 0 s Hf).
Qed.

Lemma sub_empty_lit_absent (l : str) (r : regex) (s : str) :
  contains l s = false -> sub_empty (Cat (lit l) r) s = s.
Proof.
  intros H. unfold sub_empty. now rewrite finditer_lit_absent.
Qed.

Lemma contains_false_prefix (a b s : str) :
  contains a s = false -> contains (a ++ b) s = false.
Proof.
  unfold contains, find. intros H.
  destruct (find_from a 0 s) eqn:Hf; [discriminate|].
  now rewrite (@find_from_none_prefix a b 0 s Hf).
Qed.

(** ** The interface extractor *)



(** C3.  On a description that declares the unranged input [clk] before
    the ranged input [data], [extract_dut_ports] lists [data] first: the
    matches are gathered pattern by pattern, the ranged pattern before the
    plain one.  The port detection of the dashboard, on the same text, keeps
    the order of the declarations.  A description whose ports carry no
    storage class yields no port at all, where the dashboard finds them. *)
Theorem C3_extraction_order_evaluated :
  inputs (extract_dut_ports (Some unranged_first_dut))
  = [(txt "data", txt "[7:0]"); (txt "clk", [])]
  /\ Dashboard.detect_inputs unranged_first_dut = [txt "clk"; txt "data"]
  /\ inputs (extract_dut_ports (Some bare_ports_dut)) = []
  /\ outputs (extract_dut_ports (Some bare_ports_dut)) = []
  /\ Dashboard.detect_inputs bare_ports_dut = [txt "clk"; txt "d"]
  /\ Dashboard.detect_outputs bare_ports_dut = [txt "q"]
  /\ (forall content : str,
         inputs (extract_dut_ports (Some content))
         = map (port_of_match (ranged_pattern (txt "input") (txt "wire")))
               (finditer (ranged_pattern (txt "input") (txt "wire")) content)
           ++ map (port_of_match (plain_pattern (txt "input") (txt "wire")))
                  (finditer (plain_pattern (txt "input") (txt "wire")) content)
           ++ map (port_of_match (ranged_pattern (txt "input") (txt "reg")))
                  (finditer (ranged_pattern (txt "input") (txt "reg")) content)
           ++ map (port_of_match (plain_pattern (txt "input") (txt "reg")))
                  (finditer (plain_pattern (txt "input") (txt "reg"))
                            content)).
Proof.
  repeat split; try (vm_compute; reflexivity).
  intros content. cbn [extract_dut_ports inputs]. unfold scan, input_patterns.
  cbn [flat_map]. now rewrite app_nil_r.
Qed.




(** ** The matcher on a repeated character class *)

Lemma rmatch_rep_nil (R : Type) (g : bool) (r : regex) (cs : captures)
      (k : str -> captures -> option R) :
  rmatch (Rep g r) [] cs k = k [] cs.
Proof. reflexivity. Qed.

Lemma rmatch_rep_cls_cons (R : Type) (p : ascii -> bool) (x : ascii)
      (s : str) (cs : captures) (k : str -> captures -> option R) :
  rmatch (Rep true (Cls p)) (x :: s) cs k
  = orelse (if p x then rmatch (Rep true (Cls p)) s cs k else None)
           (fun _ => k (x :: s) cs).
Proof.
  cbn [rmatch length]. destruct (p x); [|reflexivity].
  assert (H : (length s <? S (length s)) = true) by (apply Nat.ltb_lt; lia).
  rewrite H. reflexivity.
Qed.

(** A greedy repetition of a class takes the whole run of characters of
    the class when the continuation accepts what follows the run. *)
Lemma rmatch_rep_cls_run (R : Type) (p : ascii -> bool) (w rest : str)
      (cs : captures) (k : str -> captures -> option R) (v : R) :
  forallb p w = true ->
  match rest with c :: _ => p c = false | [] => True end ->
  k rest cs = Some v ->
  rmatch (Rep true (Cls p)) (w ++ rest) cs k = Some v.
Proof.
  intros Hw Hrest Hk. induction w as [|x w IH].
  - cbn [app]. destruct rest as [|c rest]; [exact Hk|].
    rewrite rmatch_rep_cls_cons, Hrest. exact Hk.
  - simpl in Hw. apply andb_true_iff in Hw as [Hx Hw].
    cbn [app]. rewrite rmatch_rep_cls_cons, Hx, (IH Hw). reflexivity.
Qed.

Lemma rmatch_plus_cls_run (R : Type) (p : ascii -> bool) (w rest : str)
      (cs : captures) (k : str -> captures -> option R) (v : R) :
  w <> [] ->
  forallb p w = true ->
  match rest with c :: _ => p c = false | [] => True end ->
  k rest cs = Some v ->
  rmatch (Plus (Cls p)) (w ++ rest) cs k = Some v.
Proof.
  intros Hne Hw Hrest Hk. destruct w as [|x w]; [congruence|].
  simpl in Hw. apply andb_true_iff in Hw as [Hx Hw].
  unfold Plus. cbn [rmatch app]. rewrite Hx.
  now apply rmatch_rep_cls_run.
Qed.

(** A quoted name after literal text: [<l>(\w+)'] matches at the head of
    [l ++ name ++ "'" ++ rest] and captures the name. *)
Lemma rmatch_quoted_name (l name rest : str) :
  name <> [] ->
  forallb is_word name = true ->
  rmatch (seq [lit l; Grp 1 word; Chr "'"]) (l ++ name ++ txt "'" ++ rest) []
         (fun s cs => Some (s, cs))
  = Some (rest, [(1, name)]).
Proof.
  intros Hne Hw. cbn [seq fold_right]. rewrite rmatch_lit_cat.
  rewrite starts_with_app, skipn_app, skipn_all, Nat.sub_diag. cbn [skipn app].
  cbn [rmatch]. unfold word. apply rmatch_plus_cls_run; try assumption.
  - reflexivity.
  - rewrite length_app.
    replace (length name + length (txt "'" ++ rest)
             - length (txt "'" ++ rest)) with (length name) by lia.
    rewrite firstn_app, firstn_all, Nat.sub_diag. cbn [firstn].
    rewrite app_nil_r. reflexivity.
Qed.

Lemma search_from_found_later (r : regex) (pre s : str) (pos : nat) :
  search_from r (pos + length pre) s <> None ->
  search_from r pos (pre ++ s) <> None.
Proof.
  revert pos; induction pre as [|c pre IH]; intros pos; simpl.
  - now rewrite Nat.add_0_r.
  - intros H.
    destruct (rmatch r (c :: pre ++ s) [] (fun rest cs => Some (rest, cs)))
      as [[rest cs]|]; [discriminate|].
    apply IH. now replace (S pos + length pre) with (pos + S (length pre))
      by lia.
Qed.

Lemma search_from_here (r : regex) (s rest : str) (cs : captures) (pos : nat) :
  rmatch r s [] (fun rest cs => Some (rest, cs)) = Some (rest, cs) ->
  search_from r pos s = Some (MkMatch pos (pos + (length s - length rest)) cs).
Proof. intros H. destruct s; simpl; now rewrite H. Qed.

(** The search for a pattern that begins with the literal [l] starts
    matching at the first occurrence of [l]. *)
Lemma search_from_first_lit (l : str) (r : regex) (s : str) :
  forall i pos j,
    find_from l i s = Some j ->
    i <= j
    /\ starts_with l (skipn (j - i) s) = true
    /\ search_from (Cat (lit l) r) pos s
       = search_from (Cat (lit l) r) (pos + (j - i)) (skipn (j - i) s).
Proof.
  induction s as [|y s IH]; intros i pos j; simpl find_from.
  - destruct (starts_with l []) eqn:H; [|discriminate].
    intros Hj. injection Hj as <-. rewrite Nat.sub_diag, Nat.add_0_r.
    auto.
  - destruct (starts_with l (y :: s)) eqn:H.
    + intros Hj. injection Hj as <-. rewrite Nat.sub_diag, Nat.add_0_r.
      auto.
    + intros Hj. destruct (IH (S i) (S pos) j Hj) as (Hle & Hst & Hse).
      split; [lia|].
      replace (j - i) with (S (j - S i)) by lia. cbn [skipn].
      split; [exact Hst|].
      cbn [search_from]. rewrite rmatch_lit_cat, H. rewrite Hse.
      f_equal. lia.
Qed.

(** ** Diagnostics and feedback *)

Lemma search_quoted_name (l pre name post : str) :
  name <> [] ->
  forallb is_word name = true ->
  search (seq [lit l; Grp 1 word; Chr "'"])
         (pre ++ l ++ name ++ txt "'" ++ post) <> None.
Proof.
  intros Hne Hw. unfold search. apply search_from_found_later.
  erewrite search_from_here; [discriminate|].
  now apply rmatch_quoted_name.
Qed.

Lemma parse_pinmissing_found (error_text line pre name post : str) :
  In line (split_lines error_text) ->
  line = pre ++ txt "missing pin: '" ++ name ++ txt "'" ++ post ->
  name <> [] ->
  forallb is_word name = true ->
  parse_pinmissing_error error_text <> [].
Proof.
  intros Hin -> Hne Hw. unfold parse_pinmissing_error.
  induction (split_lines error_text) as [|l ls IH]; [destruct Hin|].
  cbn [flat_map]. destruct Hin as [-> | Hin].
  - unfold missing_pin_re.
    destruct (search _ _) eqn:Hs; [discriminate|].
    now apply search_quoted_name in Hs.
  - intros H. apply app_eq_nil in H as [_ H]. now apply IH.
Qed.

(** The port a width diagnostic names: the quoted name after the first
    occurrence of [port '] *)
Lemma parse_width_error_port (error_text name : str) (n : nat) :
  find (txt "port '") error_text = Some n ->
  starts_with (txt "port '" ++ name ++ txt "'") (skipn n error_text) = true ->
  name <> [] ->
  forallb is_word name = true ->
  wi_port (parse_width_error error_text) = Some name.
Proof.
  intros Hfind Hstart Hne Hw.
  assert (Hs : search port_re error_text
               = Some (MkMatch n
                         (n + (length (skipn n error_text)
                               - length (skipn (length (txt "port '" ++ name
                                                        ++ txt "'"))
                                               (skipn n error_text))))
                         [(1, name)])).
  { unfold search, port_re. cbn [seq fold_right].
    destruct (@search_from_first_lit (txt "port '")
                (Cat (Grp 1 word) (Cat (Chr "'") Eps)) error_text 0 0 n Hfind)
      as (_ & _ & ->).
    rewrite Nat.sub_0_r. cbn [Nat.add].
    apply search_from_here.
    apply starts_with_split in Hstart. rewrite Hstart at 1.
    rewrite <- !app_assoc.
    exact (@rmatch_quoted_name (txt "port '") name _ Hne Hw). }
  unfold parse_width_error. rewrite Hs.
  destruct (search bits_re error_text); reflexivity.
Qed.

Lemma lookup_width_unique (name width : str) (ps : list port) :
  In (name, width) ps ->
  NoDup (map fst ps) ->
  lookup_width name ps = width.
Proof.
  induction ps as [|[n0 w0] ps IH]; [intros []|].
  intros Hin Hnd. cbn [lookup_width]. cbn [map fst] in Hnd.
  apply NoDup_cons_iff in Hnd as [Hnot Hnd].
  destruct Hin as [H | H].
  - injection H as -> ->. now rewrite str_eqb_refl.
  - destruct (str_eqb n0 name) eqn:He.
    + apply str_eqb_eq in He. subst n0. exfalso. apply Hnot.
      now apply (in_map fst) in H.
    + now apply IH.
Qed.

Lemma occurs_join (needle sep block : str) (blocks : list str) :
  In block blocks -> occurs needle block -> occurs needle (join sep blocks).
Proof.
  intros Hin Hocc. induction blocks as [|b bs IH]; [destruct Hin|].
  cbn [join]. destruct Hin as [-> | Hin].
  - destruct bs; [assumption | now apply occurs_app_l].
  - destruct bs as [|b' bs']; [destruct Hin|].
    apply occurs_app_r, occurs_app_r. now apply IH.
Qed.

Lemma pinmissing_block_heading (a b c : str) :
  occurs missing_connection_heading (filled_pinmissing a b c).
Proof.
  unfold filled_pinmissing. apply occurs_app_l, contains_occurs.
  vm_compute. reflexivity.
Qed.

Lemma widthtrunc_block_heading (a b c d : str) :
  occurs width_mismatch_heading (filled_widthtrunc a b c d).
Proof.
  unfold filled_widthtrunc. apply occurs_app_l, contains_occurs.
  vm_compute. reflexivity.
Qed.

Lemma widthtrunc_template_heading :
  occurs width_mismatch_heading (template_of (txt "WIDTHTRUNC")).
Proof. apply contains_occurs. vm_compute. reflexivity. Qed.

Lemma widthtrunc_block_declaration (a b c : str) :
  occurs data_declaration_line
         (filled_widthtrunc a b c (txt "reg [7:0] data;")).
Proof.
  unfold filled_widthtrunc. do 6 apply occurs_app_r.
  apply contains_occurs. vm_compute. reflexivity.
Qed.

(** The list of fixes, block by block *)
Lemma collect_fixes_blocks (error_summary : str) (p : ports) :
  exists pin wid mod_,
    collect_fixes error_summary p
    = Ok (syntax_fixes error_summary (pin ++ wid ++ mod_))
    /\ pinmissing_fixes error_summary p [] = Ok pin
    /\ (forall fixes, width_fixes error_summary p fixes = Ok (fixes ++ wid))
    /\ (forall fixes, module_fixes error_summary p fixes = Ok (fixes ++ mod_)).
Proof.
  assert (Hp : exists pin, pinmissing_fixes error_summary p [] = Ok pin).
  { unfold pinmissing_fixes.
    destruct (contains (txt "PINMISSING") error_summary);
      [|eexists; reflexivity].
    destruct (parse_pinmissing_error error_summary);
      [eexists; reflexivity|].
    rewrite get_fix_pinmissing. eexists; reflexivity. }
  assert (Hw : exists wid, forall fixes,
               width_fixes error_summary p fixes = Ok (fixes ++ wid)).
  { unfold width_fixes.
    destruct (contains (txt "WIDTHTRUNC") error_summary
              || contains (txt "WIDTHEXPAND") error_summary);
      [|exists []; intros; now rewrite app_nil_r].
    destruct (wi_port (parse_width_error error_summary));
      [|eexists; intros; reflexivity].
    rewrite get_fix_widthtrunc. eexists; intros; reflexivity. }
  assert (Hm : exists mod_, forall fixes,
               module_fixes error_summary p fixes = Ok (fixes ++ mod_)).
  { unfold module_fixes.
    destruct (contains (txt "Cannot find") error_summary
              && contains (txt "module") (lower error_summary));
      [|exists []; intros; now rewrite app_nil_r].
    rewrite get_fix_module_not_found. eexists; intros; reflexivity. }
  destruct Hp as [pin Hp], Hw as [wid Hw], Hm as [mod_ Hm].
  exists pin, wid, mod_. repeat split; try assumption.
  unfold collect_fixes. rewrite Hp. cbn [bind]. rewrite Hw. cbn [bind].
  rewrite Hm. cbn [bind]. now rewrite <- app_assoc.
Qed.

Lemma syntax_fixes_nonempty (error_summary : str) (fixes : list str) :
  fixes <> [] -> syntax_fixes error_summary fixes = fixes.
Proof. destruct fixes; [congruence | reflexivity]. Qed.

Lemma prompt_of_fixes (error_summary : str) (p : ports) (fixes : list str) :
  collect_fixes error_summary p = Ok fixes ->
  fixes <> [] ->
  generate_targeted_error_prompt error_summary p
  = Ok (join [nl; nl] fixes).
Proof.
  intros H Hne. unfold generate_targeted_error_prompt. rewrite H. cbn [bind].
  destruct fixes; [congruence | reflexivity].
Qed.

(** C8.  A diagnostic that carries the marker [PINMISSING], has a line with
    a quoted missing pin name, and carries the marker [WIDTHTRUNC] or
    [WIDTHEXPAND], gets both a missing-connection block and a
    width-mismatch block: they are the first two fixes, and the text handed
    back contains the heading of each. *)
Theorem C8_both_kinds_are_reported :
  forall (error_summary : str) (p : ports) (line pre name post : str),
    contains (txt "PINMISSING") error_summary = true ->
    In line (split_lines error_summary) ->
    line = pre ++ txt "missing pin: '" ++ name ++ txt "'" ++ post ->
    name <> [] ->
    forallb is_word name = true ->
    contains (txt "WIDTHTRUNC") error_summary
    || contains (txt "WIDTHEXPAND") error_summary = true ->
    exists pin_block width_block more,
      collect_fixes error_summary p = Ok (pin_block :: width_block :: more)
      /\ generate_targeted_error_prompt error_summary p
         = Ok (join [nl; nl] (pin_block :: width_block :: more))
      /\ occurs missing_connection_heading pin_block
      /\ occurs width_mismatch_heading width_block
      /\ occurs missing_connection_heading
                (join [nl; nl] (pin_block :: width_block :: more))
      /\ occurs width_mismatch_heading
                (join [nl; nl] (pin_block :: width_block :: more)).
Proof.
  intros error_summary p line pre name post Hpin Hline Hshape Hne Hword Hwid.
  pose proof (@parse_pinmissing_found error_summary line pre name post
                Hline Hshape Hne Hword) as Hfound.
  destruct (collect_fixes_blocks error_summary p)
    as (pin & wid & mod_ & Hall & Hp & Hw & _).
  assert (Hpb : exists a b c, pin = [filled_pinmissing a b c]).
  { unfold pinmissing_fixes in Hp. rewrite Hpin in Hp.
    destruct (parse_pinmissing_error error_summary) as [|m ms];
      [congruence|].
    rewrite get_fix_pinmissing in Hp. cbn [bind app] in Hp.
    injection Hp as <-. eexists. eexists. eexists. reflexivity. }
  assert (Hwb : exists w, wid = [w] /\ occurs width_mismatch_heading w).
  { specialize (Hw []). unfold width_fixes in Hw. rewrite Hwid in Hw.
    destruct (wi_port (parse_width_error error_summary)).
    - rewrite get_fix_widthtrunc in Hw. cbn [bind app] in Hw.
      injection Hw as <-. eexists. split; [reflexivity|].
      apply widthtrunc_block_heading.
    - cbn [app] in Hw. injection Hw as <-. eexists. split; [reflexivity|].
      apply widthtrunc_template_heading. }
  destruct Hpb as (a & b & c & ->). destruct Hwb as (w & -> & Hwh).
  cbn [app] in Hall. rewrite syntax_fixes_nonempty in Hall by discriminate.
  exists (filled_pinmissing a b c), w, mod_.
  split; [exact Hall|].
  split; [apply prompt_of_fixes; [exact Hall | discriminate]|].
  split; [apply pinmissing_block_heading|].
  split; [exact Hwh|].
  split.
  - eapply occurs_join; [left; reflexivity | apply pinmissing_block_heading].
  - eapply occurs_join; [right; left; reflexivity | exact Hwh].
Qed.

(** The sample diagnostic against the scenario interface *)
Lemma C8_both_kinds_are_reported_witness :
  exists pin_block width_block more,
    generate_targeted_error_prompt sample_diagnostic
      (extract_dut_ports (Some scenario_dut))
    = Ok (join [nl; nl] (pin_block :: width_block :: more))
    /\ occurs missing_connection_heading pin_block
    /\ occurs width_mismatch_heading width_block.
Proof.
  destruct (@C8_both_kinds_are_reported sample_diagnostic
              (extract_dut_ports (Some scenario_dut))
              (txt "%Error-PINMISSING: tb.sv:5: Cell has missing pin: 'rst'")
              (txt "%Error-PINMISSING: tb.sv:5: Cell has ")
              (txt "rst") [])
    as (pin_block & width_block & more & _ & Hprompt & Hp & Hw & _).
  - reflexivity.
  - left. reflexivity.
  - reflexivity.
  - discriminate.
  - reflexivity.
  - reflexivity.
  - exists pin_block, width_block, more. auto.
Defined.

(** C9.  Let the descriptor hold the port [data] with the range [[7:0]]
    (port names being unique), and let the diagnostic carry a width marker
    and name the port [data] - the first [port '...'] it shows is
    [port 'data'].  Then the width fix is the filled template whose
    declaration is [reg [7:0] data;], whatever the bit counts in the
    diagnostic: they fill only the two lines of context.  The text handed
    back contains that declaration line. *)
Theorem C9_declaration_from_descriptor :
  forall (error_summary : str) (p : ports) (n : nat),
    contains (txt "WIDTHTRUNC") error_summary
    || contains (txt "WIDTHEXPAND") error_summary = true ->
    find (txt "port '") error_summary = Some n ->
    starts_with (txt "port 'data'") (skipn n error_summary) = true ->
    In (txt "data", txt "[7:0]") (inputs p ++ outputs p) ->
    NoDup (map fst (inputs p ++ outputs p)) ->
    exists fixes prompt_,
      collect_fixes error_summary p = Ok fixes
      /\ In (filled_widthtrunc
               (txt "data")
               (or_default (wi_expected_width (parse_width_error error_summary))
                           (txt "N bits"))
               (or_default (wi_actual_width (parse_width_error error_summary))
                           (txt "M bits"))
               (txt "reg [7:0] data;"))
            fixes
      /\ generate_targeted_error_prompt error_summary p = Ok prompt_
      /\ occurs data_declaration_line prompt_.
Proof.
  intros error_summary p n Hwid Hfind Hstart Hin Hnd.
  assert (Hport : wi_port (parse_width_error error_summary)
                  = Some (txt "data")).
  { apply (@parse_width_error_port error_summary (txt "data") n Hfind Hstart);
      [discriminate | reflexivity]. }
  destruct (collect_fixes_blocks error_summary p)
    as (pin & wid & mod_ & Hall & _ & Hw & _).
  specialize (Hw []). unfold width_fixes in Hw.
  rewrite Hwid, Hport,
    (@lookup_width_unique (txt "data") (txt "[7:0]") _ Hin Hnd) in Hw.
  change (correct_declaration_for (txt "data") (txt "[7:0]"))
    with (txt "reg [7:0] data;") in Hw.
  rewrite get_fix_widthtrunc in Hw. cbn [bind app] in Hw. injection Hw as <-.
  rewrite syntax_fixes_nonempty in Hall
    by (intros H; apply app_eq_nil in H as [_ H]; discriminate).
  eexists. eexists. split; [exact Hall|].
  set (block := filled_widthtrunc
               (txt "data")
               (or_default (wi_expected_width (parse_width_error error_summary))
                           (txt "N bits"))
               (or_default (wi_actual_width (parse_width_error error_summary))
                           (txt "M bits"))
               (txt "reg [7:0] data;")) in *.
  assert (Hblock : In block (pin ++ [block] ++ mod_)).
  { apply in_or_app. right. left. reflexivity. }
  split; [exact Hblock|].
  split.
  - apply prompt_of_fixes; [exact Hall|].
    intros H; apply app_eq_nil in H as [_ H]; discriminate.
  - eapply occurs_join; [exact Hblock | apply widthtrunc_block_declaration].
Qed.

(** The sample diagnostic reports 8 and 4 bits for [data]; the declaration
    still reads [[7:0]]. *)
Lemma C9_declaration_from_descriptor_witness :
  exists fixes prompt_,
    collect_fixes sample_diagnostic (extract_dut_ports (Some scenario_dut))
    = Ok fixes
    /\ In (filled_widthtrunc (txt "data") (txt "8") (txt "4")
                             (txt "reg [7:0] data;")) fixes
    /\ generate_targeted_error_prompt sample_diagnostic
         (extract_dut_ports (Some scenario_dut)) = Ok prompt_
    /\ occurs data_declaration_line prompt_.
Proof.
  apply (@C9_declaration_from_descriptor sample_diagnostic
           (extract_dut_ports (Some scenario_dut)) 86).
  - reflexivity.
  - vm_compute. reflexivity.
  - vm_compute. reflexivity.
  - vm_compute. left. reflexivity.
  - vm_compute. repeat constructor; simpl; intuition discriminate.
Defined.

(** ** The sanitizer *)

Lemma strip_fences_clean (t : str) :
  contains (txt "```") t = false -> strip_fences t = t.
Proof.
  intros H. unfold strip_fences, fence.
  rewrite (@sub_empty_lit_absent (txt "```" ++ txt "verilog") _ t)
    by now apply contains_false_prefix.
  rewrite (@sub_empty_lit_absent (txt "```" ++ txt "systemverilog") _ t)
    by now apply contains_false_prefix.
  rewrite (@sub_empty_lit_absent (txt "```" ++ []) _ t)
    by now apply contains_false_prefix.
  reflexivity.
Qed.

Lemma rfind_endmodule_here (i : nat) :
  rfind_from (txt "endmodule") i (txt "endmodule") = Some i.
Proof. vm_compute. reflexivity. Qed.

Lemma rfind_endmodule_newline (i : nat) :
  rfind_from (txt "endmodule") i (txt "endmodule" ++ [nl]) = Some i.
Proof. vm_compute. reflexivity. Qed.

Lemma ends_with_newline_app (t : str) (c : ascii) :
  ends_with [nl] (t ++ [c]) = Ascii.eqb nl c.
Proof.
  unfold ends_with. rewrite rev_app_distr. cbn [rev app starts_with].
  apply andb_true_r.
Qed.

(** Clean module text comes back unchanged but for the newline at its end:
    a text without fence that begins with [module] and ends with
    [endmodule] gets the newline appended ... *)
Lemma sanitize_clean_text (t : str) :
  contains (txt "```") t = false ->
  starts_with (txt "module") t = true ->
  ends_with (txt "endmodule") t = true ->
  sanitize_verilog_code t = Ok (t ++ [nl]).
Proof.
  intros Hf Hs He. unfold sanitize_verilog_code.
  rewrite (strip_fences_clean _ Hf).
  unfold find. rewrite (find_from_start _ 0 _ Hs).
  apply ends_with_split in He as [t0 ->].
  unfold rfind.
  rewrite (@rfind_from_app (txt "endmodule") t0 (txt "endmodule") 0
             (length t0) (rfind_endmodule_here _)).
  unfold slice. rewrite Nat.sub_0_r. cbn [skipn].
  replace (length t0 + length (txt "endmodule"))
    with (length (t0 ++ txt "endmodule")) by (now rewrite length_app).
  rewrite firstn_all.
  change (txt "endmodule") with (txt "endmodul" ++ [ascii_of_nat 101]) at 1.
  rewrite app_assoc, ends_with_newline_app. reflexivity.
Qed.

(** ... and one that already ends with [endmodule] and a newline comes back
    as it is. *)
Lemma sanitize_clean_text_newline (t : str) :
  contains (txt "```") (t ++ [nl]) = false ->
  starts_with (txt "module") t = true ->
  ends_with (txt "endmodule") t = true ->
  sanitize_verilog_code (t ++ [nl]) = Ok (t ++ [nl]).
Proof.
  intros Hf Hs He. unfold sanitize_verilog_code.
  rewrite (strip_fences_clean _ Hf).
  assert (Hs' : starts_with (txt "module") (t ++ [nl]) = true).
  { apply starts_with_split in Hs. rewrite Hs, <- app_assoc.
    apply starts_with_app. }
  unfold find. rewrite (find_from_start _ 0 _ Hs').
  apply ends_with_split in He as [t0 ->].
  unfold rfind. rewrite <- app_assoc.
  rewrite (@rfind_from_app (txt "endmodule") t0 (txt "endmodule" ++ [nl]) 0
             (length t0) (rfind_endmodule_newline _)).
  unfold slice. rewrite Nat.sub_0_r. cbn [skipn].
  replace (length t0 + length (txt "endmodule"))
    with (length (t0 ++ txt "endmodule")) by (now rewrite length_app).
  rewrite app_assoc, firstn_app, firstn_all, Nat.sub_diag. cbn [firstn].
  rewrite app_nil_r.
  change (txt "endmodule") with (txt "endmodul" ++ [ascii_of_nat 101]) at 1.
  rewrite app_assoc, ends_with_newline_app. reflexivity.
Qed.


(** ** The sanitizer applied twice *)

Lemma starts_with_length (p s : str) :
  starts_with p s = true -> length p <= length s.
Proof.
  intros H. apply starts_with_split in H.
  rewrite H, length_app. lia.
Qed.

Lemma starts_with_firstn (p s : str) (m : nat) :
  starts_with p (firstn m s) = true -> starts_with p s = true.
Proof.
  intros H. apply starts_with_split in H.
  rewrite <- (firstn_skipn m s), H, <- app_assoc. apply starts_with_app.
Qed.

(** [find] returns the first position at which the text occurs. *)
Lemma find_from_spec (sub : str) (s : str) :
  forall i j,
    find_from sub i s = Some j ->
    i <= j
    /\ starts_with sub (skipn (j - i) s) = true
    /\ forall m, m < j - i -> starts_with sub (skipn m s) = false.
Proof.
  induction s as [|y s IH]; intros i j; simpl find_from.
  - destruct (starts_with sub []) eqn:H; [|discriminate].
    intros Hj. injection Hj as <-. rewrite Nat.sub_diag.
    repeat split; [lia | exact H | intros m Hm; lia].
  - destruct (starts_with sub (y :: s)) eqn:H.
    + intros Hj. injection Hj as <-. rewrite Nat.sub_diag.
      repeat split; [lia | exact H | intros m Hm; lia].
    + intros Hj. destruct (IH (S i) j Hj) as (Hle & Hst & Hmin).
      replace (j - i) with (S (j - S i)) by lia.
      repeat split; [lia | exact Hst |].
      intros [|m] Hm; [exact H|]. cbn [skipn]. apply Hmin. lia.
Qed.

Lemma find_from_none_spec (sub : str) (s : str) (i : nat) :
  find_from sub i s = None <->
  forall m, m <= length s -> starts_with sub (skipn m s) = false.
Proof.
  revert i; induction s as [|y s IH]; intros i; simpl find_from.
  - destruct (starts_with sub []) eqn:H; split; try discriminate.
    + intros Hall. specialize (Hall 0 (Nat.le_refl _)). simpl in Hall.
      congruence.
    + intros _ m Hm. destruct m; simpl; exact H.
    + reflexivity.
  - destruct (starts_with sub (y :: s)) eqn:H; split; try discriminate.
    + intros Hall. specialize (Hall 0 (Nat.le_0_l _)). simpl in Hall.
      congruence.
    + intros Hn [|m] Hm; [exact H|]. cbn [skipn].
      apply (proj1 (IH (S i)) Hn). simpl in Hm. lia.
    + intros Hall. apply (IH (S i)). intros m Hm.
      apply (Hall (S m)). simpl. lia.
Qed.

Lemma contains_false_spec (sub s : str) :
  contains sub s = false <->
  forall m, m <= length s -> starts_with sub (skipn m s) = false.
Proof.
  unfold contains, find. rewrite <- (find_from_none_spec sub s 0).
  destruct (find_from sub 0 s); split; congruence.
Qed.

Lemma occurs_contains (sub s : str) : occurs sub s -> contains sub s = true.
Proof.
  intros (before & after & ->).
  destruct (contains sub (before ++ sub ++ after)) eqn:H; [reflexivity|].
  apply contains_false_spec with (m := length before) in H.
  - rewrite skipn_app, skipn_all, Nat.sub_diag in H. cbn [skipn app] in H.
    now rewrite starts_with_app in H.
  - rewrite length_app. lia.
Qed.

Lemma contains_part (sub a s b : str) :
  contains sub (a ++ s ++ b) = false -> contains sub s = false.
Proof.
  intros H. destruct (contains sub s) eqn:Hs; [|reflexivity].
  apply contains_occurs in Hs.
  apply (@occurs_app_l sub s b) in Hs. apply (@occurs_app_r sub a) in Hs.
  apply occurs_contains in Hs. congruence.
Qed.

(** A text made of one part that shows no fence at any of its positions,
    even with the other part behind it, and another part without fence,
    has no fence. *)
Lemma contains_false_app (sub p t : str) :
  (forall m, m < length p -> starts_with sub (skipn m (p ++ t)) = false) ->
  contains sub t = false ->
  contains sub (p ++ t) = false.
Proof.
  intros Hp Ht. apply contains_false_spec. intros m Hm.
  destruct (Nat.lt_ge_cases m (length p)) as [Hlt | Hge]; [now apply Hp|].
  rewrite skipn_app, skipn_all2 by exact Hge. cbn [app].
  apply (proj1 (contains_false_spec sub t) Ht).
  rewrite length_app in Hm. lia.
Qed.

(** Backticks before a fence make a fence that starts earlier. *)
Lemma fence_starts_earlier (q t r : str) :
  q <> [] ->
  starts_with (txt "```") (q ++ t) = true ->
  starts_with (txt "```") (q ++ txt "```" ++ r) = true.
Proof.
  intros Hq H. change (txt "```") with ["`"; "`"; "`"]%char in *.
  destruct q as [|a [|b [|c q]]]; [congruence| | |];
    cbn [starts_with app] in *.
  - apply andb_true_iff in H as [Ha _]. apply Ascii.eqb_eq in Ha. subst a.
    reflexivity.
  - apply andb_true_iff in H as [Ha H]. apply andb_true_iff in H as [Hb _].
    apply Ascii.eqb_eq in Ha, Hb. subst a b. reflexivity.
  - exact H.
Qed.

Lemma drop_newline_length (s : str) : length (drop_newline s) <= length s.
Proof.
  destruct s as [|c s]; [apply Nat.le_refl|]. simpl.
  destruct (Ascii.eqb c nl); simpl; lia.
Qed.

(** After the removal of the plain fences no fence is left. *)
Lemma strip_plain_no_fence (fuel : nat) :
  forall s, length s < fuel -> contains (txt "```") (strip_plain fuel s) = false.
Proof.
  induction fuel as [|f IH]; intros s Hlen; [lia|].
  cbn [strip_plain]. destruct (find (txt "```") s) as [n|] eqn:Hfind.
  - unfold find in Hfind.
    destruct (find_from_spec _ _ _ Hfind) as (_ & Hst & Hmin).
    rewrite Nat.sub_0_r in Hst, Hmin.
    pose proof (starts_with_length _ _ Hst) as Hl.
    rewrite length_skipn in Hl. change (length (txt "```")) with 3 in Hl.
    apply contains_false_app.
    + intros m Hm. rewrite length_firstn in Hm.
      destruct (starts_with (txt "```")
                  (skipn m (firstn n s
                            ++ strip_plain f (drop_newline (skipn (n + 3) s)))))
        eqn:Hs; [|reflexivity].
      rewrite skipn_app in Hs.
      replace (m - length (firstn n s)) with 0 in Hs
        by (rewrite length_firstn; lia).
      cbn [skipn] in Hs.
      apply starts_with_split in Hst.
      assert (Hq : skipn m (firstn n s) <> []).
      { intros He. apply (f_equal (@length ascii)) in He.
        rewrite length_skipn, length_firstn in He. simpl in He. lia. }
      pose proof (@fence_starts_earlier _ _
                    (skipn (length (txt "```")) (skipn n s)) Hq Hs) as Hearly.
      rewrite <- Hst in Hearly.
      assert (Hm' : skipn m s = skipn m (firstn n s) ++ skipn n s).
      { rewrite <- (firstn_skipn n s) at 1. rewrite skipn_app.
        replace (m - length (firstn n s)) with 0
          by (rewrite length_firstn; lia).
        reflexivity. }
      rewrite <- Hm', (Hmin m) in Hearly by lia. discriminate.
    + apply IH. pose proof (drop_newline_length (skipn (n + 3) s)) as Hd.
      rewrite length_skipn in Hd. lia.
  - unfold contains. now rewrite Hfind.
Qed.

Lemma drop_newline_suffix (s : str) :
  exists x, s = x ++ drop_newline s /\ length x <= 1.
Proof.
  destruct s as [|c s]; [exists []; auto|]. cbn [drop_newline].
  destruct (Ascii.eqb c nl).
  - exists [c]. auto.
  - exists []. auto.
Qed.

Lemma fence_match (rest : str) :
  rmatch (fence []) (txt "```" ++ rest) [] (fun s cs => Some (s, cs))
  = Some (drop_newline rest, []).
Proof.
  unfold fence. rewrite rmatch_lit_cat, app_nil_r, starts_with_app.
  rewrite skipn_app, skipn_all, Nat.sub_diag. cbn [skipn app rmatch].
  destruct rest as [|c rest]; [reflexivity|]. cbn [drop_newline].
  destruct (Ascii.eqb c nl); reflexivity.
Qed.

(** The first match of [```\n?]: it starts at the first fence and takes the
    fence and the newline behind it, if there is one. *)
Lemma search_fence (s : str) (pos n : nat) :
  find (txt "```") s = Some n ->
  exists d,
    search_from (fence []) pos s = Some (MkMatch (pos + n) (pos + n + d) [])
    /\ 3 <= d
    /\ n + d <= length s
    /\ skipn (n + d) s = drop_newline (skipn (n + 3) s).
Proof.
  intros Hfind. unfold find in Hfind.
  assert (Hfence : fence [] = Cat (lit (txt "```")) (Opt (Chr nl))).
  { unfold fence. now rewrite app_nil_r. }
  destruct (@search_from_first_lit (txt "```") (Opt (Chr nl)) s 0 pos n Hfind)
    as (_ & Hst & Hse).
  rewrite Nat.sub_0_r in Hst, Hse.
  pose proof (starts_with_length _ _ Hst) as Hlen.
  change (length (txt "```")) with 3 in Hlen.
  apply starts_with_split in Hst. change (length (txt "```")) with 3 in Hst.
  rewrite skipn_skipn in Hst.
  destruct (drop_newline_suffix (skipn (3 + n) s)) as (x & Hx & Hxl).
  exists (3 + length x).
  rewrite <- Hfence in Hse. rewrite Hse.
  assert (Hl : length (skipn n s)
               = 3 + length x + length (drop_newline (skipn (3 + n) s))).
  { rewrite Hst at 1. rewrite length_app. change (length (txt "```")) with 3.
    rewrite Hx at 1. rewrite length_app. lia. }
  split.
  - rewrite (@search_from_here (fence []) (skipn n s)
               (drop_newline (skipn (3 + n) s)) [] (pos + n)).
    + do 2 f_equal. lia.
    + rewrite Hst at 1. apply fence_match.
  - split; [lia|]. rewrite length_skipn in Hl. split; [lia|].
    replace (n + 3) with (3 + n) by lia.
    replace (n + (3 + length x)) with (length x + (3 + n)) by lia.
    rewrite <- skipn_skipn. rewrite Hx at 1.
    now rewrite skipn_app, skipn_all, Nat.sub_diag.
Qed.

Lemma remove_fences_plain (fuel : nat) :
  forall pos s,
    remove_spans (finditer_from fuel (fence []) pos s) pos s
    = strip_plain fuel s.
Proof.
  induction fuel as [|f IH]; intros pos s; [reflexivity|].
  cbn [finditer_from strip_plain].
  destruct (find (txt "```") s) as [n|] eqn:Hfind.
  - destruct (search_fence s pos Hfind) as (d & -> & Hd & Hlen & Hskip).
    cbn [m_start m_end].
    replace (pos + n + d =? pos + n) with false
      by (symmetry; apply Nat.eqb_neq; lia).
    replace (pos + n + d - pos) with (n + d) by lia.
    replace (length s <? n + d) with false
      by (symmetry; apply Nat.ltb_ge; lia).
    cbn [remove_spans m_start m_end].
    replace (pos + n - pos) with n by lia.
    replace (pos + n + d - pos) with (n + d) by lia.
    replace (pos + (n + d)) with (pos + n + d) by lia.
    rewrite IH, Hskip. reflexivity.
  - unfold find in Hfind. unfold fence. rewrite app_nil_r.
    now rewrite (@search_from_lit_absent (txt "```") _ 0 pos s Hfind).
Qed.

Lemma strip_fences_no_fence (raw_code : str) :
  contains (txt "```") (strip_fences raw_code) = false.
Proof.
  unfold strip_fences, sub_empty, finditer.
  rewrite remove_fences_plain. apply strip_plain_no_fence. lia.
Qed.

Lemma rfind_from_spec (sub : str) (s : str) :
  forall i j,
    rfind_from sub i s = Some j ->
    i <= j /\ starts_with sub (skipn (j - i) s) = true.
Proof.
  induction s as [|y s IH]; intros i j; cbn [rfind_from].
  - destruct (starts_with sub []) eqn:H; [|discriminate].
    intros Hj. injection Hj as <-. rewrite Nat.sub_diag. auto.
  - destruct (rfind_from sub (S i) s) as [j'|] eqn:Hr.
    + intros Hj. injection Hj as <-. destruct (IH _ _ Hr) as [Hle Hst].
      split; [lia|]. replace (j' - i) with (S (j' - S i)) by lia.
      exact Hst.
    + destruct (starts_with sub (y :: s)) eqn:H; [|discriminate].
      intros Hj. injection Hj as <-. rewrite Nat.sub_diag. auto.
Qed.

Lemma starts_with_app_long (p a b : str) :
  length p <= length a ->
  starts_with p (a ++ b) = true -> starts_with p a = true.
Proof.
  revert a; induction p as [|x p IH]; intros a Hl H; [reflexivity|].
  destruct a as [|y a]; [simpl in Hl; lia|].
  cbn [app starts_with] in *. apply andb_true_iff in H as [Hx H].
  rewrite Hx. cbn [andb]. apply IH; [simpl in Hl; lia | exact H].
Qed.

Lemma ends_with_app (p a : str) : ends_with p (a ++ p) = true.
Proof. unfold ends_with. rewrite rev_app_distr. apply starts_with_app. Qed.

Lemma no_fence_newline (t : str) :
  contains (txt "```") t = false -> contains (txt "```") (t ++ [nl]) = false.
Proof.
  intros H. apply contains_false_app; [|reflexivity].
  intros m Hm. rewrite skipn_app.
  replace (m - length t) with 0 by lia. cbn [skipn].
  pose proof (proj1 (contains_false_spec (txt "```") t) H m
                (Nat.lt_le_incl _ _ Hm)) as Hno.
  change (txt "```") with ["`"; "`"; "`"]%char in *.
  destruct (skipn m t) as [|a [|b [|c q]]]; cbn [app starts_with] in *;
    try reflexivity; try exact Hno; now rewrite !andb_false_r.
Qed.

(** The text between the first [module] and the end of the last
    [endmodule], when the one starts before the other *)
Lemma slice_between (code : str) (start stop : nat) :
  find (txt "module") code = Some start ->
  rfind (txt "endmodule") code = Some stop ->
  start < stop ->
  exists q,
    slice start (stop + length (txt "endmodule")) code
    = q ++ txt "endmodule"
    /\ starts_with (txt "module") (q ++ txt "endmodule") = true
    /\ exists before after, code = before ++ (q ++ txt "endmodule") ++ after.
Proof.
  intros Hf Hr Hlt. unfold find in Hf. unfold rfind in Hr.
  destruct (find_from_spec _ _ _ Hf) as (_ & Hm & _).
  destruct (rfind_from_spec _ _ _ Hr) as (_ & He).
  rewrite Nat.sub_0_r in Hm, He.
  apply starts_with_split in He.
  set (q := skipn start (firstn stop code)).
  assert (Hq : length q = stop - start).
  { unfold q. rewrite length_skipn, length_firstn.
    pose proof (f_equal (@length ascii) He) as Hl.
    rewrite length_skipn, length_app in Hl.
    change (length (txt "endmodule")) with 9 in Hl. lia. }
  assert (Hcode : skipn start code
                  = q ++ txt "endmodule"
                      ++ skipn (length (txt "endmodule")) (skipn stop code)).
  { rewrite <- He. unfold q.
    rewrite <- (firstn_skipn stop code) at 1.
    rewrite skipn_app.
    replace (start - length (firstn stop code)) with 0; [reflexivity|].
    rewrite length_firstn.
    pose proof (f_equal (@length ascii) He) as Hl.
    rewrite length_skipn, length_app in Hl.
    change (length (txt "endmodule")) with 9 in Hl. lia. }
  exists q. split; [|split].
  - unfold slice. rewrite Hcode, app_assoc, firstn_app.
    replace (stop + length (txt "endmodule") - start
             - length (q ++ txt "endmodule")) with 0
      by (rewrite length_app, Hq; lia).
    cbn [firstn]. rewrite app_nil_r. apply firstn_all2.
    rewrite length_app, Hq. lia.
  - rewrite Hcode, app_assoc in Hm.
    eapply starts_with_app_long; [|exact Hm].
    rewrite length_app, Hq. change (length (txt "module")) with 6.
    change (length (txt "endmodule")) with 9. lia.
  - exists (firstn start code),
           (skipn (length (txt "endmodule")) (skipn stop code)).
    rewrite <- app_assoc, <- Hcode. symmetry. apply firstn_skipn.
Qed.

(** Where the first [module] starts before the last [endmodule], the
    sanitizer accepts its own result and returns it unchanged. *)
Lemma sanitize_twice_when_ordered (raw_code : str) (start stop : nat) :
  find (txt "module") (strip_fences raw_code) = Some start ->
  rfind (txt "endmodule") (strip_fences raw_code) = Some stop ->
  start < stop ->
  exists clean,
    sanitize_verilog_code raw_code = Ok clean
    /\ sanitize_verilog_code clean = Ok clean.
Proof.
  intros Hf Hr Hlt.
  destruct (slice_between _ Hf Hr Hlt)
    as (q & Hslice & Hstart & before & after & Hcode).
  exists ((q ++ txt "endmodule") ++ [nl]). split.
  - unfold sanitize_verilog_code. rewrite Hf, Hr, Hslice.
    change (txt "endmodule") with (txt "endmodul" ++ [ascii_of_nat 101]) at 1.
    rewrite app_assoc, ends_with_newline_app. reflexivity.
  - apply sanitize_clean_text_newline.
    + apply no_fence_newline.
      pose proof (strip_fences_no_fence raw_code) as Hno.
      rewrite Hcode in Hno. exact (contains_part _ _ _ _ Hno).
    + exact Hstart.
    + apply ends_with_app.
Qed.

(** Otherwise the first [module] is the tail of the last [endmodule], and
    the sanitizer returns the word [module] alone. *)
Lemma sanitize_module_inside_endmodule (raw_code : str) (start stop : nat) :
  find (txt "module") (strip_fences raw_code) = Some start ->
  rfind (txt "endmodule") (strip_fences raw_code) = Some stop ->
  stop <= start ->
  start = stop + 3
  /\ sanitize_verilog_code raw_code = Ok (txt "module" ++ [nl]).
Proof.
  intros Hf Hr Hle.
  pose proof Hf as Hf'. pose proof Hr as Hr'.
  unfold find in Hf'. unfold rfind in Hr'.
  destruct (find_from_spec _ _ _ Hf') as (_ & Hm & Hmin).
  destruct (rfind_from_spec _ _ _ Hr') as (_ & He).
  rewrite Nat.sub_0_r in Hm, He, Hmin.
  apply starts_with_split in He.
  set (rest := skipn (length (txt "endmodule"))
                     (skipn stop (strip_fences raw_code))) in *.
  assert (Hk : forall k, skipn (stop + k) (strip_fences raw_code)
                         = skipn k (txt "endmodule" ++ rest)).
  { intros k. rewrite <- He, skipn_skipn. f_equal. lia. }
  assert (Hup : start <= stop + 3).
  { destruct (Nat.le_gt_cases start (stop + 3)) as [H | H]; [exact H|].
    specialize (Hmin (stop + 3) H). rewrite Hk in Hmin. discriminate Hmin. }
  assert (Hs : start = stop + (start - stop)) by lia.
  rewrite Hs, Hk in Hm.
  destruct (start - stop) as [|[|[|[|k]]]] eqn:Hd; try discriminate Hm;
    [|lia].
  split; [lia|].
  unfold sanitize_verilog_code. rewrite Hf, Hr. unfold slice.
  replace (stop + length (txt "endmodule") - start) with 6
    by (change (length (txt "endmodule")) with 9; lia).
  rewrite Hs, Hk. reflexivity.
Qed.

(** The sanitizer run on its own result: either it returns the result
    unchanged, or the result is the word [module] alone, which it rejects. *)
Lemma sanitize_twice_cases (raw_code clean : str) :
  sanitize_verilog_code raw_code = Ok clean ->
  sanitize_verilog_code clean = Ok clean
  \/ (clean = txt "module" ++ [nl]
      /\ sanitize_verilog_code clean
         = Raise (RuntimeError (no_module_message clean))).
Proof.
  intros H.
  destruct (find (txt "module") (strip_fences raw_code)) as [start|] eqn:Hf;
    [|unfold sanitize_verilog_code in H; rewrite Hf in H; discriminate].
  destruct (rfind (txt "endmodule") (strip_fences raw_code)) as [stop|]
    eqn:Hr;
    [|unfold sanitize_verilog_code in H; rewrite Hf, Hr in H; discriminate].
  destruct (Nat.lt_ge_cases start stop) as [Hlt | Hge].
  - left. destruct (sanitize_twice_when_ordered _ Hf Hr Hlt)
      as (clean' & H1 & H2).
    rewrite H in H1. injection H1 as <-. exact H2.
  - right. destruct (sanitize_module_inside_endmodule _ Hf Hr Hge) as [_ H1].
    rewrite H in H1. injection H1 as ->. split; reflexivity.
Qed.

(** C5.  The sanitizer is not idempotent on every text it accepts.  In the
    text [endmodule], and in an answer that carries only the end of a
    testbench, the search for [module] finds the tail of the only
    [endmodule]; the sanitizer accepts the text and returns the word
    [module] and a newline, which it rejects when run again.  This is the
    only way for the second run to differ from the first: whenever the
    sanitizer accepts a text, it either returns its own result unchanged, or
    that result is the word [module] alone.  The scenario of the
    specification is handled as stated, and its result is a fixed point. *)
Theorem C5_sanitize_twice_evaluated :
  sanitize_verilog_code (txt "endmodule") = Ok (txt "module" ++ [nl])
  /\ sanitize_verilog_code headless_answer = Ok (txt "module" ++ [nl])
  /\ sanitize_verilog_code (txt "module" ++ [nl])
     = Raise (RuntimeError (no_module_message (txt "module" ++ [nl])))
  /\ sanitize_verilog_code
       (txt "```verilog" ++ [nl] ++ txt "module x; endmodule" ++ [nl]
        ++ txt "```")
     = Ok (txt "module x; endmodule" ++ [nl])
  /\ sanitize_verilog_code (txt "module x; endmodule" ++ [nl])
     = Ok (txt "module x; endmodule" ++ [nl])
  /\ (forall raw_code clean : str,
         sanitize_verilog_code raw_code = Ok clean ->
         sanitize_verilog_code clean = Ok clean
         \/ (clean = txt "module" ++ [nl]
             /\ sanitize_verilog_code clean
                = Raise (RuntimeError (no_module_message clean)))).
Proof.
  repeat split; try (vm_compute; reflexivity).
  exact sanitize_twice_cases.
Qed.

(** * Further properties *)

Unset Implicit Arguments.

(** ** Lines *)

Lemma split_lines_acc_line (cur l : str) :
  no_newline l -> split_lines_acc cur l = [rev cur ++ l].
Proof.
  revert cur; induction l as [|c l IH]; intros cur H; cbn [split_lines_acc].
  - now rewrite app_nil_r.
  - unfold no_newline in H. cbn [forallb] in H.
    apply andb_true_iff in H as [Hc Hl]. apply negb_true_iff in Hc.
    rewrite Hc, (IH (c :: cur) Hl). cbn [rev]. now rewrite <- app_assoc.
Qed.

Lemma split_lines_acc_app (cur l rest : str) :
  no_newline l ->
  split_lines_acc cur (l ++ nl :: rest)
  = (rev cur ++ l) :: split_lines_acc [] rest.
Proof.
  revert cur; induction l as [|c l IH]; intros cur H;
    cbn [app split_lines_acc].
  - rewrite Ascii.eqb_refl. now rewrite app_nil_r.
  - unfold no_newline in H. cbn [forallb] in H.
    apply andb_true_iff in H as [Hc Hl]. apply negb_true_iff in Hc.
    rewrite Hc, (IH (c :: cur) Hl). cbn [rev]. now rewrite <- app_assoc.
Qed.

(** Joining lines with newlines and splitting again gives the lines back,
    when there is at least one line and no line holds a newline. *)
Lemma split_lines_join (ls : list str) :
  ls <> [] -> Forall no_newline ls -> split_lines (join [nl] ls) = ls.
Proof.
  induction ls as [|l ls IH]; intros Hne Hall; [congruence|].
  apply Forall_cons_iff in Hall as [Hl Hls]. unfold split_lines.
  destruct ls as [|l2 ls].
  - cbn [join]. now rewrite split_lines_acc_line.
  - cbn [join]. cbn [app]. rewrite split_lines_acc_app by exact Hl.
    cbn [rev app]. f_equal.
    apply (IH ltac:(discriminate) Hls).
Qed.

Lemma join_cons (sep l : str) (ls : list str) :
  ls <> [] -> join sep (l :: ls) = l ++ sep ++ join sep ls.
Proof. destruct ls; [congruence | reflexivity]. Qed.

Lemma split_lines_acc_shape (cur s : str) :
  exists l ls, split_lines_acc cur s = (rev cur ++ l) :: ls
               /\ (l :: ls = split_lines_acc [] s).
Proof.
  revert cur; induction s as [|c s IH]; intros cur; cbn [split_lines_acc].
  - exists [], []. now rewrite app_nil_r.
  - destruct (Ascii.eqb c nl).
    + exists [], (split_lines_acc [] s). now rewrite app_nil_r.
    + destruct (IH (c :: cur)) as (l & ls & H1 & H2).
      destruct (IH [c]) as (l' & ls' & H1' & H2').
      rewrite <- H2 in H2'. injection H2' as Hl Hls. subst l' ls'.
      exists (c :: l), ls. rewrite H1, H1'. cbn [rev app].
      now rewrite <- app_assoc.
Qed.

(** Splitting at the newlines and joining with newlines gives the text
    back. *)
Lemma join_split_lines (s : str) : join [nl] (split_lines s) = s.
Proof.
  unfold split_lines. induction s as [|c s IH]; [reflexivity|].
  cbn [split_lines_acc]. destruct (Ascii.eqb c nl) eqn:Hc.
  - apply Ascii.eqb_eq in Hc. subst c. cbn [rev].
    destruct (split_lines_acc_shape [] s) as (l & ls & H & _).
    rewrite join_cons by (rewrite H; discriminate).
    cbn [app]. now rewrite IH.
  - destruct (split_lines_acc_shape [c] s) as (l & ls & H1 & H2).
    rewrite H1. rewrite <- H2 in IH. cbn [rev app].
    destruct ls as [|l2 ls].
    + cbn [join] in *. now rewrite IH.
    + rewrite join_cons in * by discriminate.
      rewrite <- app_comm_cons. f_equal. exact IH.
Qed.

Lemma no_newline_app (a b : str) :
  no_newline (a ++ b) <-> no_newline a /\ no_newline b.
Proof.
  unfold no_newline. rewrite forallb_app. apply andb_true_iff.
Qed.

Lemma no_newline_rev (s : str) : no_newline s -> no_newline (rev s).
Proof.
  unfold no_newline. rewrite !forallb_forall. intros H x Hx.
  apply H. now apply in_rev.
Qed.

Lemma split_lines_acc_no_newline (cur s : str) :
  no_newline cur -> Forall no_newline (split_lines_acc cur s).
Proof.
  revert cur; induction s as [|c s IH]; intros cur H; cbn [split_lines_acc].
  - constructor; [now apply no_newline_rev | constructor].
  - destruct (Ascii.eqb c nl) eqn:Hc.
    + constructor; [now apply no_newline_rev|]. now apply IH.
    + apply IH. unfold no_newline in *. cbn [forallb]. now rewrite Hc, H.
Qed.

(** No line of a text holds a newline. *)
Lemma split_lines_no_newline (s : str) : Forall no_newline (split_lines s).
Proof. now apply split_lines_acc_no_newline. Qed.

Lemma word_no_newline (s : str) : forallb is_word s = true -> no_newline s.
Proof.
  unfold no_newline. intros H. rewrite forallb_forall in *.
  intros c Hc. specialize (H c Hc). apply negb_true_iff.
  destruct (Ascii.eqb c nl) eqn:He; [|reflexivity].
  apply Ascii.eqb_eq in He. subst c. discriminate H.
Qed.

(** ** The tool runs of the flow *)

Lemma processes_run_app (a b : list event) :
  processes_run (a ++ b) = processes_run a ++ processes_run b.
Proof. apply flat_map_app. Qed.

Lemma files_written_app (a b : list event) :
  files_written (a ++ b) = files_written a ++ files_written b.
Proof. apply flat_map_app. Qed.

Lemma has_log_path (r : step_result) (d x : str) :
  log_path r = d ++ txt "/" ++ x -> has_log r = true.
Proof.
  unfold has_log. intros ->. destruct d; reflexivity.
Qed.

Section FlowEffects.

Variable World : Type.
Variable E : Env World.

Lemma run_cmd_eq (command : list str) (name : str) (st : state World) :
  _run_cmd E command name st
  = (let r := fst (subprocess_run E command (fst st)) in
     let path := logs_dir E ++ txt "/" ++ name ++ txt ".log" in
     (MkStep name (join (txt " ") command) (proc_returncode r)
             (proc_stdout r) (proc_stderr r) path,
      (write_text E path (log_text command r)
                  (snd (subprocess_run E command (fst st))),
       snd st ++ [ProcessRun command; FileWritten path (log_text command r)]))).
Proof.
  destruct st as [w tr]. unfold _run_cmd, bindM, emit, perform, ret.
  cbn [fst snd]. destruct (subprocess_run E command w) as [r w1].
  cbn [fst snd]. now rewrite <- app_assoc.
Qed.

Lemma compile_dut_eq (st : state World) :
  compile_dut E st
  = match read_text E (dut_file E) (fst st) with
    | None =>
        (missing (txt "compile_dut") (txt "DUT file not found: " ++ dut_file E),
         (fst st, snd st ++ [CheckInvoked (txt "compile_dut")]))
    | Some _ =>
        _run_cmd E (lint_dut_command E) (txt "compile_dut")
                 (fst st, snd st ++ [CheckInvoked (txt "compile_dut")])
    end.
Proof.
  destruct st as [w tr]. unfold compile_dut, bindM, emit, exists_, observe.
  cbn [fst snd]. destruct (read_text E (dut_file E) w); reflexivity.
Qed.

Lemma elaborate_dut_eq (st : state World) :
  elaborate_dut E st
  = match read_text E (dut_file E) (fst st) with
    | None =>
        (missing (txt "elaborate_dut")
                 (txt "DUT file not found: " ++ dut_file E),
         (fst st, snd st ++ [CheckInvoked (txt "elaborate_dut")]))
    | Some _ =>
        _run_cmd E (elaborate_command E) (txt "elaborate_dut")
                 (fst st, snd st ++ [CheckInvoked (txt "elaborate_dut")])
    end.
Proof.
  destruct st as [w tr]. unfold elaborate_dut, bindM, emit, exists_, observe.
  cbn [fst snd]. destruct (read_text E (dut_file E) w); reflexivity.
Qed.

Lemma compile_tb_eq (st : state World) :
  compile_tb E st
  = match read_text E (tb_file E) (fst st) with
    | None =>
        (missing (txt "compile_tb")
                 (txt "Testbench file not found: " ++ tb_file E),
         (fst st, snd st ++ [CheckInvoked (txt "compile_tb")]))
    | Some _ =>
        match read_text E (dut_file E) (fst st) with
        | None =>
            (missing (txt "compile_tb")
                     (txt "DUT file not found: " ++ dut_file E),
             (fst st, snd st ++ [CheckInvoked (txt "compile_tb")]))
        | Some _ =>
            _run_cmd E (lint_tb_command E) (txt "compile_tb")
                     (fst st, snd st ++ [CheckInvoked (txt "compile_tb")])
        end
    end.
Proof.
  destruct st as [w tr]. unfold compile_tb, bindM, emit, exists_, observe.
  cbn [fst snd]. destruct (read_text E (tb_file E) w); [|reflexivity].
  cbn [negb fst snd]. destruct (read_text E (dut_file E) w); reflexivity.
Qed.

Lemma run_simulation_eq (st : state World) :
  run_simulation st
  = (stub_result, (fst st, snd st ++ [CheckInvoked (txt "run_simulation")])).
Proof. reflexivity. Qed.

End FlowEffects.

Lemma check_named_compile_dut (World : Type) (E : Env World) :
  check_named E (txt "compile_dut") = compile_dut E.
Proof. reflexivity. Qed.

Lemma check_named_elaborate_dut (World : Type) (E : Env World) :
  check_named E (txt "elaborate_dut") = elaborate_dut E.
Proof. reflexivity. Qed.

Lemma check_named_compile_tb (World : Type) (E : Env World) :
  check_named E (txt "compile_tb") = compile_tb E.
Proof. reflexivity. Qed.

Lemma check_named_run_simulation (World : Type) (E : Env World) :
  check_named E (txt "run_simulation") = run_simulation.
Proof. reflexivity. Qed.

Lemma log_text_log_of (command : list str) (r : completed_process) (n p : str) :
  log_text command r
  = log_of (MkStep n (join (txt " ") command) (proc_returncode r)
                   (proc_stdout r) (proc_stderr r) p).
Proof. reflexivity. Qed.

Ltac flow_step :=
  first
    [ rewrite compile_dut_eq
    | rewrite elaborate_dut_eq
    | rewrite compile_tb_eq
    | rewrite run_simulation_eq
    | rewrite run_cmd_eq
    | lazymatch goal with
      | |- context [match read_text ?E ?f ?w with _ => _ end] =>
          destruct (read_text E f w)
      end
    | lazymatch goal with
      | |- context [subprocess_run ?E ?c ?w] =>
          let rc := fresh "rc" in
          let out := fresh "out" in
          let err := fresh "err" in
          let w1 := fresh "w" in
          destruct (subprocess_run E c w) as [[rc out err] w1]
      end
    | lazymatch goal with
      | |- context [(?rc =? 0)%Z] => destruct (rc =? 0)%Z
      end ];
  cbv zeta; unfold failed, missing, stub_result;
  cbn [fst snd negb returncode proc_returncode proc_stdout proc_stderr Z.eqb].


Lemma has_log_run (a b : str) (c : Z) (d e p x : str) :
  has_log (MkStep a b c d e (p ++ txt "/" ++ x)) = true.
Proof. unfold has_log. cbn [log_path]. destruct p; reflexivity. Qed.

Ltac flow_cases :=
  rewrite run_flow_refines_spec; unfold spec_checks;
  lazymatch goal with
  | |- context [str_eqb ?mode (txt "compile_only")] =>
      destruct (str_eqb mode (txt "compile_only"));
      [|destruct (str_eqb mode (txt "compile_elaborate"))]
  end;
  cbn [spec_driver];
  rewrite ?check_named_compile_dut, ?check_named_elaborate_dut,
    ?check_named_compile_tb, ?check_named_run_simulation;
  unfold bindM, ret; repeat flow_step.

Ltac flow_effects :=
  unfold tool_runs; cbn [app map snd filter];
  rewrite ?has_log_run; cbn [has_log log_path filter map cmd step];
  rewrite ?processes_run_app, ?files_written_app;
  cbn [processes_run files_written flat_map app map].

(** X1.  Whatever the surroundings answer and whatever the mode, the log
    files a flow writes are those its results name, in the order of the
    results: a result with a log path has had its log written to that path,
    [logs/<step>.log], holding its command line and the two outputs it
    reports, and its command line is the one of a process the flow ran; a
    result without log path (a missing file, the placeholder simulation)
    has run no process and written nothing. *)
Theorem flow_logs_every_tool_run :
  forall (World : Type) (E : Env World) (mode : str) (st : state World),
    let '(_, _, res, st') := run_flow E mode st in
    exists new,
      snd st' = snd st ++ new
      /\ map (join (txt " ")) (processes_run new) = map cmd (tool_runs res)
      /\ files_written new
         = map (fun r => (log_path r, log_of r)) (tool_runs res)
      /\ forall r, In r (tool_runs res) ->
                   log_path r = logs_dir E ++ txt "/" ++ step r ++ txt ".log".
Proof.
  intros World E mode st. flow_cases.
  all: eexists; (split; [rewrite <- ?app_assoc; reflexivity|]).
  all: flow_effects.
  all: (split; [reflexivity|]); (split; [reflexivity|]).
  all: intros r Hr; cbn [In] in Hr; intuition (subst; reflexivity).
Qed.

(** X2.  The processes a flow starts are an initial part of the command
    lines of its mode, in their order: the lint of the DUT, its elaboration
    (not in [compile_only]), the lint of the DUT and the testbench together
    with timing support and the include directory.  The placeholder
    simulation starts none.  A flow that reports success has run all the
    command lines of its mode. *)
Theorem flow_runs_prescribed_commands :
  forall (World : Type) (E : Env World) (mode : str) (st : state World),
    let '(success, _, _, st') := run_flow E mode st in
    exists new j,
      snd st' = snd st ++ new
      /\ processes_run new = firstn j (commands_of_mode E mode)
      /\ (success = true -> processes_run new = commands_of_mode E mode).
Proof.
  intros World E mode st. unfold commands_of_mode. flow_cases.
  all: eexists; 
    first [ exists 0; split; [rewrite <- ?app_assoc; reflexivity|];
            flow_effects; split; [reflexivity | discriminate]
          | exists 1; split; [rewrite <- ?app_assoc; reflexivity|];
            flow_effects; split; [reflexivity | discriminate]
          | exists 2; split; [rewrite <- ?app_assoc; reflexivity|];
            flow_effects; split; [reflexivity | first [discriminate | reflexivity]]
          | exists 3; split; [rewrite <- ?app_assoc; reflexivity|];
            flow_effects; split; [reflexivity | first [discriminate | reflexivity]] ].
Qed.

(** X3.  A mode other than [compile_only] and [compile_elaborate]
    ([full_sim] is meant) verifies no more than [compile_elaborate]: from
    the same state both flows run the same processes, write the same logs,
    leave the same world and report the same flag and failing step.  On
    success the full flow has one more entry in its results, the fixed
    result of the placeholder simulation, and one more check invoked; on
    failure the results are the same. *)
Theorem full_mode_adds_only_the_stub :
  forall (World : Type) (E : Env World) (mode : str) (st : state World),
    mode <> txt "compile_only" ->
    mode <> txt "compile_elaborate" ->
    let '(s1, f1, r1, st1) := run_flow E (txt "compile_elaborate") st in
    let '(s2, f2, r2, st2) := run_flow E mode st in
    s2 = s1 /\ f2 = f1 /\ fst st2 = fst st1
    /\ r2 = r1 ++ (if s1 then [(txt "run_simulation", stub_result)] else [])
    /\ snd st2
       = snd st1 ++ (if s1 then [CheckInvoked (txt "run_simulation")] else [])
    /\ returncode stub_result = 0%Z
    /\ has_log stub_result = false.
Proof.
  intros World E mode st H1 H2.
  assert (E1 : str_eqb mode (txt "compile_only") = false).
  { destruct (str_eqb mode (txt "compile_only")) eqn:H; [|reflexivity].
    apply str_eqb_eq in H. contradiction. }
  assert (E2 : str_eqb mode (txt "compile_elaborate") = false).
  { destruct (str_eqb mode (txt "compile_elaborate")) eqn:H; [|reflexivity].
    apply str_eqb_eq in H. contradiction. }
  rewrite !run_flow_refines_spec. unfold spec_checks. rewrite E1, E2.
  change (str_eqb (txt "compile_elaborate") (txt "compile_only")) with false.
  change (str_eqb (txt "compile_elaborate") (txt "compile_elaborate"))
    with true.
  cbv iota. cbn [spec_driver].
  rewrite ?check_named_compile_dut, ?check_named_elaborate_dut,
    ?check_named_compile_tb, ?check_named_run_simulation.
  unfold bindM, ret.
  destruct (compile_dut E st) as [r1 st1].
  destruct (failed r1);
    [rewrite !app_nil_r; repeat split; reflexivity|].
  destruct (elaborate_dut E st1) as [r2 st2].
  destruct (failed r2);
    [rewrite !app_nil_r; repeat split; reflexivity|].
  destruct (compile_tb E st2) as [r3 st3].
  destruct (failed r3);
    [rewrite !app_nil_r; repeat split; reflexivity|].
  rewrite run_simulation_eq. cbn [fst snd failed returncode stub_result].
  repeat split; reflexivity.
Qed.

(** The full mode where everything passes *)
Lemma full_mode_adds_only_the_stub_witness :
  exists r1 st1,
    run_flow (accepting []) (txt "compile_elaborate") (tt, [])
    = (true, txt "ok", r1, st1)
    /\ run_flow (accepting []) (txt "full_sim") (tt, [])
       = (true, txt "ok", r1 ++ [(txt "run_simulation", stub_result)],
          (fst st1, snd st1 ++ [CheckInvoked (txt "run_simulation")])).
Proof.
  pose proof (full_mode_adds_only_the_stub unit (accepting [])
                (txt "full_sim") (tt, [])
                ltac:(discriminate) ltac:(discriminate)) as H.
  destruct (run_flow (accepting []) (txt "compile_elaborate") (tt, []))
    as [[[s1 f1] r1] st1] eqn:H1.
  destruct (run_flow (accepting []) (txt "full_sim") (tt, []))
    as [[[s2 f2] r2] [w2 t2]] eqn:H2.
  destruct H as (Hs & Hf & Hw & Hr & Ht & _).
  assert (Hs1 : s1 = true /\ f1 = txt "ok").
  { vm_compute in H1. injection H1 as <- <- _ _. now split. }
  destruct Hs1 as [-> ->]. cbn [snd fst] in *. subst.
  exists r1, st1. split; reflexivity.
Defined.

(** ** Every run of the refinement loop *)

Section History.

Variable World : Type.
Variable E : Env World.
Variable user_request mode : str.
Variable max_iterations : nat.

Lemma build_prompt_for (iteration : nat) (prev : option previous_error)
      (st : state World) (p : ports) (q : prompt) :
  build_prompt E user_request iteration prev st = (p, Ok q, st) ->
  prompt_for user_request iteration prev p q.
Proof.
  unfold build_prompt, bindM, observe, ret, prompt_for.
  destruct iteration as [|k]; [intros H; now injection H as <- <-|].
  destruct prev as [pe|]; [|intros H; now injection H as <- <-].
  destruct (generate_targeted_error_prompt _ _) as [fixes|e] eqn:Hf;
    intros H; [|discriminate].
  injection H as <- <-. exists fixes. split; [exact Hf | reflexivity].
Qed.

(** What one generation leaves behind, whichever way it ends *)
Lemma generate_testbench_cases (iteration : nat)
      (prev : option previous_error) (st : state World) :
  exists q,
    prompt_for user_request iteration prev
               (extract_dut_ports (read_text E (dut_file E) (fst st))) q
    /\ models_asked
         (snd (snd (generate_testbench E user_request iteration prev st)))
       = models_asked (snd st) ++ [q]
    /\ memory_saved
         (snd (snd (generate_testbench E user_request iteration prev st)))
       = memory_saved (snd st)
    /\ forall g,
         fst (generate_testbench E user_request iteration prev st) = Ok g ->
         gl_ports_detected g
         = extract_dut_ports (read_text E (dut_file E) (fst st))
         /\ gl_iteration g = iteration.
Proof.
  destruct (generate_testbench_unfold E user_request iteration prev st)
    as (q & Hq & ->).
  exists q. split; [now apply build_prompt_for with (st := st)|].
  destruct (llm_invoke E q (fst st)) as [[raw_tb | e] w1]; cbn [fst snd].
  - destruct (sanitize_verilog_code raw_tb) as [tb_code | e]; cbn [fst snd];
      rewrite ?models_asked_app, ?memory_saved_app; simpl;
      rewrite ?app_nil_r.
    + repeat split; try reflexivity; now injection H as <-.
    + repeat split; discriminate.
  - rewrite ?models_asked_app, ?memory_saved_app; simpl;
      rewrite ?app_nil_r. repeat split; discriminate.
Qed.

Lemma refine_loop_generation_failed (iteration : nat) (rest : list nat)
      (log : run_log) (prev : option previous_error) (final_analysis : str)
      (last : option (str * results)) (st st1 : state World) (e : exn) :
  generate_testbench E user_request iteration prev st = (Raise e, st1) ->
  refine_loop E user_request mode max_iterations (iteration :: rest) log prev
              final_analysis last st
  = (Ok (false, txt "testbench_generation", [], exn_message e, iteration + 1),
     snd (save E
            (finish
               (append_iteration log
                  (MkIter iteration None (Some (exn_message e)) None None
                          None None None))
               (txt "generation_failed") false (iteration + 1)
               (rl_final_analysis log))
            st1)).
Proof.
  intros Hg. cbn [refine_loop]. unfold bindM. rewrite Hg. reflexivity.
Qed.

Lemma refine_loop_verified (iteration : nat) (rest : list nat)
      (log : run_log) (prev : option previous_error) (final_analysis : str)
      (last : option (str * results)) (st st1 st2 : state World)
      (g : generation_log) (failing : str) (res : results) :
  generate_testbench E user_request iteration prev st = (Ok g, st1) ->
  run_flow E mode st1 = (true, failing, res, st2) ->
  refine_loop E user_request mode max_iterations (iteration :: rest) log prev
              final_analysis last st
  = (Ok (true, txt "ok", res,
         al_analysis_text (analyze_with_llm res iteration), iteration + 1),
     snd (save E
            (finish
               (append_iteration log
                  (MkIter iteration (Some g) None
                          (Some (MkSim mode true failing res))
                          (Some (analyze_with_llm res iteration))
                          None None None))
               (txt "success") true (iteration + 1)
               (Some (al_analysis_text (analyze_with_llm res iteration))))
            st2)).
Proof.
  intros Hg Hf. cbn [refine_loop]. unfold bindM. rewrite Hg, Hf. reflexivity.
Qed.

Lemma refine_loop_rejected (iteration : nat) (rest : list nat)
      (log : run_log) (prev : option previous_error) (final_analysis : str)
      (last : option (str * results)) (st st1 st2 : state World)
      (g : generation_log) (failing : str) (res : results) :
  generate_testbench E user_request iteration prev st = (Ok g, st1) ->
  run_flow E mode st1 = (false, failing, res, st2) ->
  refine_loop E user_request mode max_iterations (iteration :: rest) log prev
              final_analysis last st
  = refine_loop E user_request mode max_iterations rest
      (update_last_iteration
         (append_iteration log
            (MkIter iteration (Some g) None
                    (Some (MkSim mode false failing res))
                    (Some (analyze_with_llm res iteration))
                    None None None))
         (if iteration <? max_iterations - 1
          then set_retry true (Some (extract_error_summary res failing)) None
          else set_retry false None (Some (txt "max_iterations_reached"))))
      (if iteration <? max_iterations - 1
       then Some (MkPrev failing res
                         (al_analysis_text (analyze_with_llm res iteration)))
       else prev)
      (al_analysis_text (analyze_with_llm res iteration))
      (Some (failing, res)) st2.
Proof.
  intros Hg Hf. cbn [refine_loop]. unfold bindM. rewrite Hg, Hf.
  destruct (iteration <? max_iterations - 1); reflexivity.
Qed.





End History.












(** ** The analysis of the results *)

Lemma filter_failed_nonempty (res : results) :
  forallb (fun kr => (returncode (snd kr) =? 0)%Z) res = false ->
  filter (fun kr => negb (returncode (snd kr) =? 0)%Z) res <> [].
Proof.
  induction res as [|kr res IH]; [discriminate|]. cbn [forallb filter].
  destruct (returncode (snd kr) =? 0)%Z; cbn [negb andb]; [exact IH|].
  discriminate.
Qed.

Lemma filter_passing (res : results) :
  forallb (fun kr => (returncode (snd kr) =? 0)%Z) res = true ->
  filter (fun kr => negb (returncode (snd kr) =? 0)%Z) res = [].
Proof.
  induction res as [|kr res IH]; [reflexivity|]. cbn [forallb filter].
  destruct (returncode (snd kr) =? 0)%Z; cbn [negb andb];
    [exact IH | discriminate].
Qed.

(** The analysis of any results: success means that every result passes,
    the failed steps are the keys of the results that do not. *)
Lemma analyze_with_llm_flags (res : results) (iteration : nat) :
  al_success (analyze_with_llm res iteration)
  = forallb (fun kr => (returncode (snd kr) =? 0)%Z) res
  /\ al_failed_steps (analyze_with_llm res iteration)
     = map fst (filter (fun kr => negb (returncode (snd kr) =? 0)%Z) res)
  /\ al_iteration (analyze_with_llm res iteration) = iteration.
Proof.
  unfold analyze_with_llm.
  destruct (forallb _ res) eqn:Hall.
  - rewrite (filter_passing res Hall). repeat split.
  - pose proof (filter_failed_nonempty res Hall) as Hne.
    destruct (filter _ res) as [|kr l]; [congruence|].
    cbn [map]. repeat split.
Qed.

Ltac flow_step_eqn :=
  first
    [ rewrite compile_dut_eq
    | rewrite elaborate_dut_eq
    | rewrite compile_tb_eq
    | rewrite run_simulation_eq
    | rewrite run_cmd_eq
    | lazymatch goal with
      | |- context [match read_text ?E ?f ?w with _ => _ end] =>
          destruct (read_text E f w)
      end
    | lazymatch goal with
      | |- context [subprocess_run ?E ?c ?w] =>
          let rc := fresh "rc" in
          let out := fresh "out" in
          let err := fresh "err" in
          let w1 := fresh "w" in
          destruct (subprocess_run E c w) as [[rc out err] w1]
      end
    | lazymatch goal with
      | |- context [negb (?rc =? 0)%Z] =>
          let H := fresh "Hrc" in
          destruct (rc =? 0)%Z eqn:H
      end ];
  cbv zeta; unfold failed, missing, stub_result;
  cbn [fst snd negb returncode proc_returncode proc_stdout proc_stderr Z.eqb].

(** The results of a failed flow: passing results, then the one of the
    failing step, which is also the one found under its name. *)
Lemma run_flow_failure_shape (World : Type) (E : Env World) (mode : str)
      (st : state World) :
  let '(success, failing, res, _) := run_flow E mode st in
  success = false ->
  exists passed r,
    res = passed ++ [(failing, r)]
    /\ forallb (fun kr => (returncode (snd kr) =? 0)%Z) passed = true
    /\ (returncode r =? 0)%Z = false
    /\ dict_get failing res = Some r.
Proof.
  rewrite run_flow_refines_spec; unfold spec_checks.
  destruct (str_eqb mode (txt "compile_only"));
    [|destruct (str_eqb mode (txt "compile_elaborate"))];
    cbn [spec_driver];
    rewrite ?check_named_compile_dut, ?check_named_elaborate_dut,
      ?check_named_compile_tb, ?check_named_run_simulation;
    unfold bindM, ret; repeat flow_step_eqn.
  all: intros H; try discriminate H.
  all: eexists; eexists; (split; [reflexivity|]);
    cbn [app forallb snd returncode];
    rewrite ?Hrc, ?Hrc0, ?Hrc1; repeat split; reflexivity.
Qed.

Lemma forallb_In_passing (res : results) :
  (forall name r, In (name, r) res -> returncode r = 0%Z) ->
  forallb (fun kr => (returncode (snd kr) =? 0)%Z) res = true.
Proof.
  intros H. apply forallb_forall. intros [name r] Hin. cbn [snd].
  apply Z.eqb_eq. eapply H, Hin.
Qed.

(** X7.  The analysis of the results of a flow agrees with the flow,
    whatever the surroundings and the mode: it reports success exactly when
    the flow does; after a success it lists no failed step and its text is
    the fixed success sentence; after a failure it lists one failed step,
    the failing step of the flow, and its text is [Failed at <step>:]
    followed by one line that classifies the error output of that step: a
    missing connection, a width mismatch, something not found, in this
    order of precedence, or else [- <step> failed].  For results of any
    origin the success flag says that every result has exit status zero,
    and the text is never [Verification completed.]: the branch of the
    code that assigns it cannot be reached. *)
Theorem analysis_agrees_with_flow :
  forall (World : Type) (E : Env World) (mode : str) (st : state World)
         (iteration : nat),
    (let '(success, failing, res, _) := run_flow E mode st in
     al_success (analyze_with_llm res iteration) = success
     /\ al_failed_steps (analyze_with_llm res iteration)
        = (if success then [] else [failing])
     /\ al_iteration (analyze_with_llm res iteration) = iteration
     /\ if success
        then al_analysis_text (analyze_with_llm res iteration)
             = txt "✅ All verification steps passed successfully."
        else exists r,
               dict_get failing res = Some r
               /\ returncode r <> 0%Z
               /\ al_analysis_text (analyze_with_llm res iteration)
                  = txt "Failed at " ++ failing ++ txt ":" ++ [nl]
                    ++ (if contains (txt "PINMISSING") (stderr r)
                        then txt "- Missing port connections"
                        else if contains (txt "WIDTH") (stderr r)
                        then txt "- Bit width mismatch"
                        else if contains (txt "Cannot find") (stderr r)
                        then txt "- Module or signal not found"
                        else txt "- " ++ failing ++ txt " failed"))
    /\ forall (res : results) (i : nat),
         al_success (analyze_with_llm res i)
         = forallb (fun kr => (returncode (snd kr) =? 0)%Z) res
         /\ al_analysis_text (analyze_with_llm res i)
            <> txt "Verification completed.".
Proof.
  intros World E mode st iteration. split.
  - pose proof (run_flow_failure_shape World E mode st) as Hshape.
    destruct (run_flow E mode st) as [[[success failing] res] st'] eqn:Hf.
    apply run_flow_fail_fast in Hf as (k & _ & _ & _ & _ & Hout).
    destruct (analyze_with_llm_flags res iteration) as (Hs & Hfs & Hit).
    destruct success.
    + destruct Hout as (_ & _ & Hpass).
      apply forallb_In_passing in Hpass.
      rewrite Hs, Hfs, (filter_passing res Hpass).
      repeat (split; [assumption || reflexivity|]).
      unfold analyze_with_llm. now rewrite Hpass.
    + destruct (Hshape eq_refl) as (passed & r & Hres & Hpassed & Hr & Hget).
      assert (Hfilter :
                filter (fun kr => negb (returncode (snd kr) =? 0)%Z) res
                = [(failing, r)]).
      { rewrite Hres, filter_app, (filter_passing passed Hpassed).
        cbn [filter snd app]. now rewrite Hr. }
      assert (Hall :
                forallb (fun kr => (returncode (snd kr) =? 0)%Z) res = false).
      { rewrite Hres, forallb_app. cbn [forallb snd]. rewrite Hr.
        now rewrite andb_false_r. }
      rewrite Hs, Hfs, Hfilter, Hall.
      repeat (split; [assumption || reflexivity|]).
      exists r. split; [exact Hget|]. split; [now apply Z.eqb_neq|].
      unfold analyze_with_llm. rewrite Hall, Hfilter. cbn [map fst].
      rewrite Hget. cbn [al_analysis_text join].
      destruct (contains (txt "PINMISSING") (stderr r)); [reflexivity|].
      destruct (contains (txt "WIDTH") (stderr r)); [reflexivity|].
      destruct (contains (txt "Cannot find") (stderr r)); reflexivity.
  - intros res i. split; [apply analyze_with_llm_flags|].
    unfold analyze_with_llm.
    destruct (forallb _ res) eqn:Hall.
    + cbn [al_analysis_text]. intros H. vm_compute in H. discriminate H.
    + pose proof (filter_failed_nonempty res Hall) as Hne.
      destruct (filter _ res) as [|kr l]; [congruence|].
      cbn [map al_analysis_text]. intros H.
      apply (f_equal (hd " "%char)) in H. vm_compute in H. discriminate H.
Qed.

(** ** The instantiation list *)

Lemma connection_lines_join (all_ports : list port) :
  forall n i,
    n = i + length all_ports ->
    join [nl] (connection_lines n i all_ports)
    = join (txt "," ++ [nl])
           (map (fun q => txt "        " ++ connection q) all_ports).
Proof.
  induction all_ports as [|q rest IH]; intros n i Hn; [reflexivity|].
  cbn [connection_lines map]. destruct rest as [|q2 rest].
  - cbn [length] in Hn.
    replace (i <? n - 1) with false by (symmetry; apply Nat.ltb_ge; lia).
    cbn [connection_lines join map]. unfold connection.
    change (txt "        .") with (txt "        " ++ txt ".").
    now rewrite !app_nil_r, <- !app_assoc.
  - cbn [length] in Hn.
    replace (i <? n - 1) with true by (symmetry; apply Nat.ltb_lt; lia).
    specialize (IH n (S i) ltac:(cbn [length]; lia)).
    rewrite (join_cons [nl]) by (cbn [connection_lines]; discriminate).
    rewrite (join_cons (txt "," ++ [nl])) by discriminate.
    rewrite IH. unfold connection.
    change (txt "        .") with (txt "        " ++ txt ".").
    now rewrite <- !app_assoc.
Qed.

Lemma generate_port_connections_join (p : ports) :
  generate_port_connections p
  = join (txt "," ++ [nl])
         (map (fun q => txt "        " ++ connection q)
              (inputs p ++ outputs p)).
Proof.
  unfold generate_port_connections. now apply connection_lines_join.
Qed.

Lemma connection_lines_length (all_ports : list port) :
  forall n i, length (connection_lines n i all_ports) = length all_ports.
Proof.
  induction all_ports as [|q rest IH]; intros n i; [reflexivity|].
  cbn [connection_lines length]. now rewrite IH.
Qed.

Lemma connection_lines_nth (all_ports : list port) :
  forall n i k q,
    n = i + length all_ports ->
    nth_error all_ports k = Some q ->
    nth_error (connection_lines n i all_ports) k
    = Some (txt "        " ++ connection q
            ++ (if S k =? length all_ports then [] else txt ",")).
Proof.
  induction all_ports as [|q0 rest IH]; intros n i k q Hn Hk;
    [destruct k; discriminate|].
  cbn [length] in Hn. destruct k as [|k].
  - injection Hk as <-. cbn [connection_lines nth_error length].
    unfold connection. change (txt "        .") with (txt "        " ++ txt ".").
    rewrite <- !app_assoc. do 6 f_equal.
    destruct rest as [|q2 rest]; cbn [length Nat.eqb]; cbn [length] in Hn.
    + replace (i <? n - 1) with false by (symmetry; apply Nat.ltb_ge; lia).
      reflexivity.
    + replace (i <? n - 1) with true by (symmetry; apply Nat.ltb_lt; lia).
      reflexivity.
  - cbn [connection_lines nth_error length] in *.
    rewrite (IH n (S i) k q ltac:(lia) Hk). reflexivity.
Qed.

Lemma connection_lines_no_newline (all_ports : list port) :
  forall n i,
    Forall (fun q => no_newline (fst q)) all_ports ->
    Forall no_newline (connection_lines n i all_ports).
Proof.
  induction all_ports as [|q rest IH]; intros n i H; [constructor|].
  apply Forall_cons_iff in H as [Hq Hrest]. cbn [connection_lines].
  constructor; [|now apply IH].
  repeat (apply no_newline_app; split); try exact Hq; try reflexivity.
  destruct (i <? n - 1); reflexivity.
Qed.

(** X8.  The instantiation list made for the prompts holds one line per
    port, inputs first, each line being eight spaces and the connection
    [.name(name)]; every line but the last ends with a comma, the last has
    none, so the text is the lines without comma joined by a comma and a
    newline.  Without ports the text is empty.  When no name holds a
    newline and there is a port, the text has as many lines as there are
    ports, and line [k] is the connection of port [k]. *)
Theorem port_connections_line_by_line :
  forall p : ports,
    generate_port_connections p
    = join (txt "," ++ [nl])
           (map (fun q => txt "        " ++ connection q)
                (inputs p ++ outputs p))
    /\ (inputs p ++ outputs p = [] -> generate_port_connections p = [])
    /\ (Forall (fun q => no_newline (fst q)) (inputs p ++ outputs p) ->
        inputs p ++ outputs p <> [] ->
        length (split_lines (generate_port_connections p))
        = length (inputs p ++ outputs p)
        /\ forall k q,
             nth_error (inputs p ++ outputs p) k = Some q ->
             nth_error (split_lines (generate_port_connections p)) k
             = Some (txt "        " ++ connection q
                     ++ (if S k =? length (inputs p ++ outputs p)
                         then [] else txt ","))).
Proof.
  intros p. split; [apply generate_port_connections_join|].
  split; [unfold generate_port_connections; now intros ->|].
  intros Hnames Hne. unfold generate_port_connections.
  rewrite split_lines_join.
  - split; [apply connection_lines_length|].
    intros k q Hk. now apply connection_lines_nth.
  - destruct (inputs p ++ outputs p); [congruence | discriminate].
  - now apply connection_lines_no_newline.
Qed.

(** The instantiation list of the scenario of the specification *)
Lemma port_connections_line_by_line_witness :
  split_lines (generate_port_connections
                 (extract_dut_ports (Some scenario_dut)))
  = [ txt "        .data(data),"; txt "        .clk(clk),";
      txt "        .rst(rst),"; txt "        .out(out)" ].
Proof.
  destruct (port_connections_line_by_line
              (extract_dut_ports (Some scenario_dut))) as (_ & _ & H).
  destruct H as [Hlen Hnth].
  - vm_compute. repeat constructor.
  - vm_compute. discriminate.
  - vm_compute. reflexivity.
Defined.

(** ** The fix for missing connections *)

Lemma occurs_between (x a y l0 l1 : str) :
  ends_with x l0 = true ->
  starts_with y l1 = true ->
  occurs (x ++ a ++ y) (l0 ++ a ++ l1).
Proof.
  intros H0 H1. apply ends_with_split in H0 as [t ->].
  apply starts_with_split in H1. rewrite H1.
  exists t, (skipn (length y) l1). now rewrite <- !app_assoc.
Qed.

Lemma pinmissing_fixes_block (error_summary : str) (p : ports)
      (fixes : list str) :
  contains (txt "PINMISSING") error_summary = true ->
  parse_pinmissing_error error_summary <> [] ->
  pinmissing_fixes error_summary p fixes
  = Ok (fixes
        ++ [filled_pinmissing
              (join (txt ", ") (parse_pinmissing_error error_summary))
              (module_name p) (generate_port_connections p)]).
Proof.
  intros Hc Hne. unfold pinmissing_fixes. rewrite Hc.
  destruct (parse_pinmissing_error error_summary) as [|m ms] eqn:Hp;
    [congruence|].
  rewrite get_fix_pinmissing. cbn [bind].
  now rewrite generate_port_connections_join.
Qed.

Lemma filled_pinmissing_parts (a b c : str) :
  occurs (txt "You forgot to connect port '" ++ a ++ txt "'.")
         (filled_pinmissing a b c)
  /\ occurs (txt "    ." ++ a ++ txt "(" ++ a ++ txt ")" ++ [nl])
            (filled_pinmissing a b c)
  /\ occurs (b ++ txt " dut (" ++ [nl] ++ c ++ [nl] ++ txt ");")
            (filled_pinmissing a b c).
Proof.
  unfold filled_pinmissing. split; [|split].
  - rewrite !app_assoc. do 8 apply occurs_app_l. rewrite <- !app_assoc.
    apply occurs_between; vm_compute; reflexivity.
  - apply occurs_app_r, occurs_app_r.
    assert (H1 : ends_with (txt "    .") (literal_part 1 template_PINMISSING)
                 = true) by (vm_compute; reflexivity).
    apply ends_with_split in H1 as [t1 H1]. rewrite H1.
    assert (H2 : literal_part 2 template_PINMISSING = txt "(")
      by (vm_compute; reflexivity).
    rewrite H2.
    assert (H3 : starts_with (txt ")" ++ [nl])
                             (literal_part 3 template_PINMISSING) = true)
      by (vm_compute; reflexivity).
    apply starts_with_split in H3. rewrite H3.
    exists t1. eexists. rewrite <- !app_assoc. reflexivity.
  - do 7 apply occurs_app_r.
    assert (H4 : literal_part 4 template_PINMISSING = txt " dut (" ++ [nl])
      by (vm_compute; reflexivity).
    rewrite H4.
    assert (H5 : starts_with ([nl] ++ txt ");")
                             (literal_part 5 template_PINMISSING) = true)
      by (vm_compute; reflexivity).
    apply starts_with_split in H5. rewrite H5.
    exists []. eexists. rewrite <- !app_assoc. reflexivity.
Qed.

(** X9.  When the error summary names the category [PINMISSING] and one of
    its lines reports a missing pin, the targeted fixes open with the
    missing-connection block, filled in as follows: the sentence
    [You forgot to connect port '...'.] lists the reported pins, joined by
    a comma and a space, in the order of their lines; the required line is
    built from that same joined text; and the complete instantiation
    template is the module name of the descriptor followed by [ dut (],
    the instantiation list exactly as [generate_port_connections] makes it
    for the first prompt, and [);]. *)
Theorem missing_pin_fix_shows_the_instantiation :
  forall (error_summary : str) (p : ports),
    contains (txt "PINMISSING") error_summary = true ->
    parse_pinmissing_error error_summary <> [] ->
    exists more,
      collect_fixes error_summary p
      = Ok (filled_pinmissing
              (join (txt ", ") (parse_pinmissing_error error_summary))
              (module_name p) (generate_port_connections p) :: more)
      /\ generate_targeted_error_prompt error_summary p
         = Ok (join [nl; nl]
                 (filled_pinmissing
                    (join (txt ", ") (parse_pinmissing_error error_summary))
                    (module_name p) (generate_port_connections p) :: more))
      /\ occurs (txt "You forgot to connect port '"
                 ++ join (txt ", ") (parse_pinmissing_error error_summary)
                 ++ txt "'.")
                (join [nl; nl]
                   (filled_pinmissing
                      (join (txt ", ") (parse_pinmissing_error error_summary))
                      (module_name p) (generate_port_connections p) :: more))
      /\ occurs (txt "    ."
                 ++ join (txt ", ") (parse_pinmissing_error error_summary)
                 ++ txt "("
                 ++ join (txt ", ") (parse_pinmissing_error error_summary)
                 ++ txt ")" ++ [nl])
                (join [nl; nl]
                   (filled_pinmissing
                      (join (txt ", ") (parse_pinmissing_error error_summary))
                      (module_name p) (generate_port_connections p) :: more))
      /\ occurs (module_name p ++ txt " dut (" ++ [nl]
                 ++ generate_port_connections p ++ [nl] ++ txt ");")
                (join [nl; nl]
                   (filled_pinmissing
                      (join (txt ", ") (parse_pinmissing_error error_summary))
                      (module_name p) (generate_port_connections p) :: more)).
Proof.
  intros error_summary p Hc Hne.
  destruct (collect_fixes_blocks error_summary p)
    as (pin & wid & mod_ & Hcollect & Hpin & _).
  rewrite (pinmissing_fixes_block error_summary p [] Hc Hne) in Hpin.
  injection Hpin as <-. cbn [app] in Hcollect.
  rewrite syntax_fixes_nonempty in Hcollect by discriminate.
  exists (wid ++ mod_). split; [exact Hcollect|].
  split; [apply prompt_of_fixes; [exact Hcollect | discriminate]|].
  destruct (filled_pinmissing_parts
              (join (txt ", ") (parse_pinmissing_error error_summary))
              (module_name p) (generate_port_connections p))
    as (H1 & H2 & H3).
  repeat split; eapply occurs_join; try (left; reflexivity); assumption.
Qed.

(** The sample diagnostic on the scenario of the specification *)
Lemma missing_pin_fix_shows_the_instantiation_witness :
  exists prompt_,
    generate_targeted_error_prompt sample_diagnostic
      (extract_dut_ports (Some scenario_dut)) = Ok prompt_
    /\ occurs (txt "You forgot to connect port 'rst'.") prompt_
    /\ occurs (txt "m dut (" ++ [nl]
               ++ txt "        .data(data)," ++ [nl]
               ++ txt "        .clk(clk)," ++ [nl]
               ++ txt "        .rst(rst)," ++ [nl]
               ++ txt "        .out(out)" ++ [nl] ++ txt ");")
              prompt_.
Proof.
  destruct (missing_pin_fix_shows_the_instantiation sample_diagnostic
              (extract_dut_ports (Some scenario_dut)))
    as (more & _ & Hprompt & H1 & _ & H3).
  - vm_compute. reflexivity.
  - vm_compute. discriminate.
  - eexists. split; [exact Hprompt|]. split; [exact H1 | exact H3].
Defined.

(** ** The validator *)

Lemma occurs_trans (a b c : str) : occurs a b -> occurs b c -> occurs a c.
Proof.
  intros (x & y & ->) (u & v & ->). exists (u ++ x), (y ++ v).
  now rewrite <- !app_assoc.
Qed.

Lemma contains_iff_occurs (needle s : str) :
  contains needle s = true <-> occurs needle s.
Proof. split; [apply contains_occurs | apply occurs_contains]. Qed.

Lemma length_zero_nil (A : Type) (l : list A) :
  (length l =? 0) = true <-> l = [].
Proof.
  destruct l; cbn; split; intros H; try reflexivity; discriminate.
Qed.

Lemma port_issues_nil (tb_code : str) (ps : list port) :
  flat_map (port_issue tb_code) ps = []
  <-> forall q, In q ps -> contains (connection q) tb_code = true.
Proof.
  induction ps as [|q ps IH]; cbn [flat_map].
  - split; [intros _ q [] | reflexivity].
  - split.
    + intros H. apply app_eq_nil in H as [Hq Hps].
      intros q' [<- | Hin]; [|now apply IH].
      unfold port_issue in Hq. unfold connection.
      destruct (contains _ tb_code); [reflexivity | discriminate].
    + intros H. rewrite (proj2 IH) by (intros q' Hq'; apply H; now right).
      specialize (H q (or_introl eq_refl)).
      unfold connection in H. unfold port_issue. now rewrite H.
Qed.

Lemma connection_in_list (p : ports) (q : port) :
  In q (inputs p ++ outputs p) ->
  occurs (connection q) (generate_port_connections p).
Proof.
  intros Hin. rewrite generate_port_connections_join.
  eapply occurs_join.
  - apply in_map_iff. exists q. split; [reflexivity | exact Hin].
  - exists (txt "        "), []. now rewrite app_nil_r.
Qed.

(** X10.  The validator accepts a testbench exactly when the text contains
    [module tb_top], the connection [.name(name)] of every port of the
    descriptor, [$finish] and [endmodule]; it accepts exactly when it lists
    no issue; and a port whose connection is missing is named in the
    issues.  A text that contains [module tb_top], the instantiation list
    [generate_port_connections] makes for the descriptor, [$finish] and
    [endmodule] is accepted without issue. *)
Theorem validate_testbench_verdict :
  forall (tb_code : str) (p : ports),
    (fst (validate_testbench tb_code p) = true <->
     contains (txt "module tb_top") tb_code = true
     /\ (forall q, In q (inputs p ++ outputs p) ->
                   contains (connection q) tb_code = true)
     /\ contains (txt "$finish") tb_code = true
     /\ contains (txt "endmodule") tb_code = true)
    /\ (fst (validate_testbench tb_code p) = true <->
        snd (validate_testbench tb_code p) = [])
    /\ (forall q, In q (inputs p ++ outputs p) ->
                  contains (connection q) tb_code = false ->
                  In (txt "Port '" ++ fst q
                      ++ txt "' not connected in instantiation")
                     (snd (validate_testbench tb_code p)))
    /\ (occurs (txt "module tb_top") tb_code ->
        occurs (generate_port_connections p) tb_code ->
        occurs (txt "$finish") tb_code ->
        occurs (txt "endmodule") tb_code ->
        validate_testbench tb_code p = (true, [])).
Proof.
  intros tb_code p.
  assert (Hvalid :
            fst (validate_testbench tb_code p) = true <->
            snd (validate_testbench tb_code p) = []).
  { unfold validate_testbench. cbn [fst snd]. apply length_zero_nil. }
  assert (Hnil :
            snd (validate_testbench tb_code p) = [] <->
            contains (txt "module tb_top") tb_code = true
            /\ (forall q, In q (inputs p ++ outputs p) ->
                          contains (connection q) tb_code = true)
            /\ contains (txt "$finish") tb_code = true
            /\ contains (txt "endmodule") tb_code = true).
  { unfold validate_testbench. cbn [snd]. split.
    - intros H. apply app_eq_nil in H as [H H4].
      apply app_eq_nil in H as [H H3]. apply app_eq_nil in H as [H1 H2].
      pose proof (proj1 (port_issues_nil tb_code _) H2) as H2'.
      destruct (contains (txt "module tb_top") tb_code); [|discriminate].
      destruct (contains (txt "$finish") tb_code); [|discriminate].
      destruct (contains (txt "endmodule") tb_code); [|discriminate].
      auto.
    - intros (H1 & H2 & H3 & H4). rewrite H1, H3, H4.
      rewrite (proj2 (port_issues_nil tb_code _) H2). reflexivity. }
  split; [now rewrite Hvalid|]. split; [exact Hvalid|]. split.
  - intros q Hin Hq. unfold validate_testbench. cbn [snd].
    apply in_or_app; left. apply in_or_app; left. apply in_or_app; right.
    apply in_flat_map. exists q. split; [exact Hin|].
    unfold connection in Hq. unfold port_issue. rewrite Hq. now left.
  - intros H1 H2 H3 H4.
    assert (Hs : snd (validate_testbench tb_code p) = []).
    { apply Hnil. repeat split; try now apply occurs_contains.
      intros q Hin. apply occurs_contains.
      eapply occurs_trans; [apply connection_in_list, Hin | exact H2]. }
    pose proof (proj2 Hvalid Hs) as Hf.
    destruct (validate_testbench tb_code p) as [v issues].
    cbn [fst snd] in *. now subst.
Qed.

(** ** The user prompts *)

(** X11.  Formatting the user prompt never fails: every field of the two
    templates is among the variables [generate_testbench] supplies.  The
    first prompt is the descriptor as [format_port_info] lays it out, the
    signal declarations, the instantiation ([<module> dut (], the
    instantiation list, [);]) and the request, each under its heading and
    inserted as it is, followed by the fixed instructions.  A refined
    prompt opens with the error summary and the targeted fixes and goes on
    with the same four items.  The failing step is among the variables of
    a refined prompt, but no field of the template asks for it: the text
    does not depend on it. *)
Theorem user_prompt_always_formats :
  (forall (user_request : str) (p : ports) (f : features),
      formatted_user_prompt (FirstPrompt user_request p f)
      = Ok (txt "DUT SPECIFICATION:" ++ [nl]
            ++ format_port_info p ++ [nl; nl]
            ++ txt "Required Signal Declarations (COPY THIS EXACTLY):" ++ [nl]
            ++ generate_signal_declarations p ++ [nl; nl]
            ++ txt "Required Instantiation (COPY THIS EXACTLY):" ++ [nl]
            ++ module_name p ++ txt " dut (" ++ [nl]
            ++ generate_port_connections p ++ [nl] ++ txt ");" ++ [nl; nl]
            ++ txt "Test Description:" ++ [nl]
            ++ user_request
            ++ literal_part 5 TB_USER_PROMPT_FIRST))
  /\ (forall (user_request : str) (p : ports)
             (failing_step error_summary targeted_fixes : str),
      formatted_user_prompt
        (RefinedPrompt user_request p failing_step error_summary
                       targeted_fixes)
      = Ok (txt "PREVIOUS ATTEMPT FAILED. " ++ [nl; nl]
            ++ txt "ERROR DETAILS:" ++ [nl]
            ++ error_summary ++ [nl; nl]
            ++ txt "SPECIFIC FIXES REQUIRED:" ++ [nl]
            ++ targeted_fixes ++ [nl; nl]
            ++ txt "DUT SPECIFICATION (UNCHANGED):" ++ [nl]
            ++ format_port_info p ++ [nl; nl]
            ++ txt "CORRECT Signal Declarations (USE EXACTLY):" ++ [nl]
            ++ generate_signal_declarations p ++ [nl; nl]
            ++ txt "CORRECT Instantiation (USE EXACTLY):" ++ [nl]
            ++ module_name p ++ txt " dut (" ++ [nl]
            ++ generate_port_connections p ++ [nl] ++ txt ");" ++ [nl; nl]
            ++ txt "Test Description (same as before):" ++ [nl]
            ++ user_request
            ++ literal_part 7 TB_USER_PROMPT_REFINED))
  /\ starts_with ([nl; nl] ++ txt "INSTRUCTIONS:")
                 (literal_part 5 TB_USER_PROMPT_FIRST) = true
  /\ starts_with ([nl; nl] ++ txt "STEP-BY-STEP FIX:")
                 (literal_part 7 TB_USER_PROMPT_REFINED) = true.
Proof.
  split; [|split; [|split; vm_compute; reflexivity]].
  - intros user_request p f.
    unfold formatted_user_prompt, prompt_vars, user_prompt_template.
    generalize (format_port_info p), (generate_signal_declarations p),
      (module_name p), (generate_port_connections p).
    intros a b c d. vm_compute. reflexivity.
  - intros user_request p failing_step error_summary targeted_fixes.
    unfold formatted_user_prompt, prompt_vars, user_prompt_template.
    generalize (format_port_info p), (generate_signal_declarations p),
      (module_name p), (generate_port_connections p).
    intros a b c d. vm_compute. reflexivity.
Qed.

(** ** Formatting the fix templates *)

Lemma field_value_plain (name : str) (kw : kwargs) :
  match name with [] => false | c0 :: _ => negb (is_digit c0) end = true ->
  field_value name kw
  = match dict_get name kw with
    | Some v => Ok v
    | None => Raise (KeyError name)
    end.
Proof.
  destruct name as [|c0 name]; [discriminate|]. cbn [field_value].
  intros H. apply negb_true_iff in H. now rewrite H.
Qed.

(** Formatting a plain template either fills every field or stops at a
    field for which there is no keyword argument. *)
Lemma format_from_plain (kw : kwargs) (t : str) :
  forall field,
    plain_from field t = true ->
    (exists s,
        format_from kw field t = Ok s
        /\ forall f, In f (fields_from field t) -> dict_get f kw <> None)
    \/ (exists k,
           format_from kw field t = Raise (KeyError k)
           /\ In k (fields_from field t)
           /\ dict_get k kw = None).
Proof.
  induction t as [|c t IH]; intros field Hplain.
  - destruct field; [discriminate|]. left. exists []. split; [reflexivity|].
    intros f [].
  - cbn [plain_from format_from fields_from] in *.
    destruct field as [acc|].
    + destruct (Ascii.eqb c "}").
      * apply andb_true_iff in Hplain as [Hname Hrest].
        rewrite (field_value_plain _ kw Hname).
        destruct (dict_get (rev acc) kw) as [v|] eqn:Hget.
        -- destruct (IH None Hrest) as [(s & -> & Hs) | (k & -> & Hk & Hnone)].
           ++ left. exists (v ++ s). split; [reflexivity|].
              intros f [<- | Hf]; [congruence | now apply Hs].
           ++ right. exists k. split; [reflexivity|]. split; [now right|].
              exact Hnone.
        -- right. exists (rev acc). split; [reflexivity|].
           split; [now left | exact Hget].
      * apply andb_true_iff in Hplain as [Hw Hrest]. rewrite Hw.
        apply (IH (Some (c :: acc)) Hrest).
    + destruct (Ascii.eqb c "{") eqn:Hopen.
      * apply andb_true_iff in Hplain as [Hnext Hrest].
        destruct t as [|c2 t]; [discriminate|].
        apply negb_true_iff in Hnext. rewrite Hnext.
        apply (IH (Some []) Hrest).
      * apply andb_true_iff in Hplain as [Hclose Hrest].
        apply negb_true_iff in Hclose. rewrite Hclose.
        destruct (IH None Hrest) as [(s & -> & Hs) | (k & -> & Hk & Hnone)].
        -- left. exists (c :: s). split; [reflexivity | exact Hs].
        -- right. exists k. repeat split; assumption.
Qed.

Lemma plain_field_closes (t : str) :
  forall acc, plain_from (Some acc) t = true -> fields_from (Some acc) t <> [].
Proof.
  induction t as [|c t IH]; intros acc H; [discriminate|].
  cbn [plain_from fields_from] in *. destruct (Ascii.eqb c "}");
    [discriminate|].
  apply andb_true_iff in H as [_ H]. now apply IH.
Qed.

(** A plain template without field is returned as it is. *)
Lemma format_from_no_field (kw : kwargs) (t : str) :
  plain_from None t = true ->
  fields_from None t = [] ->
  format_from kw None t = Ok t.
Proof.
  induction t as [|c t IH]; intros Hplain Hfields; [reflexivity|].
  cbn [plain_from format_from fields_from] in *.
  destruct (Ascii.eqb c "{").
  - apply andb_true_iff in Hplain as [_ Hrest].
    now apply plain_field_closes in Hrest.
  - apply andb_true_iff in Hplain as [Hclose Hrest].
    apply negb_true_iff in Hclose. rewrite Hclose.
    now rewrite (IH Hrest Hfields).
Qed.

Lemma chosen_template_plain (error_type : str) :
  plain_template (chosen_template error_type) = true.
Proof.
  unfold chosen_template, ERROR_FIX_TEMPLATES. cbn [dict_get].
  repeat match goal with
         | |- context [if ?b then _ else _] => destruct b
         end; vm_compute; reflexivity.
Qed.

Lemma get_fix_unfold (error_type : str) (kw : kwargs) :
  get_fix_for_error_type error_type kw
  = match format (chosen_template error_type) kw with
    | Raise (KeyError _) => Ok (chosen_template error_type)
    | r => r
    end.
Proof. reflexivity. Qed.

(** X12.  [get_fix_for_error_type] never raises, whatever the error type
    and the keyword arguments.  It chooses the template of the error type,
    or the syntax-error template for an unknown type.  When every field of
    the chosen template has a keyword argument the result is the formatted
    template; as soon as one field has none the result is the whole
    template with no field filled in - never a partly filled text.  A
    template without field is returned as it is; such are the templates
    for width expansion, syntax errors and timing errors. *)
Theorem fix_template_filled_or_whole :
  forall (error_type : str) (kw : kwargs),
    (exists s, get_fix_for_error_type error_type kw = Ok s)
    /\ ((forall f, In f (template_fields (chosen_template error_type)) ->
                   dict_get f kw <> None) ->
        exists s, format (chosen_template error_type) kw = Ok s
                  /\ get_fix_for_error_type error_type kw = Ok s)
    /\ ((exists f, In f (template_fields (chosen_template error_type))
                   /\ dict_get f kw = None) ->
        get_fix_for_error_type error_type kw
        = Ok (chosen_template error_type))
    /\ (template_fields (chosen_template error_type) = [] ->
        get_fix_for_error_type error_type kw
        = Ok (chosen_template error_type))
    /\ (dict_get error_type ERROR_FIX_TEMPLATES = None ->
        get_fix_for_error_type error_type kw = Ok template_SYNTAX_ERROR)
    /\ template_fields template_PINMISSING
       = [txt "port"; txt "port"; txt "port"; txt "module_name";
          txt "port_connections"]
    /\ template_fields template_WIDTHTRUNC
       = [txt "port"; txt "expected_width"; txt "actual_width";
          txt "correct_declaration"]
    /\ template_fields template_WIDTHEXPAND = []
    /\ template_fields template_SIGNAL_UNDECLARED
       = [txt "signal"; txt "declaration"]
    /\ template_fields template_WIRE_REG_MISMATCH
       = [txt "corrected_declarations"]
    /\ template_fields template_MODULE_NOT_FOUND
       = [txt "module"; txt "correct_module_name"]
    /\ template_fields template_SYNTAX_ERROR = []
    /\ template_fields template_TIMING_ERROR = [].
Proof.
  intros error_type kw.
  pose proof (chosen_template_plain error_type) as Hplain.
  pose proof (format_from_plain kw (chosen_template error_type) None Hplain)
    as Hformat.
  fold (format (chosen_template error_type) kw) in Hformat.
  fold (template_fields (chosen_template error_type)) in Hformat.
  assert (Hno : template_fields (chosen_template error_type) = [] ->
                get_fix_for_error_type error_type kw
                = Ok (chosen_template error_type)).
  { intros Hfields. rewrite get_fix_unfold. unfold format.
    now rewrite (format_from_no_field kw _ Hplain Hfields). }
  split.
  { rewrite get_fix_unfold.
    destruct Hformat as [(s & -> & _) | (k & -> & _)]; eexists; reflexivity. }
  split.
  { intros Hall. rewrite get_fix_unfold.
    destruct Hformat as [(s & -> & _) | (k & _ & Hk & Hnone)].
    - exists s. split; reflexivity.
    - now apply Hall in Hk. }
  split.
  { intros (f & Hf & Hnone). rewrite get_fix_unfold.
    destruct Hformat as [(s & _ & Hs) | (k & -> & _)]; [|reflexivity].
    now apply Hs in Hf. }
  split; [exact Hno|].
  split.
  { intros Hunknown. rewrite Hno; unfold chosen_template; rewrite Hunknown;
      reflexivity. }
  repeat split; vm_compute; reflexivity.
Qed.

(** ** The error summary *)

Lemma lstrip_suffix (s : str) :
  exists pre, s = pre ++ lstrip s /\ forallb is_space pre = true.
Proof.
  induction s as [|c s (pre & IH & Hpre)]; [exists []; now split|].
  cbn [lstrip]. destruct (is_space c) eqn:Hc.
  - exists (c :: pre). cbn [app forallb]. rewrite Hc, Hpre.
    split; [now f_equal | reflexivity].
  - exists []. now split.
Qed.

Lemma no_newline_lstrip (s : str) : no_newline s -> no_newline (lstrip s).
Proof.
  intros H. destruct (lstrip_suffix s) as (pre & Hs & _). rewrite Hs in H.
  now apply no_newline_app in H.
Qed.

Lemma no_newline_strip (s : str) : no_newline s -> no_newline (strip s).
Proof.
  intros H. unfold strip.
  now apply no_newline_rev, no_newline_lstrip, no_newline_rev,
    no_newline_lstrip.
Qed.

Lemma occurs_lstrip (k s : str) (c0 : ascii) (k' : str) :
  k = c0 :: k' -> is_space c0 = false -> occurs k s -> occurs k (lstrip s).
Proof.
  intros -> Hc0. induction s as [|c s IH]; intros (a & b & Hs).
  - destruct a; discriminate.
  - cbn [lstrip]. destruct (is_space c) eqn:Hc; [|now exists a, b].
    destruct a as [|c1 a].
    + cbn [app] in Hs. injection Hs as -> _. congruence.
    + cbn [app] in Hs. injection Hs as _ ->. apply IH. now exists a, b.
Qed.

Lemma occurs_rev (k s : str) : occurs k s -> occurs (rev k) (rev s).
Proof.
  intros (a & b & ->). exists (rev b), (rev a).
  now rewrite !rev_app_distr, <- !app_assoc.
Qed.

(** Stripping a line keeps what lies between two characters that are not
    white space. *)
Lemma occurs_strip (k s : str) (c0 c1 : ascii) (k0 k1 : str) :
  k = c0 :: k0 -> is_space c0 = false ->
  k = k1 ++ [c1] -> is_space c1 = false ->
  occurs k s -> occurs k (strip s).
Proof.
  intros H0 Hc0 H1 Hc1 Hocc. unfold strip.
  rewrite <- (rev_involutive k). apply occurs_rev.
  apply occurs_lstrip with (c0 := c1) (k' := rev k1);
    [rewrite H1, rev_app_distr; reflexivity | exact Hc1 |].
  apply occurs_rev. eapply occurs_lstrip; eassumption.
Qed.

Lemma names_a_keyword_strip (line : str) :
  names_a_keyword line = true -> names_a_keyword (strip line) = true.
Proof.
  unfold names_a_keyword, error_keywords. cbn [existsb].
  rewrite !orb_true_iff. rewrite !contains_iff_occurs.
  intros [H | [H | [H | [H | H]]]]; [| | | |discriminate].
  - left. eapply occurs_strip with (k0 := txt "rror") (k1 := txt "Erro");
      try reflexivity; exact H.
  - right; left.
    eapply occurs_strip with (k0 := txt "arning") (k1 := txt "Warnin");
      try reflexivity; exact H.
  - right; right; left.
    eapply occurs_strip with (k0 := txt "INMISSING") (k1 := txt "PINMISSIN");
      try reflexivity; exact H.
  - right; right; right; left.
    eapply occurs_strip with (k0 := txt "IDTH") (k1 := txt "WIDT");
      try reflexivity; exact H.
Qed.

Lemma summary_errors (lines : list str) :
  flat_map
    (fun line =>
       if existsb (fun keyword => contains keyword line) error_keywords
       then if negb (contains (txt "verilator lint") (lower line))
            then [strip line] else []
       else [])
    lines
  = map strip (filter diagnostic_line lines).
Proof.
  induction lines as [|l lines IH]; [reflexivity|].
  cbn [flat_map filter]. unfold diagnostic_line at 1. rewrite IH.
  destruct (existsb _ error_keywords); [|reflexivity].
  destruct (negb _); reflexivity.
Qed.

Lemma extract_error_summary_unfold (res : results) (failing_step : str) :
  extract_error_summary res failing_step
  = match dict_get failing_step res with
    | None => txt "Unknown error"
    | Some r =>
        match map strip (filter diagnostic_line (split_lines (stderr r))) with
        | [] => firstn 500 (stderr r)
        | e :: errors => join [nl] (firstn 10 (e :: errors))
        end
    end.
Proof.
  unfold extract_error_summary. destruct (dict_get failing_step res);
    [|reflexivity].
  rewrite summary_errors.
  destruct (map strip (filter diagnostic_line (split_lines (stderr s))));
    reflexivity.
Qed.

Lemma In_firstn (A : Type) (n : nat) (l : list A) (x : A) :
  In x (firstn n l) -> In x l.
Proof.
  intros H. rewrite <- (firstn_skipn n l). apply in_or_app. now left.
Qed.

(** X13.  The error summary of a step that has no result is
    [Unknown error].  For a step with a result the summary is built from
    its error output: when no line holds a keyword ([Error], [Warning],
    [PINMISSING], [WIDTH]) without mentioning the lint banner, the summary
    is the first 500 characters of the error output; otherwise its lines
    are the first ten such lines, in their order, each stripped of the
    white space around it - so it has between one and ten lines, and each
    of its lines still holds one of the keywords. *)
Theorem error_summary_line_by_line :
  forall (res : results) (failing_step : str),
    (dict_get failing_step res = None ->
     extract_error_summary res failing_step = txt "Unknown error")
    /\ forall r,
         dict_get failing_step res = Some r ->
         (filter diagnostic_line (split_lines (stderr r)) = [] ->
          extract_error_summary res failing_step = firstn 500 (stderr r)
          /\ length (extract_error_summary res failing_step) <= 500)
         /\ (filter diagnostic_line (split_lines (stderr r)) <> [] ->
             split_lines (extract_error_summary res failing_step)
             = firstn 10 (map strip (filter diagnostic_line
                                            (split_lines (stderr r))))
             /\ 1 <= length (split_lines
                               (extract_error_summary res failing_step))
                  <= 10
             /\ Forall (fun l => names_a_keyword l = true)
                       (split_lines
                          (extract_error_summary res failing_step))).
Proof.
  intros res failing_step. rewrite extract_error_summary_unfold.
  split; [now intros ->|]. intros r ->. split.
  - intros ->. cbn [map]. split; [reflexivity | apply firstn_le_length].
  - intros Hne.
    destruct (filter diagnostic_line (split_lines (stderr r)))
      as [|l ls] eqn:Hf; [congruence|].
    assert (Hin : forall x, In x (l :: ls) ->
                            diagnostic_line x = true /\ no_newline x).
    { intros x Hx. rewrite <- Hf in Hx. apply filter_In in Hx as [Hx Hd].
      split; [exact Hd|].
      pose proof (split_lines_no_newline (stderr r)) as Hall.
      rewrite Forall_forall in Hall. now apply Hall. }
    cbn [map]. rewrite split_lines_join.
    + split; [reflexivity|]. split.
      * rewrite length_firstn. cbn [length]. lia.
      * apply Forall_forall. intros x Hx.
        apply In_firstn in Hx.
        change (strip l :: map strip ls) with (map strip (l :: ls)) in Hx.
        apply in_map_iff in Hx as (y & <- & Hy).
        destruct (Hin y Hy) as [Hd _]. unfold diagnostic_line in Hd.
        apply andb_true_iff in Hd as [Hd _].
        now apply names_a_keyword_strip.
    + discriminate.
    + apply Forall_forall. intros x Hx. apply In_firstn in Hx.
      change (strip l :: map strip ls) with (map strip (l :: ls)) in Hx.
      apply in_map_iff in Hx as (y & <- & Hy).
      apply no_newline_strip. now apply Hin.
Qed.

(** ** What the sanitizer returns *)

Lemma rfind_from_found (sub s : str) :
  forall i, occurs sub s -> rfind_from sub i s <> None.
Proof.
  induction s as [|c s IH]; intros i (a & b & Hs).
  - destruct a; [|discriminate]. destruct sub; [|discriminate].
    discriminate.
  - cbn [rfind_from]. destruct (rfind_from sub (S i) s) eqn:Hr;
      [discriminate|].
    destruct a as [|c1 a].
    + cbn [app] in Hs. rewrite Hs, starts_with_app. discriminate.
    + cbn [app] in Hs. injection Hs as _ ->.
      exfalso. apply (IH (S i)); [now exists a, b | exact Hr].
Qed.

Lemma find_some_occurs (sub s : str) (n : nat) :
  find sub s = Some n -> occurs sub s.
Proof.
  intros H. apply contains_occurs. unfold contains. now rewrite H.
Qed.

Lemma rfind_some_occurs (sub s : str) (n : nat) :
  rfind sub s = Some n -> occurs sub s.
Proof.
  intros H. apply rfind_from_spec in H as (_ & H).
  apply starts_with_split in H.
  exists (firstn (n - 0) s), (skipn (length sub) (skipn (n - 0) s)).
  rewrite <- H. now rewrite firstn_skipn.
Qed.

Lemma module_in_endmodule (s : str) :
  occurs (txt "endmodule") s -> occurs (txt "module") s.
Proof.
  intros (a & b & ->). exists (a ++ txt "end"), b.
  now rewrite <- !app_assoc.
Qed.

Lemma ends_with_newline_endmodule (q : str) :
  ends_with [nl] (q ++ txt "endmodule") = false.
Proof.
  change (txt "endmodule") with (txt "endmodul" ++ ["e"%char]).
  rewrite app_assoc. now rewrite ends_with_newline_app.
Qed.

Lemma ends_with_suffix (p a b : str) :
  ends_with p b = true -> ends_with p (a ++ b) = true.
Proof.
  intros H. apply ends_with_split in H as [t ->]. rewrite app_assoc.
  apply ends_with_app.
Qed.

(** The sanitizer accepts exactly the answers whose text, fences removed,
    contains [endmodule]. *)
Lemma sanitize_accepts (raw_code : str) :
  (exists clean, sanitize_verilog_code raw_code = Ok clean) <->
  contains (txt "endmodule") (strip_fences raw_code) = true.
Proof.
  unfold sanitize_verilog_code. split.
  - intros [clean H].
    destruct (find (txt "module") (strip_fences raw_code)); [|discriminate].
    destruct (rfind (txt "endmodule") (strip_fences raw_code)) eqn:Hr;
      [|discriminate].
    eapply occurs_contains, rfind_some_occurs, Hr.
  - intros H. apply contains_occurs in H.
    pose proof (module_in_endmodule _ H) as Hm.
    apply occurs_contains in Hm. unfold contains in Hm.
    destruct (find (txt "module") (strip_fences raw_code)); [|discriminate].
    pose proof (rfind_from_found _ _ 0 H) as Hr.
    unfold rfind.
    destruct (rfind_from (txt "endmodule") 0 (strip_fences raw_code));
      [|congruence].
    eexists; reflexivity.
Qed.

(** What the sanitizer returns: a piece of the text and a newline *)
Lemma sanitize_result (raw_code clean : str) :
  sanitize_verilog_code raw_code = Ok clean ->
  exists body,
    clean = body ++ [nl]
    /\ occurs body (strip_fences raw_code)
    /\ starts_with (txt "module") body = true
    /\ ends_with (txt "module") body = true
    /\ ends_with [nl] body = false
    /\ contains (txt "```") clean = false
    /\ (body = txt "module" \/ ends_with (txt "endmodule") body = true).
Proof.
  intros Hclean.
  pose proof (strip_fences_no_fence raw_code) as Hfence.
  pose proof Hclean as Hs. unfold sanitize_verilog_code in Hs.
  destruct (find (txt "module") (strip_fences raw_code)) as [start|] eqn:Hf;
    [|discriminate].
  destruct (rfind (txt "endmodule") (strip_fences raw_code))
    as [stop|] eqn:Hr; [|discriminate].
  destruct (Nat.lt_ge_cases start stop) as [Hlt | Hge].
  - destruct (@slice_between _ _ _ Hf Hr Hlt)
      as (q & Hslice & Hstart & before & after & Hcode).
    rewrite Hslice, ends_with_newline_endmodule in Hs.
    injection Hs as <-. exists (q ++ txt "endmodule").
    split; [reflexivity|].
    split; [now exists before, after|].
    split; [exact Hstart|].
    split; [apply ends_with_suffix; vm_compute; reflexivity|].
    split; [apply ends_with_newline_endmodule|].
    split; [|right; apply ends_with_app].
    apply no_fence_newline. rewrite Hcode in Hfence.
    eapply contains_part, Hfence.
  - destruct (@sanitize_module_inside_endmodule _ _ _ Hf Hr Hge)
      as [_ Hm].
    rewrite Hm in Hclean. injection Hclean as <-.
    exists (txt "module"). split; [reflexivity|].
    split; [eapply find_some_occurs, Hf|].
    repeat split; try (vm_compute; reflexivity). now left.
Qed.

(** X14.  The sanitizer accepts an answer exactly when the text left after
    removing the fences contains [endmodule]; the test for [module] adds
    nothing, the word being part of [endmodule].  What it returns is a
    piece of that text with one newline appended - the piece never ends
    with a newline itself: the piece begins with [module] and ends with
    [module], it holds no fence, and it is either the bare word [module]
    (cut out of the last [endmodule]) or runs to the end of the last
    [endmodule]. *)
Theorem sanitizer_result_shape :
  forall raw_code : str,
    ((exists clean, sanitize_verilog_code raw_code = Ok clean) <->
     contains (txt "endmodule") (strip_fences raw_code) = true)
    /\ forall clean,
         sanitize_verilog_code raw_code = Ok clean ->
         exists body,
           clean = body ++ [nl]
           /\ occurs body (strip_fences raw_code)
           /\ starts_with (txt "module") body = true
           /\ ends_with (txt "module") body = true
           /\ ends_with [nl] body = false
           /\ contains (txt "```") clean = false
           /\ (body = txt "module"
               \/ ends_with (txt "endmodule") body = true).
Proof.
  intros raw_code. split; [apply sanitize_accepts|].
  intros clean. apply sanitize_result.
Qed.

(** ** What a match tells about the text *)

Section Inversion.

Variable R : Type.
Variable k : str -> captures -> option R.
Variable v : R.

Lemma rmatch_rep_cls_inv (p : ascii -> bool) (s : str) (cs : captures) :
  rmatch (Rep true (Cls p)) s cs k = Some v ->
  exists w rest, s = w ++ rest /\ forallb p w = true /\ k rest cs = Some v.
Proof.
  induction s as [|x s IH].
  - rewrite rmatch_rep_nil. intros H. exists [], []. auto.
  - rewrite rmatch_rep_cls_cons. destruct (p x) eqn:Hx.
    + destruct (rmatch (Rep true (Cls p)) s cs k) as [v'|] eqn:Hr;
        cbn [orelse]; intros H.
      * injection H as ->. destruct (IH eq_refl) as (w & rest & -> & Hw & Hk).
        exists (x :: w), rest. cbn [forallb app]. rewrite Hx, Hw. auto.
      * exists [], (x :: s). auto.
    + cbn [orelse]. intros H. exists [], (x :: s). auto.
Qed.

Lemma rmatch_cat (r1 r2 : regex) (s : str) (cs : captures) :
  rmatch (Cat r1 r2) s cs k
  = rmatch r1 s cs (fun s1 c1 => rmatch r2 s1 c1 k).
Proof. reflexivity. Qed.

Lemma rmatch_plus_cls_inv (p : ascii -> bool) (s : str) (cs : captures) :
  rmatch (Plus (Cls p)) s cs k = Some v ->
  exists w rest,
    s = w ++ rest /\ w <> [] /\ forallb p w = true /\ k rest cs = Some v.
Proof.
  unfold Plus. rewrite rmatch_cat. destruct s as [|x s]; [discriminate|].
  change (rmatch (Cls p) (x :: s) cs
                 (fun s1 c1 => rmatch (Rep true (Cls p)) s1 c1 k))
    with (if p x then rmatch (Rep true (Cls p)) s cs k else None).
  destruct (p x) eqn:Hx; [|discriminate]. intros H.
  apply rmatch_rep_cls_inv in H as (w & rest & -> & Hw & Hk).
  exists (x :: w), rest. cbn [forallb app]. rewrite Hx, Hw.
  repeat split; try assumption. discriminate.
Qed.

End Inversion.

Section Steps.

Variable R : Type.
Variable k : str -> captures -> option R.
Variable v : R.

Lemma rmatch_grp_plus_inv (n : nat) (p : ascii -> bool) (s : str)
      (cs : captures) :
  rmatch (Grp n (Plus (Cls p))) s cs k = Some v ->
  exists w rest,
    s = w ++ rest /\ w <> [] /\ forallb p w = true
    /\ k rest ((n, w) :: cs) = Some v.
Proof.
  change (rmatch (Grp n (Plus (Cls p))) s cs k)
    with (rmatch (Plus (Cls p)) s cs
            (fun s1 c1 =>
               k s1 ((n, firstn (length s - length s1) s) :: c1))).
  intros H. apply rmatch_plus_cls_inv in H as (w & rest & -> & Hne & Hw & Hk).
  exists w, rest. repeat split; try assumption.
  rewrite length_app in Hk.
  replace (length w + length rest - length rest) with (length w) in Hk
    by lia.
  now rewrite firstn_app, firstn_all, Nat.sub_diag, app_nil_r in Hk.
Qed.

Lemma rmatch_chr_inv (c : ascii) (s : str) (cs : captures) :
  rmatch (Chr c) s cs k = Some v ->
  exists rest, s = c :: rest /\ k rest cs = Some v.
Proof.
  cbn [rmatch]. destruct s as [|x s]; [discriminate|].
  destruct (Ascii.eqb x c) eqn:H; [|discriminate].
  apply Ascii.eqb_eq in H. subst x. intros Hk. now exists s.
Qed.

Lemma rmatch_lit_inv (l s : str) (cs : captures) :
  rmatch (lit l) s cs k = Some v ->
  exists rest, s = l ++ rest /\ k rest cs = Some v.
Proof.
  rewrite rmatch_lit. destruct (starts_with l s) eqn:H; [|discriminate].
  apply starts_with_split in H. intros Hk.
  now exists (skipn (length l) s).
Qed.

End Steps.

(** The steps of a sequence, one pattern at a time *)
Ltac match_step H :=
  rewrite rmatch_cat in H;
  first
    [ apply rmatch_lit_inv in H as (? & -> & H)
    | apply rmatch_chr_inv in H as (? & -> & H)
    | apply rmatch_grp_plus_inv in H as (? & ? & -> & ? & ? & H)
    | apply rmatch_plus_cls_inv in H as (? & ? & -> & ? & ? & H) ].

Lemma word_has_no_colon (w : str) :
  forallb is_word w = true -> contains (txt ":") w = false.
Proof.
  intros H. apply contains_false_spec. intros m _.
  destruct (skipn m w) as [|c rest] eqn:Hs; [reflexivity|].
  assert (Hin : In c w).
  { rewrite <- (firstn_skipn m w), Hs. apply in_or_app. right. now left. }
  rewrite forallb_forall in H. specialize (H c Hin).
  cbn [starts_with]. change (txt ":") with [":"%char]. cbn [starts_with].
  destruct (Ascii.eqb ":" c) eqn:Hc; [|reflexivity].
  apply Ascii.eqb_eq in Hc. subst c. discriminate H.
Qed.

(** A match of a ranged pattern: the groups are two digit strings and a
    word, and the text reads direction, storage class, range and name. *)
Lemma ranged_pattern_inv (dir kind s rest : str) (cs : captures) :
  rmatch (ranged_pattern dir kind) s [] (fun rest cs => Some (rest, cs))
  = Some (rest, cs) ->
  exists sp1 sp2 sp3 h l w,
    cs = [(3, w); (2, l); (1, h)]
    /\ s = dir ++ sp1 ++ kind ++ sp2 ++ txt "[" ++ h ++ txt ":" ++ l
           ++ txt "]" ++ sp3 ++ w ++ rest
    /\ blank sp1 /\ blank sp2 /\ blank sp3
    /\ digit_string h /\ digit_string l /\ word_name w.
Proof.
  unfold ranged_pattern, spaces, digits, word. cbn [seq fold_right].
  intros H. do 11 match_step H.
  cbn [rmatch] in H. injection H as <- <-.
  eexists _, _, _, _, _, _. split; [reflexivity|].
  split; [reflexivity|]. repeat split; assumption.
Qed.

Lemma plain_pattern_inv (dir kind s rest : str) (cs : captures) :
  rmatch (plain_pattern dir kind) s [] (fun rest cs => Some (rest, cs))
  = Some (rest, cs) ->
  exists sp1 sp2 w,
    cs = [(1, w)]
    /\ s = dir ++ sp1 ++ kind ++ sp2 ++ w ++ rest
    /\ blank sp1 /\ blank sp2 /\ word_name w.
Proof.
  unfold plain_pattern, spaces, word. cbn [seq fold_right].
  intros H. do 5 match_step H.
  cbn [rmatch] in H. injection H as <- <-.
  eexists _, _, _. split; [reflexivity|].
  split; [reflexivity|]. repeat split; assumption.
Qed.

(** A match found by a search is a match at the head of some rest of the
    text. *)
Lemma search_from_inv (r : regex) (s : str) :
  forall (pos : nat) (m : rematch),
    search_from r pos s = Some m ->
    exists pre s' rest,
      s = pre ++ s'
      /\ rmatch r s' [] (fun rest cs => Some (rest, cs))
         = Some (rest, m_groups m).
Proof.
  induction s as [|c s IH]; intros pos m; cbn [search_from].
  - destruct (rmatch r [] [] (fun rest cs => Some (rest, cs)))
      as [[rest cs]|] eqn:H; [|discriminate].
    intros Hm. injection Hm as <-. exists [], [], rest. now split.
  - destruct (rmatch r (c :: s) [] (fun rest cs => Some (rest, cs)))
      as [[rest cs]|] eqn:H.
    + intros Hm. injection Hm as <-. exists [], (c :: s), rest. now split.
    + intros Hm. apply IH in Hm as (pre & s' & rest & -> & Hr).
      exists (c :: pre), s', rest. now split.
Qed.

Lemma finditer_from_inv (r : regex) (fuel : nat) :
  forall (pos : nat) (s : str) (m : rematch),
    In m (finditer_from fuel r pos s) ->
    exists pre s' rest,
      s = pre ++ s'
      /\ rmatch r s' [] (fun rest cs => Some (rest, cs))
         = Some (rest, m_groups m).
Proof.
  induction fuel as [|f IH]; intros pos s m; cbn [finditer_from];
    [intros []|].
  destruct (search_from r pos s) as [m0|] eqn:Hs; [|intros []].
  intros [<- | Hin]; [eapply search_from_inv, Hs|].
  set (step := if m_end m0 =? m_start m0 then S (m_end m0 - pos)
               else m_end m0 - pos) in Hin.
  destruct (length s <? step); [destruct Hin|].
  apply IH in Hin as (pre & s' & rest & Hskip & Hr).
  exists (firstn step s ++ pre), s', rest. split; [|exact Hr].
  rewrite <- app_assoc, <- Hskip. now rewrite firstn_skipn.
Qed.

Lemma finditer_inv (r : regex) (s : str) (m : rematch) :
  In m (finditer r s) ->
  exists pre s' rest,
    s = pre ++ s'
    /\ rmatch r s' [] (fun rest cs => Some (rest, cs))
       = Some (rest, m_groups m).
Proof. apply finditer_from_inv. Qed.

(** The port made of a match of a ranged pattern, and of a plain one *)
Lemma ranged_port (dir kind content : str) (m : rematch) :
  ngroups (ranged_pattern dir kind) = 3 ->
  (kind = txt "wire" \/ kind = txt "reg") ->
  In m (finditer (ranged_pattern dir kind) content) ->
  well_formed_port (port_of_match (ranged_pattern dir kind) m)
  /\ declared dir (port_of_match (ranged_pattern dir kind) m) content.
Proof.
  intros Hn Hkind Hin.
  apply finditer_inv in Hin as (pre & s' & rest & -> & Hr).
  apply ranged_pattern_inv in Hr
    as (sp1 & sp2 & sp3 & h & l & w & Hcs & -> & H1 & H2 & H3 & Hh & Hl & Hw).
  unfold port_of_match. rewrite Hn, Hcs. cbn [Nat.eqb group andb].
  rewrite (word_has_no_colon w (proj2 Hw)). cbn [negb].
  split.
  - split; [exact Hw|]. right. exists h, l. split; [reflexivity | split; assumption].
  - exists kind, sp1, sp2.
    split; [exact Hkind|]. split; [exact H1|]. split; [exact H2|].
    cbn [snd fst]. change (txt "[") with ["["%char]. cbn [app].
    exists sp3. split; [exact H3|]. exists pre, rest.
    rewrite <- !app_assoc. cbn [app]. rewrite <- !app_assoc.
    reflexivity.
Qed.

Lemma plain_port (dir kind content : str) (m : rematch) :
  ngroups (plain_pattern dir kind) = 1 ->
  (kind = txt "wire" \/ kind = txt "reg") ->
  In m (finditer (plain_pattern dir kind) content) ->
  well_formed_port (port_of_match (plain_pattern dir kind) m)
  /\ declared dir (port_of_match (plain_pattern dir kind) m) content.
Proof.
  intros Hn Hkind Hin.
  apply finditer_inv in Hin as (pre & s' & rest & -> & Hr).
  apply plain_pattern_inv in Hr as (sp1 & sp2 & w & Hcs & -> & H1 & H2 & Hw).
  unfold port_of_match. rewrite Hn, Hcs. cbn [Nat.eqb group andb].
  split.
  - split; [exact Hw|]. now left.
  - exists kind, sp1, sp2.
    split; [exact Hkind|]. split; [exact H1|]. split; [exact H2|].
    cbn [snd fst]. exists pre, rest. now rewrite <- !app_assoc.
Qed.

Lemma scan_inputs_sound (content : str) (q : port) :
  In q (scan input_patterns content) ->
  well_formed_port q /\ declared (txt "input") q content.
Proof.
  unfold scan, input_patterns. cbn [flat_map]. rewrite app_nil_r.
  rewrite !in_app_iff, !in_map_iff.
  intros [(m & <- & H) | [(m & <- & H) | [(m & <- & H) | (m & <- & H)]]].
  - apply ranged_port; [reflexivity | now left | exact H].
  - apply plain_port; [reflexivity | now left | exact H].
  - apply ranged_port; [reflexivity | now right | exact H].
  - apply plain_port; [reflexivity | now right | exact H].
Qed.

Lemma scan_outputs_sound (content : str) (q : port) :
  In q (scan output_patterns content) ->
  well_formed_port q /\ declared (txt "output") q content.
Proof.
  unfold scan, output_patterns. cbn [flat_map]. rewrite app_nil_r.
  rewrite !in_app_iff, !in_map_iff.
  intros [(m & <- & H) | [(m & <- & H) | [(m & <- & H) | (m & <- & H)]]].
  - apply ranged_port; [reflexivity | now left | exact H].
  - apply plain_port; [reflexivity | now left | exact H].
  - apply ranged_port; [reflexivity | now right | exact H].
  - apply plain_port; [reflexivity | now right | exact H].
Qed.

Lemma module_name_sound (content : str) (m : rematch) :
  search module_re content = Some m ->
  exists sp,
    blank sp /\ word_name (group 1 (m_groups m))
    /\ occurs (txt "module" ++ sp ++ group 1 (m_groups m)) content.
Proof.
  intros H. apply search_from_inv in H as (pre & s' & rest & -> & Hr).
  unfold module_re, spaces, word in Hr. cbn [seq fold_right] in Hr.
  rewrite rmatch_cat in Hr.
  apply rmatch_lit_inv in Hr as (s1 & -> & Hr).
  rewrite rmatch_cat in Hr.
  apply rmatch_plus_cls_inv in Hr as (sp & s2 & -> & Hsp1 & Hsp2 & Hr).
  rewrite rmatch_cat in Hr.
  apply rmatch_grp_plus_inv in Hr as (w & s3 & -> & Hw1 & Hw2 & Hr).
  cbn [rmatch] in Hr. injection Hr as <- Hcs.
  rewrite <- Hcs. cbn [group Nat.eqb].
  exists sp. split; [now split|]. split; [now split|].
  exists pre, s3. now rewrite <- !app_assoc.
Qed.

(** X15.  Whatever the text of the DUT file, the extractor invents
    nothing.  The module name is the default [my_dut] or a word that the
    text shows after [module] and white space.  Every input (every output)
    of the descriptor has a name that is a non-empty run of word
    characters and a width that is empty or reads [[h:l]] with two digit
    strings, and the text declares it: it holds [input] ([output]), white
    space, [wire] or [reg], white space, then the width and white space if
    the port has a width, then the name.  Without file the descriptor is
    the default name with no port. *)
Theorem extraction_invents_nothing :
  forall dut_file : option str,
    (module_name (extract_dut_ports dut_file) = txt "my_dut"
     \/ exists content sp,
          dut_file = Some content
          /\ blank sp
          /\ word_name (module_name (extract_dut_ports dut_file))
          /\ occurs (txt "module" ++ sp
                     ++ module_name (extract_dut_ports dut_file)) content)
    /\ (forall q,
           In q (inputs (extract_dut_ports dut_file)) ->
           well_formed_port q
           /\ exists content,
                dut_file = Some content /\ declared (txt "input") q content)
    /\ (forall q,
           In q (outputs (extract_dut_ports dut_file)) ->
           well_formed_port q
           /\ exists content,
                dut_file = Some content /\ declared (txt "output") q content)
    /\ extract_dut_ports None = MkPorts (txt "my_dut") [] [].
Proof.
  intros [content|]; cbn [extract_dut_ports module_name inputs outputs].
  - split; [|split; [|split; [|reflexivity]]].
    + destruct (search module_re content) as [m|] eqn:Hm; [|now left].
      right. destruct (module_name_sound content m Hm) as (sp & H1 & H2 & H3).
      exists content, sp. split; [reflexivity|]. split; [exact H1|].
      split; [exact H2 | exact H3].
    + intros q Hq. destruct (scan_inputs_sound content q Hq) as [H1 H2].
      split; [exact H1|]. now exists content.
    + intros q Hq. destruct (scan_outputs_sound content q Hq) as [H1 H2].
      split; [exact H1|]. now exists content.
  - split; [now left|]. split; [intros q []|]. split; [intros q []|].
    reflexivity.
Qed.

(** ** What the parsers of the diagnostics report *)

Lemma rmatch_rep_lazy_cls_cons (R : Type) (p : ascii -> bool) (x : ascii)
      (s : str) (cs : captures) (k : str -> captures -> option R) :
  rmatch (Rep false (Cls p)) (x :: s) cs k
  = orelse (k (x :: s) cs)
           (fun _ => if p x then rmatch (Rep false (Cls p)) s cs k else None).
Proof.
  cbn [rmatch length]. destruct (k (x :: s) cs); [reflexivity|].
  cbn [orelse]. destruct (p x); [|reflexivity].
  assert (H : (length s <? S (length s)) = true) by (apply Nat.ltb_lt; lia).
  rewrite H. reflexivity.
Qed.

Lemma rmatch_rep_lazy_cls_inv (R : Type) (k : str -> captures -> option R)
      (v : R) (p : ascii -> bool) (s : str) (cs : captures) :
  rmatch (Rep false (Cls p)) s cs k = Some v ->
  exists w rest, s = w ++ rest /\ forallb p w = true /\ k rest cs = Some v.
Proof.
  induction s as [|x s IH].
  - rewrite rmatch_rep_nil. intros H. exists [], []. auto.
  - rewrite rmatch_rep_lazy_cls_cons.
    destruct (k (x :: s) cs) as [v'|] eqn:Hk; cbn [orelse].
    + intros H. injection H as ->. exists [], (x :: s). auto.
    + destruct (p x) eqn:Hx; [|discriminate]. intros H.
      destruct (IH H) as (w & rest & -> & Hw & Hk').
      exists (x :: w), rest. cbn [forallb app]. rewrite Hx, Hw. auto.
Qed.

Lemma rmatch_plus_lazy_cls_inv (R : Type) (k : str -> captures -> option R)
      (v : R) (p : ascii -> bool) (s : str) (cs : captures) :
  rmatch (PlusLazy (Cls p)) s cs k = Some v ->
  exists w rest,
    s = w ++ rest /\ w <> [] /\ forallb p w = true /\ k rest cs = Some v.
Proof.
  unfold PlusLazy. rewrite rmatch_cat. destruct s as [|x s]; [discriminate|].
  change (rmatch (Cls p) (x :: s) cs
                 (fun s1 c1 => rmatch (Rep false (Cls p)) s1 c1 k))
    with (if p x then rmatch (Rep false (Cls p)) s cs k else None).
  destruct (p x) eqn:Hx; [|discriminate]. intros H.
  apply rmatch_rep_lazy_cls_inv in H as (w & rest & -> & Hw & Hk).
  exists (x :: w), rest. cbn [forallb app]. rewrite Hx, Hw.
  repeat split; try assumption. discriminate.
Qed.

Lemma quoted_name_inv (l s rest : str) (cs : captures) :
  rmatch (seq [lit l; Grp 1 word; Chr "'"]) s []
         (fun rest cs => Some (rest, cs))
  = Some (rest, cs) ->
  exists name,
    cs = [(1, name)] /\ word_name name /\ s = l ++ name ++ txt "'" ++ rest.
Proof.
  unfold word. cbn [seq fold_right]. intros H.
  rewrite rmatch_cat in H. apply rmatch_lit_inv in H as (s1 & -> & H).
  rewrite rmatch_cat in H.
  apply rmatch_grp_plus_inv in H as (w & s2 & -> & Hw1 & Hw2 & H).
  rewrite rmatch_cat in H. apply rmatch_chr_inv in H as (s3 & -> & H).
  cbn [rmatch] in H. injection H as <- <-.
  exists w. split; [reflexivity|]. split; [now split | reflexivity].
Qed.

Lemma search_quoted_name_inv (l s : str) (m : rematch) :
  search (seq [lit l; Grp 1 word; Chr "'"]) s = Some m ->
  word_name (group 1 (m_groups m))
  /\ occurs (l ++ group 1 (m_groups m) ++ txt "'") s.
Proof.
  intros H. apply search_from_inv in H as (pre & s' & rest & -> & Hr).
  apply quoted_name_inv in Hr as (name & -> & Hw & ->).
  cbn [group Nat.eqb]. split; [exact Hw|].
  exists pre, rest. now rewrite <- !app_assoc.
Qed.

Lemma bits_inv (s rest : str) (cs : captures) :
  rmatch bits_re s [] (fun rest cs => Some (rest, cs)) = Some (rest, cs) ->
  exists e mid a,
    cs = [(2, a); (1, e)]
    /\ digit_string e /\ digit_string a
    /\ mid <> [] /\ no_newline mid
    /\ s = e ++ txt " bits" ++ mid ++ a ++ txt " bits" ++ rest.
Proof.
  unfold bits_re, digits, Dot. cbn [seq fold_right]. intros H.
  rewrite rmatch_cat in H.
  apply rmatch_grp_plus_inv in H as (e & s1 & -> & He1 & He2 & H).
  rewrite rmatch_cat in H. apply rmatch_lit_inv in H as (s2 & -> & H).
  rewrite rmatch_cat in H.
  apply rmatch_plus_lazy_cls_inv in H as (mid & s3 & -> & Hm1 & Hm2 & H).
  rewrite rmatch_cat in H.
  apply rmatch_grp_plus_inv in H as (a & s4 & -> & Ha1 & Ha2 & H).
  rewrite rmatch_cat in H. apply rmatch_lit_inv in H as (s5 & -> & H).
  cbn [rmatch] in H. injection H as <- <-.
  exists e, mid, a. split; [reflexivity|]. split; [now split|].
  split; [now split|]. split; [exact Hm1|]. split; [exact Hm2|].
  reflexivity.
Qed.

Lemma flat_map_length_le (A B : Type) (f : A -> list B) (l : list A) :
  (forall x, length (f x) <= 1) -> length (flat_map f l) <= length l.
Proof.
  intros Hf. induction l as [|x l IH]; [reflexivity|].
  cbn [flat_map length]. rewrite length_app. specialize (Hf x). lia.
Qed.

(** X16.  The parsers of the diagnostics report only what the text says.
    Every pin that [parse_pinmissing_error] lists is a non-empty run of
    word characters that some line of the text names in the form
    [missing pin: '<name>']; a line contributes at most one pin, so there
    are at most as many pins as lines.  The port that [parse_width_error]
    reports is a word the text names in the form [port '<name>'].  The two
    widths are reported together or not at all; they are digit strings
    that the text shows as [<expected> bits], some text without newline,
    [<actual> bits]. *)
Theorem diagnostics_are_read_off_the_text :
  forall error_text : str,
    (forall name,
        In name (parse_pinmissing_error error_text) ->
        word_name name
        /\ exists line,
             In line (split_lines error_text)
             /\ occurs (txt "missing pin: '" ++ name ++ txt "'") line)
    /\ length (parse_pinmissing_error error_text)
       <= length (split_lines error_text)
    /\ (forall name,
           wi_port (parse_width_error error_text) = Some name ->
           word_name name
           /\ occurs (txt "port '" ++ name ++ txt "'") error_text)
    /\ (wi_expected_width (parse_width_error error_text) = None <->
        wi_actual_width (parse_width_error error_text) = None)
    /\ (forall e a,
           wi_expected_width (parse_width_error error_text) = Some e ->
           wi_actual_width (parse_width_error error_text) = Some a ->
           digit_string e /\ digit_string a
           /\ exists mid,
                mid <> [] /\ no_newline mid
                /\ occurs (e ++ txt " bits" ++ mid ++ a ++ txt " bits")
                          error_text).
Proof.
  intros error_text. split; [|split; [|split; [|split]]].
  - intros name Hin. unfold parse_pinmissing_error in Hin.
    apply in_flat_map in Hin as (line & Hline & Hname).
    destruct (search missing_pin_re line) as [m|] eqn:Hm; [|destruct Hname].
    destruct Hname as [<- | []].
    destruct (search_quoted_name_inv _ _ _ Hm) as [Hw Hocc].
    split; [exact Hw|]. now exists line.
  - apply flat_map_length_le. intros line.
    destruct (search missing_pin_re line); cbn [length]; lia.
  - intros name. unfold parse_width_error.
    destruct (search port_re error_text) as [m|] eqn:Hm;
      destruct (search bits_re error_text); cbn [wi_port];
      intros H; try discriminate; injection H as <-;
      exact (search_quoted_name_inv _ _ _ Hm).
  - unfold parse_width_error.
    destruct (search bits_re error_text); cbn; split; intros H;
      try discriminate; reflexivity.
  - intros e a. unfold parse_width_error.
    destruct (search bits_re error_text) as [m|] eqn:Hm;
      cbn [wi_expected_width wi_actual_width]; [|discriminate].
    intros He Ha. injection He as <-. injection Ha as <-.
    apply search_from_inv in Hm as (pre & s' & rest & -> & Hr).
    apply bits_inv in Hr as (e & mid & a & -> & He & Ha & Hm1 & Hm2 & ->).
    cbn [group Nat.eqb]. split; [exact He|]. split; [exact Ha|].
    exists mid. split; [exact Hm1|]. split; [exact Hm2|].
    exists pre, rest. now rewrite <- !app_assoc.
Qed.

(** ** The width features *)

Lemma width_re_here (h rest : str) :
  digit_string h ->
  search width_re (txt "[" ++ h ++ txt ":" ++ rest)
  = Some (MkMatch 0 (0 + (length (txt "[" ++ h ++ txt ":" ++ rest)
                          - length rest))
                  [(1, h)]).
Proof.
  intros [Hne Hd]. apply search_from_here.
  unfold width_re, digits. cbn [seq fold_right].
  change (txt "[") with ["["%char]. cbn [app]. rewrite rmatch_cat.
  cbn [rmatch]. cbn [Ascii.eqb Bool.eqb]. cbv iota.
  change (rmatch (Cat (Grp 1 (Plus (Cls is_digit))) (Cat (Chr ":") Eps))
                 (h ++ txt ":" ++ rest) []
                 (fun rest cs => Some (rest, cs)))
    with (rmatch (Plus (Cls is_digit)) (h ++ txt ":" ++ rest) []
            (fun s1 c1 =>
               rmatch (Cat (Chr ":") Eps) s1
                      ((1, firstn (length (h ++ txt ":" ++ rest) - length s1)
                                  (h ++ txt ":" ++ rest)) :: c1)
                      (fun rest cs => Some (rest, cs)))).
  apply rmatch_plus_cls_run; [exact Hne | exact Hd | reflexivity |].
  change (txt ":") with [":"%char]. cbn [app rmatch Ascii.eqb Bool.eqb].
  cbv iota. do 2 f_equal. f_equal. f_equal.
  rewrite length_app. cbn [length].
  replace (length h + S (length rest) - S (length rest)) with (length h)
    by lia.
  now rewrite firstn_app, firstn_all, Nat.sub_diag, app_nil_r.
Qed.

Lemma width_re_inv (w : str) (m : rematch) :
  search width_re w = Some m ->
  exists pre h rest,
    w = pre ++ txt "[" ++ h ++ txt ":" ++ rest
    /\ digit_string h /\ group 1 (m_groups m) = h.
Proof.
  intros H. apply search_from_inv in H as (pre & s' & rest & -> & Hr).
  unfold width_re, digits in Hr. cbn [seq fold_right] in Hr.
  rewrite rmatch_cat in Hr. apply rmatch_chr_inv in Hr as (s1 & -> & Hr).
  rewrite rmatch_cat in Hr.
  apply rmatch_grp_plus_inv in Hr as (h & s2 & -> & Hh1 & Hh2 & Hr).
  rewrite rmatch_cat in Hr. apply rmatch_chr_inv in Hr as (s3 & -> & Hr).
  cbn [rmatch] in Hr. injection Hr as <- Hcs. rewrite <- Hcs.
  exists pre, h, s3. split; [reflexivity|]. split; [now split | reflexivity].
Qed.

Lemma check_clock_keeps (l : list port) (f : features) :
  has_multibit (fold_left check_clock l f) = has_multibit f
  /\ max_width (fold_left check_clock l f) = max_width f
  /\ num_inputs (fold_left check_clock l f) = num_inputs f
  /\ num_outputs (fold_left check_clock l f) = num_outputs f.
Proof.
  revert f; induction l as [|q l IH]; intros f; [now repeat split|].
  cbn [fold_left]. destruct (IH (check_clock f q)) as (-> & -> & -> & ->).
  unfold check_clock.
  destruct (mem (lower (fst q)) clk_names);
    destruct (mem (lower (fst q)) rst_names); now repeat split.
Qed.

Lemma check_width_counts (l : list port) (f : features) :
  num_inputs (fold_left check_width l f) = num_inputs f
  /\ num_outputs (fold_left check_width l f) = num_outputs f.
Proof.
  revert f; induction l as [|q l IH]; intros f; [now split|].
  cbn [fold_left]. destruct (IH (check_width f q)) as (-> & ->).
  unfold check_width. destruct (snd q); now split.
Qed.

Lemma check_width_multibit (l : list port) (f : features) :
  has_multibit (fold_left check_width l f) = true <->
  has_multibit f = true \/ exists q, In q l /\ snd q <> [].
Proof.
  revert f; induction l as [|q l IH]; intros f; cbn [fold_left].
  - split; [now left | intros [H | (q & [] & _)]; exact H].
  - rewrite IH. unfold check_width. destruct (snd q) as [|c w] eqn:Hq.
    + split.
      * intros [H | (q' & Hin & Hne)]; [now left|].
        right. exists q'. split; [now right | exact Hne].
      * intros [H | (q' & [<- | Hin] & Hne)]; [now left | congruence|].
        right. now exists q'.
    + cbn [has_multibit]. split; [|now left].
      intros _. right. exists q. split; [now left|]. rewrite Hq. discriminate.
Qed.

Lemma check_width_grows (q : port) (f : features) :
  (max_width f <= max_width (check_width f q))%N.
Proof.
  unfold check_width. destruct (snd q); [reflexivity|].
  destruct (search width_re _); cbn [max_width]; lia.
Qed.

Lemma fold_check_width_grows (l : list port) (f : features) :
  (max_width f <= max_width (fold_left check_width l f))%N.
Proof.
  revert f; induction l as [|q l IH]; intros f; cbn [fold_left];
    [reflexivity|].
  etransitivity; [apply (check_width_grows q) | apply IH].
Qed.

Lemma check_width_covers (l : list port) :
  forall (f : features) (q : port) (h rest : str),
    In q l ->
    snd q = txt "[" ++ h ++ txt ":" ++ rest ->
    digit_string h ->
    (int_of h + 1 <= max_width (fold_left check_width l f))%N.
Proof.
  induction l as [|q0 l IH]; intros f q h rest Hin Hq Hh; [destruct Hin|].
  cbn [fold_left]. destruct Hin as [-> | Hin]; [|eapply IH; eassumption].
  etransitivity; [|apply fold_check_width_grows].
  unfold check_width. rewrite Hq.
  change (txt "[") with ["["%char]. cbn [app].
  change ("["%char :: h ++ txt ":" ++ rest)
    with (txt "[" ++ h ++ txt ":" ++ rest).
  rewrite (width_re_here h rest Hh). cbn [max_width m_groups group Nat.eqb].
  lia.
Qed.

Lemma check_width_attained (l : list port) :
  forall f : features,
    max_width (fold_left check_width l f) = max_width f
    \/ exists q pre h rest,
         In q l
         /\ snd q = pre ++ txt "[" ++ h ++ txt ":" ++ rest
         /\ digit_string h
         /\ max_width (fold_left check_width l f) = (int_of h + 1)%N.
Proof.
  induction l as [|q l IH]; intros f; cbn [fold_left]; [now left|].
  destruct (IH (check_width f q)) as [-> | (q' & pre & h & rest & Hin & H)].
  - unfold check_width. destruct (snd q) as [|c w] eqn:Hq; [now left|].
    destruct (search width_re (c :: w)) as [m|] eqn:Hm; [|now left].
    cbn [max_width].
    destruct (N.max_spec (max_width f) (int_of (group 1 (m_groups m)) + 1))
      as [[_ ->] | [_ ->]]; [|now left].
    right. apply width_re_inv in Hm as (pre & h & rest & Hw & Hh & ->).
    exists q, pre, h, rest. split; [now left|]. rewrite Hq.
    split; [exact Hw | split; [exact Hh | reflexivity]].
  - right. exists q', pre, h, rest. split; [now right | exact H].
Qed.

(** X17.  The width features of a descriptor, whatever its ports: the two
    counts are the lengths of the two lists; the multi-bit flag is set
    exactly when some input or output has a width; the maximum width is at
    least [h + 1] for every port whose width reads [[h:...] with a digit
    string [h] - whatever the lower bound, so that [[7:4]] counts as eight
    bits; it is either zero or [h + 1] for the digits [h] found in some
    port's width; and it is zero when the multi-bit flag is not set. *)
Theorem width_features_of_a_descriptor :
  forall p : ports,
    num_inputs (detect_port_features p) = length (inputs p)
    /\ num_outputs (detect_port_features p) = length (outputs p)
    /\ (has_multibit (detect_port_features p) = true <->
        exists q, In q (inputs p ++ outputs p) /\ snd q <> [])
    /\ (forall q h rest,
           In q (inputs p ++ outputs p) ->
           snd q = txt "[" ++ h ++ txt ":" ++ rest ->
           digit_string h ->
           (int_of h + 1 <= max_width (detect_port_features p))%N)
    /\ (max_width (detect_port_features p) = 0%N
        \/ exists q pre h rest,
             In q (inputs p ++ outputs p)
             /\ snd q = pre ++ txt "[" ++ h ++ txt ":" ++ rest
             /\ digit_string h
             /\ max_width (detect_port_features p) = (int_of h + 1)%N)
    /\ (has_multibit (detect_port_features p) = false ->
        max_width (detect_port_features p) = 0%N).
Proof.
  intros p. unfold detect_port_features.
  set (f0 := MkFeatures false false false 0 (length (inputs p))
                        (length (outputs p))).
  destruct (check_clock_keeps (inputs p) f0) as (Hm & Hw & Hi & Ho).
  set (f1 := fold_left check_clock (inputs p) f0) in *.
  destruct (check_width_counts (inputs p ++ outputs p) f1) as [Hi' Ho'].
  pose proof (check_width_multibit (inputs p ++ outputs p) f1) as Hmulti.
  pose proof (check_width_attained (inputs p ++ outputs p) f1) as Hattained.
  rewrite Hw in Hattained. rewrite Hm in Hmulti. cbn [f0 has_multibit max_width] in *.
  split; [now rewrite Hi', Hi|]. split; [now rewrite Ho', Ho|].
  split.
  { rewrite Hmulti. split; [intros [H | H]; [discriminate | exact H]|].
    intros H. now right. }
  split; [intros q h rest; apply check_width_covers|].
  split; [exact Hattained|].
  intros Hno. destruct Hattained as [H | (q & pre & h & rest & Hin & Hq & _)];
    [exact H|].
  assert (Hyes : has_multibit
                   (fold_left check_width (inputs p ++ outputs p) f1) = true).
  { apply Hmulti. right. exists q. split; [exact Hin|]. rewrite Hq.
    destruct pre; discriminate. }
  congruence.
Qed.

(** ** The blocks of the targeted fixes *)

Lemma pinmissing_fixes_cases (error_summary : str) (p : ports)
      (fixes : list str) :
  pinmissing_fixes error_summary p fixes
  = Ok (fixes
        ++ if contains (txt "PINMISSING") error_summary
           then match parse_pinmissing_error error_summary with
                | [] => []
                | _ :: _ =>
                    [filled_pinmissing
                       (join (txt ", ")
                             (parse_pinmissing_error error_summary))
                       (module_name p) (generate_port_connections p)]
                end
           else []).
Proof.
  destruct (contains (txt "PINMISSING") error_summary) eqn:Hc.
  - destruct (parse_pinmissing_error error_summary) as [|m ms] eqn:Hp.
    + unfold pinmissing_fixes. rewrite Hc, Hp. now rewrite app_nil_r.
    + rewrite <- Hp. apply pinmissing_fixes_block; [exact Hc|].
      rewrite Hp. discriminate.
  - unfold pinmissing_fixes. rewrite Hc. now rewrite app_nil_r.
Qed.

Lemma width_fixes_cases (error_summary : str) (p : ports)
      (fixes : list str) :
  width_fixes error_summary p fixes
  = Ok (fixes
        ++ if contains (txt "WIDTHTRUNC") error_summary
              || contains (txt "WIDTHEXPAND") error_summary
           then match wi_port (parse_width_error error_summary) with
                | Some port_name =>
                    [filled_widthtrunc port_name
                       (or_default
                          (wi_expected_width (parse_width_error error_summary))
                          (txt "N bits"))
                       (or_default
                          (wi_actual_width (parse_width_error error_summary))
                          (txt "M bits"))
                       (correct_declaration_for port_name
                          (lookup_width port_name (inputs p ++ outputs p)))]
                | None => [template_WIDTHTRUNC]
                end
           else []).
Proof.
  unfold width_fixes.
  destruct (contains (txt "WIDTHTRUNC") error_summary
            || contains (txt "WIDTHEXPAND") error_summary);
    [|now rewrite app_nil_r].
  destruct (wi_port (parse_width_error error_summary)); [|reflexivity].
  now rewrite get_fix_widthtrunc.
Qed.

Lemma module_fixes_cases (error_summary : str) (p : ports)
      (fixes : list str) :
  module_fixes error_summary p fixes
  = Ok (fixes
        ++ if contains (txt "Cannot find") error_summary
              && contains (txt "module") (lower error_summary)
           then [filled_module_not_found (txt "<module>") (module_name p)]
           else []).
Proof.
  unfold module_fixes.
  destruct (contains (txt "Cannot find") error_summary
            && contains (txt "module") (lower error_summary));
    [|now rewrite app_nil_r].
  now rewrite get_fix_module_not_found.
Qed.

(** X18.  The targeted fixes consist of at most three blocks, always in
    this order: the missing-connection block, present exactly when the
    summary names [PINMISSING] and a pin is parsed from it; the width
    block, present exactly when the summary names [WIDTHTRUNC] or
    [WIDTHEXPAND] - it is the width-mismatch template in both cases,
    filled in when a port is parsed and unfilled otherwise; and the
    module block, present exactly when the summary holds [Cannot find]
    and, in whatever letter case, [module] - it always speaks of the module
    [<module>] and gives the module name of the descriptor.  The blocks
    are joined by an empty line.  Without any block the result is the
    syntax-error template when the summary holds [Error] or [error], and
    the sentence [Review and fix the errors shown above.] otherwise.  No
    other template is ever used, and no exception is raised. *)
Theorem targeted_fixes_block_by_block :
  forall (error_summary : str) (p : ports),
  exists pin wid mod_ : list str,
    generate_targeted_error_prompt error_summary p
    = Ok (match pin ++ wid ++ mod_ with
          | [] =>
              if contains (txt "Error") error_summary
                 || contains (txt "error") error_summary
              then template_SYNTAX_ERROR
              else txt "Review and fix the errors shown above."
          | b :: bs => join [nl; nl] (b :: bs)
          end)
    /\ (pin = []
        \/ pin = [filled_pinmissing
                    (join (txt ", ") (parse_pinmissing_error error_summary))
                    (module_name p) (generate_port_connections p)])
    /\ (pin <> [] <->
        contains (txt "PINMISSING") error_summary = true
        /\ parse_pinmissing_error error_summary <> [])
    /\ (wid = [] \/ wid = [template_WIDTHTRUNC]
        \/ exists port_name expected actual,
             wid = [filled_widthtrunc port_name expected actual
                      (correct_declaration_for port_name
                         (lookup_width port_name (inputs p ++ outputs p)))])
    /\ (wid <> [] <->
        contains (txt "WIDTHTRUNC") error_summary
        || contains (txt "WIDTHEXPAND") error_summary = true)
    /\ (mod_ = []
        \/ mod_ = [filled_module_not_found (txt "<module>") (module_name p)])
    /\ (mod_ <> [] <->
        contains (txt "Cannot find") error_summary
        && contains (txt "module") (lower error_summary) = true).
Proof.
  intros error_summary p.
  pose proof (pinmissing_fixes_cases error_summary p []) as Hpin.
  cbn [app] in Hpin.
  match type of Hpin with _ = Ok ?x => set (pin := x) in * end.
  pose proof (width_fixes_cases error_summary p pin) as Hwid.
  match type of Hwid with _ = Ok (_ ++ ?x) => set (wid := x) in * end.
  pose proof (module_fixes_cases error_summary p (pin ++ wid)) as Hmod.
  match type of Hmod with _ = Ok (_ ++ ?x) => set (mod_ := x) in * end.
  exists pin, wid, mod_. split.
  - unfold generate_targeted_error_prompt, collect_fixes, bind.
    rewrite Hpin, Hwid, Hmod. rewrite <- app_assoc.
    destruct (pin ++ wid ++ mod_) as [|b bs]; cbn [syntax_fixes];
      [|reflexivity].
    destruct (contains (txt "Error") error_summary
              || contains (txt "error") error_summary); reflexivity.
  - subst pin wid mod_.
    destruct (contains (txt "PINMISSING") error_summary);
      destruct (parse_pinmissing_error error_summary) as [|m ms];
      destruct (contains (txt "WIDTHTRUNC") error_summary
                || contains (txt "WIDTHEXPAND") error_summary);
      destruct (wi_port (parse_width_error error_summary)) as [n|];
      destruct (contains (txt "Cannot find") error_summary
                && contains (txt "module") (lower error_summary));
      repeat match goal with
             | |- _ /\ _ => split
             | |- _ <-> _ => split
             | |- [] = [] \/ _ => left; reflexivity
             | |- [?x] = [] \/ [?x] = [?x] => right; reflexivity
             | |- [?x] = [] \/ [?x] = [?x] \/ _ =>
                 right; left; reflexivity
             | |- [filled_widthtrunc _ _ _ _] = [] \/ _ =>
                 right; right; eexists _, _, _; reflexivity
             | |- _ -> _ => intros
             | |- _ = _ => reflexivity
             | |- _ <> _ => discriminate
             | H : _ /\ _ |- _ => destruct H
             | H : ?x <> ?x |- _ => now destruct H
             | H : false = true |- _ => discriminate H
             end.
Qed.

Lemma lookup_width_absent (name : str) (ps : list port) :
  (forall q, In q ps -> fst q <> name) -> lookup_width name ps = [].
Proof.
  induction ps as [|[n w] ps IH]; intros H; [reflexivity|].
  cbn [lookup_width]. destruct (str_eqb n name) eqn:Hn.
  - apply str_eqb_eq in Hn. exfalso. apply (H (n, w)); [now left | exact Hn].
  - apply IH. intros q Hq. apply H. now right.
Qed.

Lemma correct_declaration_is_reg (name width : str) :
  starts_with (txt "reg ") (correct_declaration_for name width) = true
  /\ ends_with (name ++ txt ";") (correct_declaration_for name width) = true.
Proof.
  unfold correct_declaration_for. destruct width as [|c w].
  - split; [apply starts_with_app|].
    apply ends_with_suffix. exact (ends_with_app (name ++ txt ";") []).
  - split; [apply starts_with_app|].
    rewrite !app_assoc. rewrite <- (app_assoc _ name).
    apply ends_with_app.
Qed.

Lemma wire_line (q : port) :
  starts_with (txt "    wire ")
              (port_line (txt "    wire ") (txt "    wire          ")
                         (txt ";") q) = true
  /\ ends_with (fst q ++ txt ";")
               (port_line (txt "    wire ") (txt "    wire          ")
                          (txt ";") q) = true.
Proof.
  unfold port_line. destruct (snd q) as [|c w].
  - split; [|apply ends_with_suffix;
              exact (ends_with_app (fst q ++ txt ";") [])].
    change (txt "    wire          ")
      with (txt "    wire " ++ txt "         ").
    rewrite <- app_assoc. apply starts_with_app.
  - split; [apply starts_with_app|].
    rewrite !app_assoc. rewrite <- (app_assoc _ (fst q)).
    apply ends_with_app.
Qed.

Lemma output_line_in_declarations (p : ports) (q : port) :
  In q (outputs p) ->
  occurs (port_line (txt "    wire ") (txt "    wire          ") (txt ";") q)
         (generate_signal_declarations p).
Proof.
  intros Hin. unfold generate_signal_declarations.
  eapply occurs_join; [|exists [], []; now rewrite app_nil_r].
  apply in_or_app; right. apply in_or_app; right. apply in_or_app; right.
  apply in_map_iff. now exists q.
Qed.

Lemma filled_widthtrunc_declaration (a b c d : str) :
  occurs (txt "Declare the signal correctly:" ++ [nl] ++ txt "    "
          ++ d ++ [nl])
         (filled_widthtrunc a b c d).
Proof.
  unfold filled_widthtrunc. do 6 apply occurs_app_r.
  assert (H3 : ends_with (txt "Declare the signal correctly:" ++ [nl]
                          ++ txt "    ")
                         (literal_part 3 template_WIDTHTRUNC) = true)
    by (vm_compute; reflexivity).
  assert (H4 : starts_with [nl] (literal_part 4 template_WIDTHTRUNC) = true)
    by (vm_compute; reflexivity).
  pose proof (occurs_between _ d _ _ _ H3 H4) as H.
  now rewrite <- !app_assoc in H.
Qed.

(** X19.  When the summary names a width error and a port is parsed from
    it, the width block of the targeted fixes proposes, under [Declare the
    signal correctly:], a declaration that is always a [reg] declaration
    of that port: with the width the descriptor gives the first input or
    output of that name, and without width when no port has that name.
    This also holds when the port is an output of the DUT, for which the
    signal declarations of the prompt give a [wire] line. *)
Theorem width_fix_declares_a_reg :
  forall (error_summary : str) (p : ports) (name : str),
    contains (txt "WIDTHTRUNC") error_summary
    || contains (txt "WIDTHEXPAND") error_summary = true ->
    wi_port (parse_width_error error_summary) = Some name ->
    exists fixes prompt_ decl,
      collect_fixes error_summary p = Ok fixes
      /\ generate_targeted_error_prompt error_summary p = Ok prompt_
      /\ decl = correct_declaration_for name
                  (lookup_width name (inputs p ++ outputs p))
      /\ In (filled_widthtrunc name
               (or_default (wi_expected_width
                              (parse_width_error error_summary))
                           (txt "N bits"))
               (or_default (wi_actual_width
                              (parse_width_error error_summary))
                           (txt "M bits"))
               decl) fixes
      /\ occurs (txt "Declare the signal correctly:" ++ [nl] ++ txt "    "
                 ++ decl ++ [nl]) prompt_
      /\ starts_with (txt "reg ") decl = true
      /\ ends_with (name ++ txt ";") decl = true
      /\ (forall width,
             In (name, width) (inputs p ++ outputs p) ->
             NoDup (map fst (inputs p ++ outputs p)) ->
             decl = match width with
                    | [] => txt "reg " ++ name ++ txt ";"
                    | _ :: _ =>
                        txt "reg " ++ width ++ txt " " ++ name ++ txt ";"
                    end)
      /\ ((forall q, In q (inputs p ++ outputs p) -> fst q <> name) ->
          decl = txt "reg " ++ name ++ txt ";")
      /\ (forall width,
             In (name, width) (outputs p) ->
             exists line,
               occurs line (generate_signal_declarations p)
               /\ starts_with (txt "    wire ") line = true
               /\ ends_with (name ++ txt ";") line = true).
Proof.
  intros error_summary p name Hw Hport.
  destruct (collect_fixes_blocks error_summary p)
    as (pin & wid & mod_ & Hcollect & _ & Hwid & _).
  pose proof (width_fixes_cases error_summary p []) as Hcase.
  rewrite Hw, Hport, Hwid in Hcase. cbn [app] in Hcase.
  injection Hcase as ->.
  rewrite syntax_fixes_nonempty in Hcollect
    by (destruct pin; discriminate).
  set (decl := correct_declaration_for name
                 (lookup_width name (inputs p ++ outputs p))) in *.
  eexists. eexists. exists decl.
  split; [exact Hcollect|].
  split; [apply prompt_of_fixes;
          [exact Hcollect | destruct pin; discriminate]|].
  split; [reflexivity|].
  set (block := filled_widthtrunc name
                  (or_default (wi_expected_width
                                 (parse_width_error error_summary))
                              (txt "N bits"))
                  (or_default (wi_actual_width
                                 (parse_width_error error_summary))
                              (txt "M bits"))
                  decl) in *.
  assert (Hin : In block (pin ++ [block] ++ mod_)).
  { apply in_or_app; right. now left. }
  split; [exact Hin|].
  split; [eapply occurs_join; [exact Hin|];
          apply filled_widthtrunc_declaration|].
  destruct (correct_declaration_is_reg
              name (lookup_width name (inputs p ++ outputs p))) as [H1 H2].
  split; [exact H1|]. split; [exact H2|].
  split; [|split].
  - intros width Hq Hnodup. unfold decl.
    now rewrite (@lookup_width_unique _ _ _ Hq Hnodup).
  - intros Habsent. unfold decl. now rewrite lookup_width_absent.
  - intros width Hq. eexists.
    split; [apply output_line_in_declarations, Hq|].
    apply (wire_line (name, width)).
Qed.

(** The sample diagnostic on the scenario of the specification, and the
    same width error on the output *)
Lemma width_fix_declares_a_reg_witness :
  (exists prompt_,
      generate_targeted_error_prompt sample_diagnostic
        (extract_dut_ports (Some scenario_dut)) = Ok prompt_
      /\ occurs (txt "Declare the signal correctly:" ++ [nl]
                 ++ txt "    reg [7:0] data;" ++ [nl]) prompt_)
  /\ exists prompt_,
       generate_targeted_error_prompt
         (txt "%Warning-WIDTHEXPAND: port 'out' expects 8 bits")
         (extract_dut_ports (Some scenario_dut)) = Ok prompt_
       /\ occurs (txt "Declare the signal correctly:" ++ [nl]
                  ++ txt "    reg [7:0] out;" ++ [nl]) prompt_
       /\ occurs (txt "    wire [7:0]    out;")
                 (generate_signal_declarations
                    (extract_dut_ports (Some scenario_dut))).
Proof.
  split.
  - destruct (width_fix_declares_a_reg sample_diagnostic
                (extract_dut_ports (Some scenario_dut)) (txt "data"))
      as (fixes & prompt_ & decl & _ & Hprompt & Hdecl & _ & Hocc & _).
    + vm_compute. reflexivity.
    + vm_compute. reflexivity.
    + exists prompt_. split; [exact Hprompt|].
      vm_compute in Hdecl. subst decl. exact Hocc.
  - destruct (width_fix_declares_a_reg
                (txt "%Warning-WIDTHEXPAND: port 'out' expects 8 bits")
                (extract_dut_ports (Some scenario_dut)) (txt "out"))
      as (fixes & prompt_ & decl & _ & Hprompt & Hdecl & _ & Hocc & _).
    + vm_compute. reflexivity.
    + vm_compute. reflexivity.
    + exists prompt_. split; [exact Hprompt|].
      vm_compute in Hdecl. subst decl. split; [exact Hocc|].
      apply contains_occurs. vm_compute. reflexivity.
Defined.

(** ** The flows of a run *)

Section FlowsOfARun.

Variable World : Type.
Variable E : Env World.
Variable user_request mode : str.
Variable max_iterations : nat.

(** [Always] holds of the state all along the run, [Generated] right
    after a successful generation, [Q] of the results of every flow. *)
Variable Always Generated : state World -> Prop.
Variable Q : results -> Prop.

Hypothesis generation_keeps :
  forall iteration prev (st : state World),
    Always st ->
    Always (snd (generate_testbench E user_request iteration prev st))
    /\ forall g,
         fst (generate_testbench E user_request iteration prev st) = Ok g ->
         Generated (snd (generate_testbench E user_request iteration prev st)).

Hypothesis flow_keeps :
  forall st : state World,
    Always st -> Generated st ->
    Q (snd (fst (run_flow E mode st))) /\ Always (snd (run_flow E mode st)).

Hypothesis save_keeps :
  forall (log : run_log) (st : state World),
    Always st -> Always (snd (save E log st)).

Lemma flows_satisfy_finish (log : run_log) (status : str) (success : bool)
      (used : nat) (analysis : option str) :
  flows_satisfy Q log ->
  flows_satisfy Q (finish log status success used analysis).
Proof. intros H. exact H. Qed.

Lemma flows_satisfy_append (log : run_log) (il : iteration_log)
      (f : iteration_log -> iteration_log) :
  flows_satisfy Q log ->
  (forall sim, il_simulation (f il) = Some sim ->
               Q (sl_verilator_results sim)) ->
  flows_satisfy Q (update_last_iteration (append_iteration log il) f).
Proof.
  intros Hlog Hil il' sim Hin Hsim. rewrite iterations_update_last in Hin.
  apply in_app_iff in Hin as [Hin | [<- | []]]; [|now apply Hil].
  eapply Hlog; eassumption.
Qed.

Lemma flows_satisfy_append_plain (log : run_log) (il : iteration_log) :
  flows_satisfy Q log ->
  (forall sim, il_simulation il = Some sim -> Q (sl_verilator_results sim)) ->
  flows_satisfy Q (append_iteration log il).
Proof.
  intros Hlog Hil il' sim Hin Hsim. rewrite iterations_append in Hin.
  apply in_app_iff in Hin as [Hin | [<- | []]]; [|now apply Hil].
  eapply Hlog; eassumption.
Qed.

Lemma refine_loop_flows (its : list nat) :
  forall (log : run_log) (prev : option previous_error)
         (final_analysis : str) (last : option (str * results))
         (st : state World),
    Always st ->
    flows_satisfy Q log ->
    (forall failing res, last = Some (failing, res) -> Q res) ->
    exists log',
      Always (snd (refine_loop E user_request mode max_iterations its log
                               prev final_analysis last st))
      /\ memory_saved
           (snd (snd (refine_loop E user_request mode max_iterations its log
                                  prev final_analysis last st)))
         = memory_saved (snd st) ++ [log']
      /\ flows_satisfy Q log'
      /\ forall success failing res analysis n,
           fst (refine_loop E user_request mode max_iterations its log prev
                            final_analysis last st)
           = Ok (success, failing, res, analysis, n) ->
           failing = txt "testbench_generation" /\ res = [] \/ Q res.
Proof.
  induction its as [|iteration rest IH];
    intros log prev final_analysis last st Hst Hlog Hlast.
  - rewrite refine_loop_nil. unfold bindM.
    pose proof (save_keeps (finish log (txt "max_iterations_reached") false
                                   max_iterations (Some final_analysis))
                           st Hst) as Hsaved.
    rewrite save_run in *. cbn [snd] in Hsaved.
    eexists. split; [destruct last as [[f r]|]; exact Hsaved|].
    split; [destruct last as [[f r]|]; cbn [snd ret];
            rewrite memory_saved_app; reflexivity|].
    split; [exact Hlog|].
    intros success failing res analysis n.
    destruct last as [[f r]|]; cbn [fst ret]; intros H; [|discriminate].
    injection H as _ <- <- _ _. right. eapply Hlast. reflexivity.
  - destruct (generation_keeps iteration prev st Hst) as [Hst1 Hgen].
    destruct (generate_testbench_cases World E user_request iteration prev st)
      as (q & _ & _ & Hsaved1 & _).
    destruct (generate_testbench E user_request iteration prev st)
      as [[g|e] st1] eqn:Hg; cbn [fst snd] in Hst1, Hgen, Hsaved1.
    + specialize (Hgen g eq_refl).
      destruct (flow_keeps st1 Hst1 Hgen) as [Hres Hst2].
      destruct (run_flow E mode st1) as [[[success failing] res] st2] eqn:Hf.
      cbn [fst snd] in Hres, Hst2.
      pose proof (run_flow_fail_fast E mode st1 Hf)
        as (k & _ & _ & _ & Hsaved2 & _).
      destruct success.
      * rewrite (refine_loop_verified _ _ _ _ _ _ _ _ _ _ _ _ _ _ _ _ _
                   Hg Hf), save_run.
        eexists. split; [apply (save_keeps _ st2 Hst2)|].
        split; [cbn [snd]; rewrite memory_saved_app, Hsaved2, Hsaved1;
                reflexivity|].
        split.
        { apply flows_satisfy_finish, flows_satisfy_append_plain;
            [exact Hlog|].
          intros sim Hsim. injection Hsim as <-. exact Hres. }
        intros success failing' res' analysis n H. cbn [fst] in H.
        injection H as _ _ <- _ _. now right.
      * rewrite (refine_loop_rejected _ _ _ _ _ _ _ _ _ _ _ _ _ _ _ _ _
                   Hg Hf).
        match goal with
        | |- context [refine_loop E _ _ _ rest ?l ?p ?a ?x st2] =>
            destruct (IH l p a x st2 Hst2) as (log' & H1 & H2 & H3 & H4)
        end.
        { apply flows_satisfy_append; [exact Hlog|].
          intros sim Hsim.
          destruct (iteration <? max_iterations - 1); injection Hsim as <-;
            exact Hres. }
        { intros f r H. injection H as <- <-. exact Hres. }
        exists log'. split; [exact H1|].
        split; [rewrite H2, Hsaved2, Hsaved1; reflexivity|].
        split; [exact H3 | exact H4].
    + rewrite (refine_loop_generation_failed _ _ _ _ _ _ _ _ _ _ _ _ _ _
                 Hg), save_run.
      eexists. split; [apply (save_keeps _ st1 Hst1)|].
      split; [cbn [snd]; rewrite memory_saved_app, Hsaved1; reflexivity|].
      split.
      { apply flows_satisfy_finish, flows_satisfy_append_plain;
          [exact Hlog | discriminate]. }
      intros success failing res analysis n H. cbn [fst] in H.
      injection H as _ <- <- _ _. now left.
Qed.

End FlowsOfARun.

Section FilesOfAFlow.

Variable World : Type.
Variable E : Env World.
Hypothesis files_kept : keeps_files E.

Lemma run_cmd_keeps (path : str) (command : list str) (name : str)
      (st : state World) :
  readable E path (fst st) ->
  readable E path (fst (snd (_run_cmd E command name st))).
Proof.
  intros H. rewrite run_cmd_eq. cbv zeta. cbn [fst snd].
  now apply (kept_by_write files_kept), (kept_by_tool files_kept).
Qed.

(** A check that finds its files runs the tool and removes no file. *)
Lemma check_with_files (name : str) (st : state World) :
  In name [txt "compile_dut"; txt "elaborate_dut"; txt "compile_tb";
           txt "run_simulation"] ->
  readable E (dut_file E) (fst st) ->
  readable E (tb_file E) (fst st) ->
  reports_missing_file (fst (check_named E name st)) = false
  /\ forall path,
       readable E path (fst st) ->
       readable E path (fst (snd (check_named E name st))).
Proof.
  intros Hname Hdut Htb. unfold readable in Hdut, Htb.
  destruct Hname as [<- | [<- | [<- | [<- | []]]]].
  - rewrite check_named_compile_dut, compile_dut_eq.
    destruct (read_text E (dut_file E) (fst st)); [|congruence].
    split; [rewrite run_cmd_eq; reflexivity|].
    intros path Hp. now apply run_cmd_keeps.
  - rewrite check_named_elaborate_dut, elaborate_dut_eq.
    destruct (read_text E (dut_file E) (fst st)); [|congruence].
    split; [rewrite run_cmd_eq; reflexivity|].
    intros path Hp. now apply run_cmd_keeps.
  - rewrite check_named_compile_tb, compile_tb_eq.
    destruct (read_text E (tb_file E) (fst st)); [|congruence].
    destruct (read_text E (dut_file E) (fst st)); [|congruence].
    split; [rewrite run_cmd_eq; reflexivity|].
    intros path Hp. now apply run_cmd_keeps.
  - rewrite check_named_run_simulation, run_simulation_eq.
    split; [reflexivity|]. intros path Hp. exact Hp.
Qed.

Lemma spec_driver_with_files (names : list str) :
  (forall n, In n names ->
             In n [txt "compile_dut"; txt "elaborate_dut"; txt "compile_tb";
                   txt "run_simulation"]) ->
  forall (gathered : results) (st : state World),
    readable E (dut_file E) (fst st) ->
    readable E (tb_file E) (fst st) ->
    no_file_missing gathered ->
    no_file_missing (snd (fst (spec_driver E names gathered st)))
    /\ forall path,
         readable E path (fst st) ->
         readable E path (fst (snd (spec_driver E names gathered st))).
Proof.
  induction names as [|name rest IH]; intros Hnames gathered st Hdut Htb Hg.
  - split; [exact Hg | intros path Hp; exact Hp].
  - cbn [spec_driver]. unfold bindM.
    destruct (check_with_files name st (Hnames name (or_introl eq_refl))
                               Hdut Htb) as [Hr Hkept].
    destruct (check_named E name st) as [r st1]. cbn [fst snd] in Hr, Hkept.
    assert (Hg' : no_file_missing (gathered ++ [(name, r)])).
    { intros n r' Hin. apply in_app_iff in Hin as [Hin | [Hin | []]].
      - eapply Hg, Hin.
      - now injection Hin as _ <-. }
    destruct (failed r).
    + split; [exact Hg' | exact Hkept].
    + destruct (IH (fun n Hn => Hnames n (or_intror Hn))
                   (gathered ++ [(name, r)]) st1
                   (Hkept _ Hdut) (Hkept _ Htb) Hg') as [H1 H2].
      split; [exact H1|]. intros path Hp. now apply H2, Hkept.
Qed.

Lemma run_flow_with_files (mode : str) (st : state World) :
  readable E (dut_file E) (fst st) ->
  readable E (tb_file E) (fst st) ->
  no_file_missing (snd (fst (run_flow E mode st)))
  /\ forall path,
       readable E path (fst st) ->
       readable E path (fst (snd (run_flow E mode st))).
Proof.
  intros Hdut Htb. rewrite run_flow_refines_spec.
  apply spec_driver_with_files; try assumption.
  - intros n Hn. eapply spec_checks_known, Hn.
  - intros n r [].
Qed.

Lemma generate_testbench_with_files (user_request : str) (iteration : nat)
      (prev : option previous_error) (st : state World) :
  (forall path,
      readable E path (fst st) ->
      readable E path
        (fst (snd (generate_testbench E user_request iteration prev st))))
  /\ forall g,
       fst (generate_testbench E user_request iteration prev st) = Ok g ->
       readable E (tb_file E)
         (fst (snd (generate_testbench E user_request iteration prev st))).
Proof.
  destruct (generate_testbench_unfold E user_request iteration prev st)
    as (q & _ & ->).
  pose proof (kept_by_model files_kept) as Hmodel.
  specialize (fun path => Hmodel path q (fst st)).
  destruct (llm_invoke E q (fst st)) as [[raw_tb | e] w1]; cbn [snd] in Hmodel.
  - destruct (sanitize_verilog_code raw_tb) as [tb_code | e]; cbn [fst snd].
    + split.
      * intros path Hp. now apply (kept_by_write files_kept), Hmodel.
      * intros g _. apply (written_is_readable files_kept).
    + split; [exact Hmodel | discriminate].
  - cbn [fst snd]. split; [exact Hmodel | discriminate].
Qed.

End FilesOfAFlow.

(** X20.  In surroundings where no operation removes a file and a written
    file can be read, a run that starts with the DUT file in place never
    meets a missing file: the testbench is written before each flow, so in
    every flow the log records, and in the results the run returns, no
    result is the report of a missing file - each is the result of a tool
    run or of the placeholder simulation.  This holds for every mode and
    every number of iterations, whatever the model answers and the tool
    reports. *)
Theorem no_file_is_missing_in_a_run :
  forall (World : Type) (E : Env World) (user_request mode : str)
         (max_iterations : nat) (st : state World),
    keeps_files E ->
    readable E (dut_file E) (fst st) ->
    exists log,
      memory_saved
        (snd (snd (run_with_refinement E user_request mode max_iterations
                                       st)))
      = memory_saved (snd st) ++ [log]
      /\ flows_satisfy no_file_missing log
      /\ (forall success failing res analysis n,
             fst (run_with_refinement E user_request mode max_iterations st)
             = Ok (success, failing, res, analysis, n) ->
             no_file_missing res)
      /\ readable E (dut_file E)
           (fst (snd (run_with_refinement E user_request mode max_iterations
                                          st))).
Proof.
  intros World E user_request mode max_iterations st Hkeeps Hdut.
  unfold run_with_refinement.
  destruct (refine_loop_flows World E user_request mode max_iterations
              (fun s => readable E (dut_file E) (fst s))
              (fun s => readable E (tb_file E) (fst s))
              no_file_missing)
    with (its := range max_iterations)
         (log := MkRun user_request mode max_iterations [] None None None
                       None)
         (prev := @None previous_error) (final_analysis := @nil ascii)
         (last := @None (str * results)) (st := st)
    as (log & Hfinal & Hsaved & Hflows & Hres).
  - intros iteration prev s Hs.
    destruct (generate_testbench_with_files World E Hkeeps user_request
                iteration prev s) as [H1 H2].
    split; [now apply H1 | exact H2].
  - intros s Hs Hg.
    destruct (run_flow_with_files World E Hkeeps mode s Hs Hg) as [H1 H2].
    split; [exact H1 | now apply H2].
  - intros log s Hs. rewrite save_run. cbn [fst snd].
    now apply (kept_by_memory Hkeeps).
  - exact Hdut.
  - intros il sim [].
  - discriminate.
  - exists log. split; [exact Hsaved|]. split; [exact Hflows|].
    split; [|exact Hfinal].
    intros success failing res analysis n H.
    destruct (Hres _ _ _ _ _ H) as [[_ ->] | Hq]; [intros n0 r [] | exact Hq].
Qed.

Lemma accepting_keeps_files (answer : str) : keeps_files (accepting answer).
Proof. constructor; intros; discriminate. Qed.

(** A run in which both files are there and the tool accepts everything *)
Lemma no_file_is_missing_in_a_run_witness :
  exists log,
    memory_saved
      (snd (snd (run_with_refinement
                   (accepting (txt "module tb_top; endmodule"))
                   (txt "count up") (txt "full_sim") 3 (tt, []))))
    = [log]
    /\ flows_satisfy no_file_missing log
    /\ readable (accepting (txt "module tb_top; endmodule"))
                (txt "rtl/my_dut.v") tt.
Proof.
  destruct (no_file_is_missing_in_a_run unit
              (accepting (txt "module tb_top; endmodule")) (txt "count up")
              (txt "full_sim") 3 (tt, [])
              (accepting_keeps_files (txt "module tb_top; endmodule")))
    as (log & Hsaved & Hflows & _ & _).
  - discriminate.
  - exists log. split; [exact Hsaved|]. split; [exact Hflows | discriminate].
Defined.

Section WithoutDut.

Variable World : Type.
Variable E : Env World.
Hypothesis no_dut : forall w, read_text E (dut_file E) w = None.



End WithoutDut.



(** ** The layout of the listings *)

Lemma spaces_only_repeat (n : nat) : spaces_only (repeat " "%char n).
Proof. induction n as [|n IH]; [reflexivity | exact IH]. Qed.

Lemma spaces_only_app (a b : str) :
  spaces_only a -> spaces_only b -> spaces_only (a ++ b).
Proof.
  unfold spaces_only. intros Ha Hb. now rewrite forallb_app, Ha, Hb.
Qed.

(** A port line: the head, the width padded with spaces to nine columns,
    the name, the tail *)
Lemma port_line_layout (ranged_head plain_head tail : str) (q : port) :
  plain_head = ranged_head ++ repeat " "%char 9 ->
  length (snd q) <= 8 ->
  port_line ranged_head plain_head tail q
  = ranged_head ++ snd q ++ repeat " "%char (9 - length (snd q))
    ++ fst q ++ tail.
Proof.
  intros -> Hlen. unfold port_line. destruct (snd q) as [|c w] eqn:Hw.
  - now rewrite <- app_assoc.
  - unfold pad. rewrite <- !app_assoc. do 2 f_equal.
    replace (9 - length (c :: w)) with (S (8 - length (c :: w))) by lia.
    cbn [repeat]. rewrite repeat_cons, <- app_assoc. reflexivity.
Qed.

Lemma occurs_in_lines (line : str) (lines : list str) :
  In line lines -> occurs line (join [nl] lines).
Proof.
  intros H. eapply occurs_join; [exact H|]. exists [], [].
  now rewrite app_nil_r.
Qed.

(** X22.  The three listings of the ports lay a port out in the same way.
    For a port whose width has at most eight characters (none included)
    the signal declarations of the prompt, the corrected declarations and
    the port information each hold the line made of their head - [reg] for
    an input and [wire] for an output in the two declaration listings,
    [input wire] and [output] in the port information -, the width padded
    with spaces to nine columns, and the name, with a semicolon in the
    declarations: the names of a listing start in one column, whether the
    port has a width or not. *)
Theorem listings_share_one_layout :
  forall (p : ports) (q : port),
    length (snd q) <= 8 ->
    (In q (inputs p) ->
     occurs (txt "    reg  " ++ snd q
             ++ repeat " "%char (9 - length (snd q)) ++ fst q ++ txt ";")
            (generate_signal_declarations p)
     /\ occurs (txt "reg  " ++ snd q
                ++ repeat " "%char (9 - length (snd q)) ++ fst q ++ txt ";")
               (generate_corrected_declarations p)
     /\ occurs (txt "  - input wire " ++ snd q
                ++ repeat " "%char (9 - length (snd q)) ++ fst q)
               (format_port_info p))
    /\ (In q (outputs p) ->
        occurs (txt "    wire " ++ snd q
                ++ repeat " "%char (9 - length (snd q)) ++ fst q ++ txt ";")
               (generate_signal_declarations p)
        /\ occurs (txt "wire " ++ snd q
                   ++ repeat " "%char (9 - length (snd q)) ++ fst q
                   ++ txt ";")
                  (generate_corrected_declarations p)
        /\ occurs (txt "  - output " ++ snd q
                   ++ repeat " "%char (9 - length (snd q)) ++ fst q)
                  (format_port_info p)).
Proof.
  intros p q Hlen. split; intros Hin; (split; [|split]).
  - rewrite <- (port_line_layout (txt "    reg  ") (txt "    reg           ")
                                 (txt ";") q eq_refl
                                 Hlen).
    apply occurs_in_lines. apply in_or_app; right. apply in_or_app; left.
    apply in_map_iff. now exists q.
  - rewrite <- (port_line_layout (txt "reg  ") (txt "reg           ")
                                 (txt ";") q eq_refl Hlen).
    apply occurs_in_lines. apply in_or_app; right. apply in_or_app; left.
    apply in_map_iff. now exists q.
  - replace (fst q) with (fst q ++ []) by apply app_nil_r.
    rewrite <- (port_line_layout (txt "  - input wire ")
                                 (txt "  - input wire          ") [] q
                                 eq_refl Hlen).
    apply occurs_in_lines. apply in_or_app; left. apply in_or_app; right.
    apply in_or_app; right. apply in_map_iff. now exists q.
  - rewrite <- (port_line_layout (txt "    wire ") (txt "    wire          ")
                                 (txt ";") q eq_refl
                                 Hlen).
    apply occurs_in_lines. do 3 (apply in_or_app; right).
    apply in_map_iff. now exists q.
  - rewrite <- (port_line_layout (txt "wire ") (txt "wire          ")
                                 (txt ";") q eq_refl Hlen).
    apply occurs_in_lines. do 3 (apply in_or_app; right).
    apply in_map_iff. now exists q.
  - replace (fst q) with (fst q ++ []) by apply app_nil_r.
    rewrite <- (port_line_layout (txt "  - output ")
                                 (txt "  - output          ") [] q eq_refl
                                 Hlen).
    apply occurs_in_lines. apply in_or_app; right. apply in_or_app; right.
    apply in_map_iff. now exists q.
Qed.

(** The input [data] and the output [out] of the scenario of the
    specification *)
Lemma listings_share_one_layout_witness :
  occurs (txt "    reg  [7:0]    data;")
         (generate_signal_declarations
            (extract_dut_ports (Some scenario_dut)))
  /\ occurs (txt "  - input wire [7:0]    data")
            (format_port_info (extract_dut_ports (Some scenario_dut)))
  /\ occurs (txt "wire [7:0]    out;")
            (generate_corrected_declarations
               (extract_dut_ports (Some scenario_dut))).
Proof.
  assert (Hdata : In (txt "data", txt "[7:0]")
                     (inputs (extract_dut_ports (Some scenario_dut))))
    by (vm_compute; left; reflexivity).
  assert (Hout : In (txt "out", txt "[7:0]")
                    (outputs (extract_dut_ports (Some scenario_dut))))
    by (vm_compute; left; reflexivity).
  assert (Hlen : length (txt "[7:0]") <= 8) by (vm_compute; lia).
  pose proof (proj1 (listings_share_one_layout
                       (extract_dut_ports (Some scenario_dut))
                       (txt "data", txt "[7:0]") Hlen) Hdata)
    as (H1 & _ & H3).
  pose proof (proj2 (listings_share_one_layout
                       (extract_dut_ports (Some scenario_dut))
                       (txt "out", txt "[7:0]") Hlen) Hout)
    as (_ & H2 & _).
  split; [exact H1|]. split; [exact H3 | exact H2].
Defined.

(** ** The files a run writes *)



Section WritesOfARun.

Variable World : Type.
Variable E : Env World.



End WritesOfARun.


(** ** What the extractor finds *)

Section Forward.

Variable R : Type.
Variable k : str -> captures -> option R.

Lemma rmatch_cat_lit (l rest : str) (r : regex) (cs : captures) :
  rmatch (Cat (lit l) r) (l ++ rest) cs k = rmatch r rest cs k.
Proof.
  rewrite rmatch_lit_cat, starts_with_app, skipn_app, skipn_all, Nat.sub_diag.
  reflexivity.
Qed.

Lemma rmatch_cat_chr (c : ascii) (rest : str) (r : regex) (cs : captures) :
  rmatch (Cat (Chr c) r) (c :: rest) cs k = rmatch r rest cs k.
Proof. cbn [rmatch]. now rewrite Ascii.eqb_refl. Qed.

Lemma rmatch_cat_plus (p : ascii -> bool) (w rest : str) (r : regex)
      (cs : captures) (v : R) :
  w <> [] -> forallb p w = true -> not_continued p rest ->
  rmatch r rest cs k = Some v ->
  rmatch (Cat (Plus (Cls p)) r) (w ++ rest) cs k = Some v.
Proof.
  intros Hne Hw Hrest Hk.
  change (rmatch (Cat (Plus (Cls p)) r) (w ++ rest) cs k)
    with (rmatch (Plus (Cls p)) (w ++ rest) cs
                 (fun s1 c1 => rmatch r s1 c1 k)).
  now apply rmatch_plus_cls_run.
Qed.

Lemma rmatch_cat_grp_plus (n : nat) (p : ascii -> bool) (w rest : str)
      (r : regex) (cs : captures) (v : R) :
  w <> [] -> forallb p w = true -> not_continued p rest ->
  rmatch r rest ((n, w) :: cs) k = Some v ->
  rmatch (Cat (Grp n (Plus (Cls p))) r) (w ++ rest) cs k = Some v.
Proof.
  intros Hne Hw Hrest Hk.
  change (rmatch (Cat (Grp n (Plus (Cls p))) r) (w ++ rest) cs k)
    with (rmatch (Plus (Cls p)) (w ++ rest) cs
            (fun s1 c1 =>
               rmatch r s1
                 ((n, firstn (length (w ++ rest) - length s1) (w ++ rest))
                    :: c1) k)).
  apply rmatch_plus_cls_run; try assumption.
  rewrite length_app.
  replace (length w + length rest - length rest) with (length w) by lia.
  rewrite firstn_app, firstn_all, Nat.sub_diag. cbn [firstn].
  now rewrite app_nil_r.
Qed.

End Forward.

Lemma not_continued_word_space (w rest : str) :
  word_name w -> not_continued is_space (w ++ rest).
Proof.
  intros [Hne Hw]. destruct w as [|c w]; [congruence|].
  cbn [app not_continued]. cbn [forallb] in Hw.
  apply andb_true_iff in Hw as [Hc _].
  destruct (is_space c) eqn:Hs; [|reflexivity].
  exfalso. revert Hc Hs. unfold is_word, is_space, is_upper, is_lower,
    is_digit. generalize (code c). intros n.
  rewrite !orb_true_iff, !andb_true_iff, !Nat.leb_le, Nat.eqb_eq. lia.
Qed.

Lemma not_continued_kind (kind rest : str) :
  kind = txt "wire" \/ kind = txt "reg" ->
  not_continued is_space (kind ++ rest).
Proof. intros [-> | ->]; reflexivity. Qed.

(** A plain declaration is matched by the plain pattern, the name in group
    1; a ranged one by the ranged pattern, the bounds and the name in
    groups 1 to 3. *)
Lemma plain_pattern_here (dir sp1 kind sp2 name rest : str) :
  (kind = txt "wire" \/ kind = txt "reg") ->
  blank sp1 -> blank sp2 -> word_name name -> not_continued is_word rest ->
  rmatch (plain_pattern dir kind)
         (dir ++ sp1 ++ kind ++ sp2 ++ name ++ rest) []
         (fun rest cs => Some (rest, cs))
  = Some (rest, [(1, name)]).
Proof.
  intros Hkind [H1 H1'] [H2 H2'] Hname Hrest.
  unfold plain_pattern, spaces, word. cbn [seq fold_right].
  rewrite rmatch_cat_lit.
  apply rmatch_cat_plus; [assumption | assumption
                         | now apply not_continued_kind |].
  rewrite rmatch_cat_lit.
  apply rmatch_cat_plus; [assumption | assumption
                         | now apply not_continued_word_space |].
  destruct Hname as [Hn Hn'].
  apply rmatch_cat_grp_plus; [assumption | assumption | assumption |].
  reflexivity.
Qed.

Lemma ranged_pattern_here (dir sp1 kind sp2 h l sp3 name rest : str) :
  (kind = txt "wire" \/ kind = txt "reg") ->
  blank sp1 -> blank sp2 -> blank sp3 ->
  digit_string h -> digit_string l ->
  word_name name -> not_continued is_word rest ->
  rmatch (ranged_pattern dir kind)
         (dir ++ sp1 ++ kind ++ sp2 ++ (txt "[" ++ h ++ txt ":" ++ l ++ txt "]")
              ++ sp3 ++ name ++ rest) []
         (fun rest cs => Some (rest, cs))
  = Some (rest, [(3, name); (2, l); (1, h)]).
Proof.
  intros Hkind [H1 H1'] [H2 H2'] [H3 H3'] [Hh Hh'] [Hl Hl'] Hname Hrest.
  unfold ranged_pattern, spaces, word, digits. cbn [seq fold_right].
  rewrite rmatch_cat_lit.
  apply rmatch_cat_plus; [assumption | assumption
                         | now apply not_continued_kind |].
  rewrite rmatch_cat_lit.
  apply rmatch_cat_plus; [assumption | assumption | reflexivity |].
  change (txt "[") with ["["%char]. change (txt ":") with [":"%char].
  change (txt "]") with ["]"%char].
  rewrite <- !app_assoc. cbn [app].
  rewrite rmatch_cat_chr.
  apply rmatch_cat_grp_plus; [assumption | assumption | reflexivity |].
  rewrite rmatch_cat_chr.
  apply rmatch_cat_grp_plus; [assumption | assumption | reflexivity |].
  rewrite rmatch_cat_chr.
  apply rmatch_cat_plus; [assumption | assumption
                         | now apply not_continued_word_space |].
  destruct Hname as [Hn Hn'].
  apply rmatch_cat_grp_plus; [assumption | assumption | assumption |].
  reflexivity.
Qed.

(** The first match of [finditer] is the one [search] finds. *)
Lemma finditer_first (r : regex) (s : str) (m : rematch) :
  search_from r 0 s = Some m -> In m (finditer r s).
Proof.
  intros H. unfold finditer. cbn [finditer_from]. rewrite H. now left.
Qed.

(** A pattern that begins with the literal [dir] and matches at the first
    occurrence of [dir] has this match among those [finditer] yields. *)
Lemma finditer_at_first_lit (dir : str) (r : regex) (pre s rest : str)
      (cs : captures) :
  find dir (pre ++ s) = Some (length pre) ->
  rmatch (Cat (lit dir) r) s [] (fun rest cs => Some (rest, cs))
  = Some (rest, cs) ->
  exists m,
    In m (finditer (Cat (lit dir) r) (pre ++ s)) /\ m_groups m = cs.
Proof.
  intros Hfind Hr.
  destruct (@search_from_first_lit dir r (pre ++ s) 0 0 (length pre) Hfind)
    as (_ & _ & Hs).
  rewrite Nat.sub_0_r, skipn_app, skipn_all, Nat.sub_diag in Hs.
  cbn [skipn app] in Hs.
  rewrite (@search_from_here _ s rest cs _ Hr) in Hs.
  eexists. split; [apply finditer_first, Hs | reflexivity].
Qed.

(** The port of the first declaration, as [scan] finds it for one
    pattern *)
Lemma first_declaration_scanned (content pre dir sp1 kind sp2 sp3 rest : str)
      (q : port) :
  (kind = txt "wire" \/ kind = txt "reg") ->
  blank sp1 -> blank sp2 -> blank sp3 ->
  well_formed_port q ->
  not_continued is_word rest ->
  content = pre ++ declaration dir sp1 kind sp2 sp3 q ++ rest ->
  find dir content = Some (length pre) ->
  ngroups (plain_pattern dir kind) = 1 ->
  ngroups (ranged_pattern dir kind) = 3 ->
  match snd q with
  | [] => In q (map (port_of_match (plain_pattern dir kind))
                    (finditer (plain_pattern dir kind) content))
  | _ :: _ => In q (map (port_of_match (ranged_pattern dir kind))
                        (finditer (ranged_pattern dir kind) content))
  end.
Proof.
  intros Hkind H1 H2 H3 [Hname Hwidth] Hrest -> Hfind Hn1 Hn3.
  destruct q as [name width]. cbn [fst snd] in *.
  unfold declaration in *. cbn [fst snd] in *.
  destruct Hwidth as [-> | (h & l & -> & Hh & Hl)].
  - rewrite <- !app_assoc in *.
    destruct (finditer_at_first_lit dir _ pre _ rest _ Hfind
                (plain_pattern_here dir sp1 kind sp2 name rest
                                    Hkind H1 H2 Hname Hrest))
      as (m & Hin & Hcs).
    apply in_map_iff. exists m. split; [|exact Hin].
    unfold port_of_match. rewrite Hn1, Hcs. reflexivity.
  - change (txt "[" ++ h ++ txt ":" ++ l ++ txt "]")
      with ("["%char :: h ++ txt ":" ++ l ++ txt "]") in *.
    cbv iota in *.
    change ("["%char :: h ++ txt ":" ++ l ++ txt "]")
      with (txt "[" ++ h ++ txt ":" ++ l ++ txt "]") in *.
    rewrite <- !app_assoc in Hfind |- *.
    pose proof (ranged_pattern_here dir sp1 kind sp2 h l sp3 name rest
                  Hkind H1 H2 H3 Hh Hl Hname Hrest) as Hr.
    rewrite <- !app_assoc in Hr.
    destruct (finditer_at_first_lit dir _ pre _ rest _ Hfind Hr)
      as (m & Hin & Hcs).
    apply in_map_iff. exists m. split; [|exact Hin].
    unfold port_of_match. rewrite Hn3, Hcs. cbn [Nat.eqb group andb].
    now rewrite (word_has_no_colon name (proj2 Hname)).
Qed.

(** X24.  The first declaration of a direction is always found.  When the
    first [input] of the text begins a declaration - [input], white space,
    [wire] or [reg], white space, then a name, or a range [[h:l]], white
    space and a name - and the name ends where the word ends, the port is
    among the inputs of the descriptor, with its range as width or with
    the empty width; likewise the first [output] and the outputs.  What
    stands before and after the declaration does not matter. *)
Theorem first_declaration_is_found :
  forall (content pre dir sp1 kind sp2 sp3 rest : str) (q : port),
    (kind = txt "wire" \/ kind = txt "reg") ->
    blank sp1 -> blank sp2 -> blank sp3 ->
    well_formed_port q ->
    not_continued is_word rest ->
    content = pre ++ declaration dir sp1 kind sp2 sp3 q ++ rest ->
    find dir content = Some (length pre) ->
    (dir = txt "input" ->
     In q (inputs (extract_dut_ports (Some content))))
    /\ (dir = txt "output" ->
        In q (outputs (extract_dut_ports (Some content)))).
Proof.
  intros content pre dir sp1 kind sp2 sp3 rest q Hkind H1 H2 H3 Hq Hrest
         Hcontent Hfind.
  split; intros ->.
  - cbn [extract_dut_ports inputs]. unfold scan, input_patterns.
    cbn [flat_map]. rewrite app_nil_r, !in_app_iff.
    destruct Hkind as [-> | ->].
    + pose proof (first_declaration_scanned content pre (txt "input") sp1
                    (txt "wire") sp2 sp3 rest q (or_introl eq_refl)
                    H1 H2 H3 Hq Hrest Hcontent Hfind eq_refl eq_refl) as H.
      destruct (snd q); [right; left; exact H | left; exact H].
    + pose proof (first_declaration_scanned content pre (txt "input") sp1
                    (txt "reg") sp2 sp3 rest q (or_intror eq_refl)
                    H1 H2 H3 Hq Hrest Hcontent Hfind eq_refl eq_refl) as H.
      destruct (snd q); [right; right; right; exact H
                        | right; right; left; exact H].
  - cbn [extract_dut_ports outputs]. unfold scan, output_patterns.
    cbn [flat_map]. rewrite app_nil_r, !in_app_iff.
    destruct Hkind as [-> | ->].
    + pose proof (first_declaration_scanned content pre (txt "output") sp1
                    (txt "wire") sp2 sp3 rest q (or_introl eq_refl)
                    H1 H2 H3 Hq Hrest Hcontent Hfind eq_refl eq_refl) as H.
      destruct (snd q); [right; left; exact H | left; exact H].
    + pose proof (first_declaration_scanned content pre (txt "output") sp1
                    (txt "reg") sp2 sp3 rest q (or_intror eq_refl)
                    H1 H2 H3 Hq Hrest Hcontent Hfind eq_refl eq_refl) as H.
      destruct (snd q); [right; right; right; exact H
                        | right; right; left; exact H].
Qed.

(** The first output of a small counter *)
Lemma first_declaration_is_found_witness :
  In (txt "q", txt "[7:0]")
     (outputs (extract_dut_ports
                 (Some (txt "module counter(input wire clk, output reg  [7:0] q);")))).
Proof.
  refine (proj2 (first_declaration_is_found
            (txt "module counter(input wire clk, output reg  [7:0] q);")
            (txt "module counter(input wire clk, ")
            (txt "output") (txt " ") (txt "reg") (txt "  ") (txt " ")
            (txt ");") (txt "q", txt "[7:0]")
            (or_intror eq_refl) _ _ _ _ _ _ _) eq_refl).
  - split; [discriminate | reflexivity].
  - split; [discriminate | reflexivity].
  - split; [discriminate | reflexivity].
  - split; [split; [discriminate | reflexivity]|].
    right. exists (txt "7"), (txt "0").
    split; [reflexivity|].
    split; (split; [discriminate | reflexivity]).
  - reflexivity.
  - reflexivity.
  - vm_compute. reflexivity.
Defined.
